(** * image-processor: canvas geometry and colour keying

    A shallow embedding of the image-processing utilities of the
    repository (logo, headshot and background-removal helpers) together
    with the properties stated about them.

    Conventions of the embedding.

    - A JavaScript number is a rational [Q].  The fits of the logo and
      of the headshot are computed exactly: the quotients they round
      with [Math.ceil], [Math.round] or [Math.floor] have an integer
      numerator and a small denominator, so for image sizes the rounded
      values are the ones computed here; module [Binary64] repeats the
      headshot fit and the favicon placement in double precision and
      the concrete runs are checked to agree.  Where binary64 rounding
      decides the outcome it is modelled or excluded: [Math.sqrt] is
      the correctly rounded root ([JS.sqrt]), the products that the
      cropper floors or reports are rounded first ([JS.fl]), the loop
      of the earlier headshot is stated for whole steps, whose sums are
      exact, and the favicon's [Math.round] is stated away from exact
      halves, where the rounded product can fall on either side.
      [x / 0] is [0] in [Q] and [Infinity] or
      [NaN] in JavaScript; statements about dimensions therefore carry
      the hypotheses that keep the sizes and ratios they divide by
      positive, and where a minimum of zero can still be a divisor they
      are proved for both outcomes of the comparison it enters.
    - [img.width] and [img.height] are integers ([Z]).
    - A canvas is its size and the list of drawing calls made on its 2D
      context, oldest first; [toDataURL] returns the canvas as it stands.
    - A promise is its outcome, [Resolved v] or [Rejected msg].
    - The cropping component and the page are their state and one
      function per handler, each run on the state the previous one
      left; an asynchronous handler is the state it ends in. *)

From Stdlib Require Import ZArith QArith Qround Qabs Qpower Lia Lqa.
From Stdlib Require Import List Bool Ascii String.
From Stdlib Require Reals Qreals.
From Stdlib Require Import SpecFloat.
Import ListNotations.

Local Open Scope Q_scope.

(** ** JavaScript numbers *)

Module JS.

Definition ltb (a b : Q) : bool :=
  (Qnum a * QDen b <? Qnum b * QDen a)%Z.
Definition gtb (a b : Q) : bool := ltb b a.
(** [a === b] and [a !== b] on numbers. *)
Definition eqb (a b : Q) : bool := Qeq_bool a b.
Definition neqb (a b : Q) : bool := negb (Qeq_bool a b).

Definition ceil (x : Q) : Q := inject_Z (Qceiling x).
Definition floor (x : Q) : Q := inject_Z (Qfloor x).
(** [Math.round] rounds halves towards plus infinity. *)
Definition round (x : Q) : Q := inject_Z (Qfloor (x + (1 # 2))).
Definition abs (x : Q) : Q := Qabs x.
Definition max (a b : Q) : Q := if ltb a b then b else a.
Definition min (a b : Q) : Q := if ltb b a then b else a.

(** Truncation towards zero and the remainder operator [%]. *)
Definition trunc (x : Q) : Z := if ltb x 0 then Qceiling x else Qfloor x.
Definition rem (a b : Q) : Q := a - b * inject_Z (trunc (a / b)).

(** [Math.sqrt(n)] for a whole number [n]: the binary64 number nearest
    to the square root.  [n] is scaled by a power of four to [m] with
    [2^104 <= m < 2^106]; the integer root [s] of [m] then has 53 bits,
    and it is rounded up when the root of [m] lies above [s + 1/2]
    (a root of a whole number is never exactly halfway).  The whole
    numbers the code takes roots of are sums of three squares of byte
    differences, far below [2^53]. *)
Definition sqrt (n : Z) : Q :=
  if (n <=? 0)%Z then 0
  else
    let k := Z.max 0 (52 - Z.log2 n / 2) in
    let m := (n * 4 ^ k)%Z in
    let s := Z.sqrt m in
    let significand := if (m <=? s * s + s)%Z then s else (s + 1)%Z in
    inject_Z significand / inject_Z (2 ^ k).

(** [Math.sqrt(n) < t]; the root of a negative number is [NaN], which
    is below nothing. *)
Definition sqrt_ltb (n : Z) (t : Q) : bool :=
  (0 <=? n)%Z && ltb (sqrt n) t.

(** [floor(log2 a)] for a positive [a]. *)
Definition ilog2 (a : Q) : Z :=
  let e := (Z.log2 (Qnum a) - Z.log2 (Zpos (Qden a)))%Z in
  if Qle_bool (Qpower 2 e) a then e else (e - 1)%Z.

(** The nearest whole number, a half going to the even neighbour. *)
Definition roundEven (q : Q) : Z :=
  let f := Qfloor q in
  let r := q - inject_Z f in
  if ltb r (1 # 2) then f
  else if ltb (1 # 2) r then (f + 1)%Z
  else if Z.even f then f else (f + 1)%Z.

(** The binary64 number nearest to [x], a tie going to the even
    significand: what a product or a quotient of two numbers is in the
    code when its exact value is [x].  The significand has 53 bits; the
    range of the exponent is not modelled (the numbers rounded here are
    pixel sizes and their ratios). *)
Definition fl (x : Q) : Q :=
  if Qeq_bool x 0 then 0
  else
    let ulp := Qpower 2 (ilog2 (Qabs x) - 52) in
    inject_Z (roundEven (x / ulp)) * ulp.

(** Half the gap between 1 and the next binary64 number: the largest
    relative error of [fl]. *)
Definition unitRoundoff : Q := 1 # 9007199254740992.

(** A number that need not be finite. *)
Inductive Number :=
| Finite (q : Q)
| PlusInfinity
| MinusInfinity
| NaN.

(** [a / b] for whole numbers, [b] not negative. *)
Definition divide (a b : Z) : Number :=
  if (b =? 0)%Z then
    if (a =? 0)%Z then NaN
    else if (0 <? a)%Z then PlusInfinity else MinusInfinity
  else Finite (fl (inject_Z a / inject_Z b)).

(** [n * s] for a whole number [n]. *)
Definition multiply (n : Z) (s : Number) : Number :=
  match s with
  | Finite q => Finite (fl (inject_Z n * q))
  | PlusInfinity =>
      if (n =? 0)%Z then NaN
      else if (0 <? n)%Z then PlusInfinity else MinusInfinity
  | MinusInfinity =>
      if (n =? 0)%Z then NaN
      else if (0 <? n)%Z then MinusInfinity else PlusInfinity
  | NaN => NaN
  end.

End JS.

Declare Scope js_scope.
Delimit Scope js_scope with js.
Infix "<?" := JS.ltb : js_scope.
Infix ">?" := JS.gtb : js_scope.
Infix "===" := JS.eqb (at level 70) : js_scope.
Infix "!==" := JS.neqb (at level 70) : js_scope.
Local Open Scope js_scope.

(** ** Images, canvases and promises *)

Record RGBA := mkRGBA { red : Z; green : Z; blue : Z; alpha : Z }.

Record Image := mkImage {
  width : Z;
  height : Z;
  pixel : Z -> Z -> RGBA
}.

(** The calls made on a 2D context.  [DrawImage img x y] is the
    three-argument [drawImage], which copies the image at its own size;
    [DrawImageScaled] is the five-argument form and [DrawCanvasSub] the
    nine-argument form with another canvas as its source, both of which
    resample to the destination size.  [PutImageData] writes back a
    buffer of RGBA bytes. *)
#[warnings="-register-all"]
Inductive DrawOp :=
| FillRect (fillStyle : string) (x y w h : Q)
| ClearRect (x y w h : Q)
| DrawImage (img : Image) (x y : Q)
| DrawImageScaled (img : Image) (x y w h : Q)
| DrawCanvasSub (src_width src_height : Q) (src_calls : list DrawOp)
                (sx sy sw sh dx dy dw dh : Q)
| PutImageData (w h : Z) (data : list Z) (x y : Q).

Record Canvas := mkCanvas {
  canvas_width : Q;
  canvas_height : Q;
  calls : list DrawOp
}.

Inductive Promise (A : Type) :=
| Resolved (v : A)
| Rejected (msg : string).
Arguments Resolved {A} v.
Arguments Rejected {A} msg.

(** What the browser hands to [reader.onload] / [img.onload]. *)
Inductive Upload :=
| Unreadable
| Undecodable
| Loaded (img : Image).

(** Background painting shared by the logo helpers. *)
Definition paintBackground (transparent : bool) (w h : Q) : DrawOp :=
  if transparent then ClearRect 0 0 w h else FillRect "white" 0 0 w h.

(** ** Headshot processor ([processHeadshot] and [createHeadshot] of
       src/unnamed/part_002: padding only) *)

Module Headshot.

(** "Calculate dimensions to achieve the exact target ratio": the box
    around the source before the minimums are looked at. *)
Definition baseBox (origWidth origHeight : Z) (targetRatio : Q * Q)
  : Q * Q :=
  let t0 := fst targetRatio in
  let t1 := snd targetRatio in
  let origW := inject_Z origWidth in
  let origH := inject_Z origHeight in
  let targetAspect := t0 / t1 in
  let currentRatio := origW / origH in
  if currentRatio >? targetAspect
  then (origW, JS.ceil ((origW * t1) / t0))
  else (JS.ceil ((origH * t0) / t1), origH).

(** "Ensure minimum size requirements while maintaining exact aspect
    ratio", with its double check and its final ratio adjustment. *)
Definition enforceMinimums (minWidth minHeight : Q) (targetRatio : Q * Q)
           (size : Q * Q) : Q * Q :=
  let t0 := fst targetRatio in
  let t1 := snd targetRatio in
  let '(newWidth, newHeight) := size in
  if (newWidth <? minWidth) || (newHeight <? minHeight) then
    let widthScale := minWidth / newWidth in
    let heightScale := minHeight / newHeight in
    let scaleFactor := JS.max widthScale heightScale in
    let '(newWidth, newHeight) :=
      if widthScale >? heightScale
      then (minWidth, JS.ceil ((minWidth * t1) / t0))
      else (JS.ceil ((minHeight * t0) / t1), minHeight) in
    let newWidth := if newWidth <? minWidth then minWidth else newWidth in
    let newHeight := if newHeight <? minHeight then minHeight else newHeight in
    let actualRatio := newWidth / newHeight in
    let targetAspectRatio := t0 / t1 in
    if JS.abs (actualRatio - targetAspectRatio) >? (1 # 10000) then
      if newWidth / minWidth >? newHeight / minHeight
      then (JS.ceil (newHeight * targetAspectRatio), newHeight)
      else (newWidth, JS.ceil (newWidth / targetAspectRatio))
    else (newWidth, newHeight)
  else (newWidth, newHeight).

(** The canvas size chosen by [createHeadshot]: [newWidth] and
    [newHeight] at the point where they are assigned to the canvas. *)
Definition fit (origWidth origHeight : Z) (minWidth minHeight : Q)
           (targetRatio : Q * Q) : Q * Q :=
  enforceMinimums minWidth minHeight targetRatio
    (baseBox origWidth origHeight targetRatio).

Definition offsets (origWidth origHeight : Z) (size : Q * Q) : Q * Q :=
  (JS.floor ((fst size - inject_Z origWidth) / 2),
   JS.floor ((snd size - inject_Z origHeight) / 2)).

Definition createHeadshot (img : Image) (minWidth minHeight : Q)
           (targetRatio : Q * Q) : Canvas :=
  let '(newWidth, newHeight) :=
    fit (width img) (height img) minWidth minHeight targetRatio in
  let '(x, y) := offsets (width img) (height img) (newWidth, newHeight) in
  mkCanvas newWidth newHeight
    [FillRect "white" 0 0 newWidth newHeight; DrawImage img x y].

Record Options := mkOptions {
  minWidth : Q;
  minHeight : Q;
  targetRatio : Q * Q
}.
Definition defaults : Options := mkOptions 292 400 (73, 100).

(** The options are numbers.  The two [catch] clauses hand to [reject]
    whatever the body throws; on numbers nothing in the body throws
    (the canvas calls ignore sizes and positions that are not finite),
    so only the two rejections the processor raises itself appear.  An
    option of another type, a [null] target ratio for one, makes
    [targetRatio[0]] throw and the promise reject with that error: such
    options are outside this embedding. *)
Definition processHeadshot (file : Upload) (options : Options)
  : Promise Canvas :=
  match file with
  | Unreadable => Rejected "Failed to read file"
  | Undecodable => Rejected "Failed to load image"
  | Loaded img =>
      Resolved (createHeadshot img (minWidth options) (minHeight options)
                  (targetRatio options))
  end.

End Headshot.

(** ** Logo processor, current generation (first document of
       src/unnamed/part_000: [createRectangularLogo] with the 5:2
       snapping, [createSquareLogo], [createIcoFromSquare]) *)

Module Logo.

(** Smallest box of the wanted ratio around the source. *)
Definition baseBox (origWidth origHeight : Z) (aspectRatio : Q) : Q * Q :=
  let origW := inject_Z origWidth in
  let origH := inject_Z origHeight in
  let currentRatio := origW / origH in
  if currentRatio >? aspectRatio
  then (origW, JS.ceil (origW / aspectRatio))
  else (JS.ceil (origH * aspectRatio), origH).

(** "Now ensure dimensions meet minimum requirements". *)
Definition enforceMinimums (aspectRatio minWidth minHeight : Q)
           (base : Q * Q) : Q * Q :=
  let '(baseWidth, baseHeight) := base in
  if (baseWidth <? minWidth) || (baseHeight <? minHeight) then
    let '(baseWidth, baseHeight) :=
      if baseWidth <? minWidth
      then (minWidth, JS.ceil (minWidth / aspectRatio))
      else (baseWidth, baseHeight) in
    if baseHeight <? minHeight
    then (JS.ceil (minHeight * aspectRatio), minHeight)
    else (baseWidth, baseHeight)
  else (baseWidth, baseHeight).

(** The body of [if (aspectRatio === 2.5)]. *)
Definition snapFiveTwo (base : Q * Q) : Q * Q :=
  let '(baseWidth, baseHeight) := base in
  let baseWidth := JS.ceil (baseWidth / 5) * 5 in
  let baseHeight := (baseWidth * 2) / 5 in
  let '(baseWidth, baseHeight) :=
    if JS.rem baseHeight 2 !== 0 then
      let baseHeight := JS.ceil (baseHeight / 2) * 2 in
      ((baseHeight * 5) / 2, baseHeight)
    else (baseWidth, baseHeight) in
  let baseWidth := JS.round baseWidth in
  let baseHeight := JS.round baseHeight in
  if baseWidth / baseHeight !== (5 # 2) then
    let unitHeight := 2 in
    let unitWidth := 5 in
    let units := JS.max (JS.ceil (baseHeight / unitHeight))
                        (JS.ceil (baseWidth / unitWidth)) in
    (unitWidth * units, unitHeight * units)
  else (baseWidth, baseHeight).

Definition fit (origWidth origHeight : Z)
           (aspectRatio minWidth minHeight : Q) : Q * Q :=
  let base := baseBox origWidth origHeight aspectRatio in
  let base := enforceMinimums aspectRatio minWidth minHeight base in
  if aspectRatio === (5 # 2) then snapFiveTwo base else base.

Definition offsets (origWidth origHeight : Z) (size : Q * Q) : Q * Q :=
  (JS.floor ((fst size - inject_Z origWidth) / 2),
   JS.floor ((snd size - inject_Z origHeight) / 2)).

Definition createRectangularLogo (img : Image)
           (aspectRatio minWidth minHeight : Q) (transparent : bool)
  : Canvas :=
  let '(baseWidth, baseHeight) :=
    fit (width img) (height img) aspectRatio minWidth minHeight in
  let '(x, y) := offsets (width img) (height img) (baseWidth, baseHeight) in
  mkCanvas baseWidth baseHeight
    [paintBackground transparent baseWidth baseHeight; DrawImage img x y].

Definition squareSize (origWidth origHeight : Z) (minSize : Q) : Q :=
  let squareSize := JS.max (inject_Z origWidth) (inject_Z origHeight) in
  if squareSize <? minSize then minSize else squareSize.

Definition createSquareLogo (img : Image) (minSize : Q)
           (transparent : bool) : Canvas :=
  let squareSize := squareSize (width img) (height img) minSize in
  let x := JS.floor ((squareSize - inject_Z (width img)) / 2) in
  let y := JS.floor ((squareSize - inject_Z (height img)) / 2) in
  mkCanvas squareSize squareSize
    [paintBackground transparent squareSize squareSize; DrawImage img x y].

Definition sizes : list Q := [40; 48; 64].
(** [Math.max(...sizes)] on a non-empty list. *)
Definition largestSize : Q := fold_left JS.max (tl sizes) (hd 0 sizes).

(** Scaled size and position of the source on the favicon canvas. *)
(** The scaled size and the offsets of [createIcoFromSquare].  The
    products are exact here; the code rounds the quotient and the
    product to binary64 before [Math.round], which gives the same whole
    number unless the exact product is halfway between two whole
    numbers (a 6272 x 49 source: 49 * (64 / 6272) is
    0.49999999999999994 in binary64, see [Binary64.icoPlacement]). *)
Definition icoPlacement (largestSize : Q) (origWidth origHeight : Z)
  : (Q * Q) * (Q * Q) :=
  let origW := inject_Z origWidth in
  let origH := inject_Z origHeight in
  let scale := JS.min (largestSize / origW) (largestSize / origH) in
  let scaledWidth := JS.round (origW * scale) in
  let scaledHeight := JS.round (origH * scale) in
  let x := JS.floor ((largestSize - scaledWidth) / 2) in
  let y := JS.floor ((largestSize - scaledHeight) / 2) in
  ((scaledWidth, scaledHeight), (x, y)).

Definition createIcoFromSquare (img : Image) (transparent : bool) : Canvas :=
  let '((scaledWidth, scaledHeight), (x, y)) :=
    icoPlacement largestSize (width img) (height img) in
  mkCanvas largestSize largestSize
    [paintBackground transparent largestSize largestSize;
     DrawImageScaled img x y scaledWidth scaledHeight].

Record Options := mkOptions {
  aspectRatio : Q;
  minWidth : Q;
  minHeight : Q;
  square : bool;
  ico : bool;
  transparent : bool
}.
Definition defaults : Options := mkOptions (5 # 2) 400 160 true true false.

(** The object [processLogo] resolves with; [None] is [null]. *)
Record Result := mkResult {
  rectangular : Canvas;
  res_square : option Canvas;
  res_ico : option Canvas
}.

(** As for the headshot: the options are numbers and booleans, on which
    nothing in the body throws, and the [catch] clauses, which pass on
    what the body throws, stay silent. *)
Definition processLogo (file : Upload) (options : Options)
  : Promise Result :=
  match file with
  | Unreadable => Rejected "Failed to read file"
  | Undecodable => Rejected "Failed to load image"
  | Loaded img =>
      let rectBase64 :=
        createRectangularLogo img (aspectRatio options) (minWidth options)
          (minHeight options) (transparent options) in
      let squareBase64 :=
        if square options
        then Some (createSquareLogo img 40 (transparent options))
        else None in
      let icoBase64 :=
        if ico options && square options
        then Some (createIcoFromSquare img (transparent options))
        else None in
      Resolved (mkResult rectBase64 squareBase64 icoBase64)
  end.

End Logo.

(** ** Logo processor, earlier generation (second document of
       src/unnamed/part_000: sizes rounded with [Math.round], minimums
       reached through one scale factor) *)

Module LogoRounded.

Definition fit (origWidth origHeight : Z)
           (aspectRatio minWidth minHeight : Q) : Q * Q :=
  let origW := inject_Z origWidth in
  let origH := inject_Z origHeight in
  let currentRatio := origW / origH in
  let '(newWidth, newHeight) :=
    if currentRatio >? aspectRatio
    then (origW, JS.round (origW / aspectRatio))
    else (JS.round (origH * aspectRatio), origH) in
  if (newWidth <? minWidth) || (newHeight <? minHeight) then
    let scaleFactor := JS.max (minWidth / newWidth) (minHeight / newHeight) in
    (JS.round (newWidth * scaleFactor), JS.round (newHeight * scaleFactor))
  else (newWidth, newHeight).

Definition createRectangularLogo (img : Image)
           (aspectRatio minWidth minHeight : Q) (transparent : bool)
  : Canvas :=
  let '(newWidth, newHeight) :=
    fit (width img) (height img) aspectRatio minWidth minHeight in
  let x := JS.floor ((newWidth - inject_Z (width img)) / 2) in
  let y := JS.floor ((newHeight - inject_Z (height img)) / 2) in
  mkCanvas newWidth newHeight
    [paintBackground transparent newWidth newHeight; DrawImage img x y].

(** [createSquareLogo] is the same function in both documents. *)
Definition createSquareLogo := Logo.createSquareLogo.

Definition createIcoFromSquare (img : Image) (transparent : bool) : Canvas :=
  let '((scaledWidth, scaledHeight), (x, y)) :=
    Logo.icoPlacement 64 (width img) (height img) in
  mkCanvas 64 64
    [paintBackground transparent 64 64;
     DrawImageScaled img x y scaledWidth scaledHeight].

Definition processLogo (file : Upload) (options : Logo.Options)
  : Promise Logo.Result :=
  match file with
  | Unreadable => Rejected "Failed to read file"
  | Undecodable => Rejected "Failed to load image"
  | Loaded img =>
      let rectBase64 :=
        createRectangularLogo img (Logo.aspectRatio options)
          (Logo.minWidth options) (Logo.minHeight options)
          (Logo.transparent options) in
      let squareBase64 :=
        if Logo.square options
        then Some (createSquareLogo img 40 (Logo.transparent options))
        else None in
      let icoBase64 :=
        if Logo.ico options && Logo.square options
        then Some (createIcoFromSquare img (Logo.transparent options))
        else None in
      Resolved (Logo.mkResult rectBase64 squareBase64 icoBase64)
  end.

End LogoRounded.

(** ** Logo processor, first generation (src/unnamed/part_001: no
       [transparent] option, the background is always filled white) *)

Module LogoFirst.

(** The size computation is, line for line, the one of the earlier
    generation. *)
Definition createRectangularLogo (img : Image)
           (aspectRatio minWidth minHeight : Q) : Canvas :=
  let '(newWidth, newHeight) :=
    LogoRounded.fit (width img) (height img) aspectRatio minWidth minHeight in
  let x := JS.floor ((newWidth - inject_Z (width img)) / 2) in
  let y := JS.floor ((newHeight - inject_Z (height img)) / 2) in
  mkCanvas newWidth newHeight
    [FillRect "white" 0 0 newWidth newHeight; DrawImage img x y].

Definition createSquareLogo (img : Image) (minSize : Q) : Canvas :=
  let squareSize := Logo.squareSize (width img) (height img) minSize in
  let x := JS.floor ((squareSize - inject_Z (width img)) / 2) in
  let y := JS.floor ((squareSize - inject_Z (height img)) / 2) in
  mkCanvas squareSize squareSize
    [FillRect "white" 0 0 squareSize squareSize; DrawImage img x y].

Definition createIcoFromSquare (img : Image) : Canvas :=
  let '((scaledWidth, scaledHeight), (x, y)) :=
    Logo.icoPlacement 64 (width img) (height img) in
  mkCanvas 64 64
    [FillRect "white" 0 0 64 64;
     DrawImageScaled img x y scaledWidth scaledHeight].

Record Options := mkOptions {
  aspectRatio : Q;
  minWidth : Q;
  minHeight : Q;
  square : bool;
  ico : bool
}.

Definition processLogo (file : Upload) (options : Options)
  : Promise Logo.Result :=
  match file with
  | Unreadable => Rejected "Failed to read file"
  | Undecodable => Rejected "Failed to load image"
  | Loaded img =>
      let rectBase64 :=
        createRectangularLogo img (aspectRatio options) (minWidth options)
          (minHeight options) in
      let squareBase64 :=
        if square options then Some (createSquareLogo img 40) else None in
      let icoBase64 :=
        if ico options && square options
        then Some (createIcoFromSquare img) else None in
      Resolved (Logo.mkResult rectBase64 squareBase64 icoBase64)
  end.

End LogoFirst.

(** ** Headshot processor, earlier generation (second document of
       src/utils/CropperComponent.js: pads to a multiple of the ratio,
       then rescales the padded canvas up to the minimum) *)

Module HeadshotScaled.

(** [while (baseWidth < origWidth) baseWidth += targetRatio[0]]; the
    loop does not end when the step is not positive, hence the fuel.
    The sums are exact, as they are in the code for a whole step; with
    a fractional step the code's sums are rounded at every turn. *)
Fixpoint growWidth (fuel : nat) (step origW baseWidth : Q) : option Q :=
  if baseWidth <? origW then
    match fuel with
    | O => None
    | S fuel' => growWidth fuel' step origW (baseWidth + step)
    end
  else Some baseWidth.

Definition createHeadshot (fuel : nat) (img : Image)
           (minWidth minHeight : Q) (targetRatio : Q * Q) : option Canvas :=
  let t0 := fst targetRatio in
  let t1 := snd targetRatio in
  let origW := inject_Z (width img) in
  let origH := inject_Z (height img) in
  match growWidth fuel t0 origW t0 with
  | None => None
  | Some baseWidth =>
      let baseHeight := (baseWidth * t1) / t0 in
      let x := JS.floor ((baseWidth - origW) / 2) in
      let y := JS.floor ((baseHeight - origH) / 2) in
      let canvas :=
        mkCanvas baseWidth baseHeight
          [FillRect "white" 0 0 baseWidth baseHeight; DrawImage img x y] in
      if (baseWidth <? minWidth) || (baseHeight <? minHeight) then
        let widthScale := minWidth / baseWidth in
        let heightScale := minHeight / baseHeight in
        let scaleFactor := JS.max widthScale heightScale in
        let scaleWidth := JS.round (baseWidth * scaleFactor) in
        let scaleHeight := JS.round (baseHeight * scaleFactor) in
        Some (mkCanvas scaleWidth scaleHeight
                [FillRect "white" 0 0 scaleWidth scaleHeight;
                 DrawCanvasSub (canvas_width canvas) (canvas_height canvas)
                   (calls canvas)
                   0 0 baseWidth baseHeight 0 0 scaleWidth scaleHeight])
      else Some canvas
  end.

End HeadshotScaled.

(** ** Background removal by colour similarity ([removeBackground] of
       src/utils/imageManipulation.js) *)

Module ImageManipulation.

Definition hexDigit (c : ascii) : option Z :=
  let n := Z.of_nat (nat_of_ascii c) in
  if (48 <=? n)%Z && (n <=? 57)%Z then Some (n - 48)%Z
  else if (97 <=? n)%Z && (n <=? 102)%Z then Some (n - 87)%Z
  else if (65 <=? n)%Z && (n <=? 70)%Z then Some (n - 55)%Z
  else None.

Definition isWhiteSpace (c : ascii) : bool :=
  let n := nat_of_ascii c in
  (Nat.eqb n 32 || (Nat.leb 9 n && Nat.leb n 13))%bool.

Fixpoint skipWhiteSpace (s : string) : string :=
  match s with
  | String c s' => if isWhiteSpace c then skipWhiteSpace s' else s
  | EmptyString => s
  end.

(** Value of the longest prefix of hexadecimal digits; [acc] is [None]
    until a digit has been read. *)
Fixpoint hexPrefix (s : string) (acc : option Z) : option Z :=
  match s with
  | String c s' =>
      match hexDigit c with
      | Some d =>
          hexPrefix s' (Some (match acc with
                              | Some a => 16 * a + d
                              | None => d
                              end)%Z)
      | None => acc
      end
  | EmptyString => acc
  end.

(** [parseInt(s, 16)]; [None] is [NaN]. *)
Definition parseInt16 (s : string) : option Z :=
  let s := skipWhiteSpace s in
  let '(sign, s) :=
    match s with
    | String "-"%char s' => ((-1)%Z, s')
    | String "+"%char s' => (1%Z, s')
    | _ => (1%Z, s)
    end in
  let s :=
    match s with
    | String "0"%char (String "x"%char s') => s'
    | String "0"%char (String "X"%char s') => s'
    | _ => s
    end in
  match hexPrefix s None with
  | Some v => Some (sign * v)%Z
  | None => None
  end.

(** [str.slice(i, j)] for [0 <= i <= j]. *)
Definition slice (i j : nat) (s : string) : string := substring i (j - i) s.

(** [distance < tolerance] for one pixel; a component of the target
    that did not parse makes the distance [NaN] and the test false. *)
Definition similar (target : option Z * option Z * option Z)
           (tolerance : Q) (pixelR pixelG pixelB : Z) : bool :=
  match target with
  | (Some r, Some g, Some b) =>
      JS.sqrt_ltb ((pixelR - r) ^ 2 + (pixelG - g) ^ 2 + (pixelB - b) ^ 2)
        tolerance
  | _ => false
  end.

(** The loop over [imageData.data], four bytes at a time. *)
Fixpoint keyOut (target : option Z * option Z * option Z) (tolerance : Q)
         (data : list Z) : list Z :=
  match data with
  | pixelR :: pixelG :: pixelB :: pixelA :: rest =>
      pixelR :: pixelG :: pixelB ::
        (if similar target tolerance pixelR pixelG pixelB
         then 0%Z else pixelA) ::
        keyOut target tolerance rest
  | _ => data
  end.

Definition pixelBytes (p : RGBA) : list Z :=
  [red p; green p; blue p; alpha p].

(** [getImageData] of a canvas that holds just the image: its pixels,
    row by row from the top.  The pixels are read as the image has
    them, which is what the canvas holds of every opaque pixel; the
    statements about single pixels say so where it matters. *)
Definition imageBytes (img : Image) : list Z :=
  flat_map
    (fun y =>
       flat_map (fun x => pixelBytes (pixel img (Z.of_nat x) (Z.of_nat y)))
                (seq 0 (Z.to_nat (width img))))
    (seq 0 (Z.to_nat (height img))).

Record Options := mkOptions {
  targetColor : string;
  tolerance : Q
}.
Definition defaults : Options := mkOptions "#FFFFFF" 30.

Definition parseTarget (targetColor : string)
  : option Z * option Z * option Z :=
  (parseInt16 (slice 1 3 targetColor),
   parseInt16 (slice 3 5 targetColor),
   parseInt16 (slice 5 7 targetColor)).

Definition removeBackground (img : Image) (options : Options) : Canvas :=
  let target := parseTarget (targetColor options) in
  let w := inject_Z (width img) in
  let h := inject_Z (height img) in
  let data := imageBytes img in
  mkCanvas w h
    [DrawImage img 0 0;
     PutImageData (width img) (height img)
       (keyOut target (tolerance options) data) 0 0].

End ImageManipulation.

(** ** What the drawing calls leave on the canvas *)

Definition white : RGBA := mkRGBA 255 255 255 255.
Definition black : RGBA := mkRGBA 0 0 0 255.
Definition transparentBlack : RGBA := mkRGBA 0 0 0 0.

(** The fill styles the code sets; an unknown style leaves the initial
    one, which is black. *)
Definition cssColor (fillStyle : string) : RGBA :=
  if (fillStyle =? "white")%string then white else black.

(** The pixel (X, Y) lies in the rectangle at (x, y) of size w by h. *)
Definition inRect (x y w h : Q) (X Y : Z) : bool :=
  Qle_bool x (inject_Z X) && Qle_bool (inject_Z X + 1) (x + w) &&
  Qle_bool y (inject_Z Y) && Qle_bool (inject_Z Y + 1) (y + h).

Definition bytesPixel (w : Z) (data : list Z) (X Y : Z) : RGBA :=
  let i := Z.to_nat (4 * (Y * w + X)) in
  mkRGBA (nth i data 0%Z) (nth (i + 1) data 0%Z)
         (nth (i + 2) data 0%Z) (nth (i + 3) data 0%Z).

Section Rendering.

(** Source-over compositing of one pixel onto another, and the
    resampling of a source rectangle to a destination size: both are
    left to the browser.

    [putImageData] replaces the pixels it covers, whatever was there.
    The canvas keeps its pixels premultiplied by their alpha, so what
    it holds of a written pixel is that pixel composited onto
    transparent black: the pixel itself when it is opaque, and
    transparent black, its colour lost, when its alpha is 0. *)
Variable over : RGBA -> RGBA -> RGBA.
Variable resample :
  (Z -> Z -> RGBA) -> Q -> Q -> Q -> Q -> Q -> Q -> Z -> Z -> RGBA.

Fixpoint paintOp (op : DrawOp) (under : Z -> Z -> RGBA) {struct op}
  : Z -> Z -> RGBA :=
  match op with
  | FillRect fillStyle x y w h =>
      fun X Y =>
        if inRect x y w h X Y then over (cssColor fillStyle) (under X Y)
        else under X Y
  | ClearRect x y w h =>
      fun X Y => if inRect x y w h X Y then transparentBlack else under X Y
  | DrawImage img x y =>
      fun X Y =>
        let i := (X - Qfloor x)%Z in
        let j := (Y - Qfloor y)%Z in
        if (0 <=? i)%Z && (i <? width img)%Z &&
           (0 <=? j)%Z && (j <? height img)%Z
        then over (pixel img i j) (under X Y)
        else under X Y
  | DrawImageScaled img x y w h =>
      fun X Y =>
        if inRect x y w h X Y
        then over (resample (pixel img) 0 0 (inject_Z (width img))
                     (inject_Z (height img)) w h
                     (X - Qfloor x)%Z (Y - Qfloor y)%Z)
                  (under X Y)
        else under X Y
  | DrawCanvasSub _ _ src_calls sx sy sw sh dx dy dw dh =>
      let source :=
        (fix paintAll (ops : list DrawOp) (under : Z -> Z -> RGBA) :=
           match ops with
           | [] => under
           | op' :: ops' => paintAll ops' (paintOp op' under)
           end) src_calls (fun _ _ => transparentBlack) in
      fun X Y =>
        if inRect dx dy dw dh X Y
        then over (resample source sx sy sw sh dw dh
                     (X - Qfloor dx)%Z (Y - Qfloor dy)%Z)
                  (under X Y)
        else under X Y
  | PutImageData w h data x y =>
      fun X Y =>
        let i := (X - Qfloor x)%Z in
        let j := (Y - Qfloor y)%Z in
        if (0 <=? i)%Z && (i <? w)%Z && (0 <=? j)%Z && (j <? h)%Z
        then over (bytesPixel w data i j) transparentBlack
        else under X Y
  end.

(** A fresh canvas is transparent black. *)
Definition paint (ops : list DrawOp) : Z -> Z -> RGBA :=
  fold_left (fun under op => paintOp op under) ops
            (fun _ _ => transparentBlack).

Definition canvasPixel (c : Canvas) : Z -> Z -> RGBA := paint (calls c).

End Rendering.

(** Equality of sizes up to the representation of the rationals. *)
Definition size_eq (a b : Q * Q) : Prop := fst a == fst b /\ snd a == snd b.

(** The pixel size of a canvas whose attributes were set to [size]. *)
Definition pixelSize (size : Q * Q) : Z * Z :=
  (Qfloor (fst size), Qfloor (snd size)).

(** The box [size] contains the source, also after one side is traded
    for the other through the ratio [num : den]. *)
Definition around (origWidth origHeight : Z) (num den : Q) (size : Q * Q)
  : Prop :=
  inject_Z origWidth <= fst size /\ inject_Z origHeight <= snd size /\
  inject_Z origWidth * den <= snd size * num /\
  inject_Z origHeight * num <= fst size * den.

Definition meets (minWidth minHeight : Q) (size : Q * Q) : Prop :=
  minWidth <= fst size /\ minHeight <= snd size.

(** Neither side exceeds what the ratio derives from the other. *)
Definition tight (aspectRatio : Q) (size : Q * Q) : Prop :=
  fst size <= JS.ceil (snd size * aspectRatio) /\
  snd size <= JS.ceil (fst size / aspectRatio).


(** ** The same arithmetic in binary64

    The headshot fit and the favicon placement once more, over IEEE 754
    double precision ([prec = 53], [emax = 1024]) with round to nearest
    even, as a JavaScript engine computes them.  They serve to confirm
    the concrete runs of the rational embedding. *)

Module Binary64.

Definition prec : Z := 53.
Definition emax : Z := 1024.

Definition ofZ (z : Z) : spec_float := binary_normalize prec emax z 0 false.
Definition div : spec_float -> spec_float -> spec_float := SFdiv prec emax.
Definition mul : spec_float -> spec_float -> spec_float := SFmul prec emax.
Definition sub : spec_float -> spec_float -> spec_float := SFsub prec emax.
Definition ltb : spec_float -> spec_float -> bool := SFltb.
Definition gtb (a b : spec_float) : bool := SFltb b a.
Definition max (a b : spec_float) : spec_float := if ltb a b then b else a.
Definition min (a b : spec_float) : spec_float := if ltb b a then b else a.

(** The value of a finite number; infinities and [NaN] have none. *)
Definition toQ (x : spec_float) : option Q :=
  match x with
  | S754_zero _ => Some 0
  | S754_finite s m e =>
      let v := inject_Z (Z.pos m) * Qpower 2 e in
      Some (if s then - v else v)
  | _ => None
  end.

(** [Math.ceil], [Math.floor] and [Math.round] act on the exact value
    of their argument. *)
Definition integral (f : Q -> Z) (x : spec_float) : spec_float :=
  match x with
  | S754_finite s _ _ =>
      match toQ x with
      | Some v => binary_normalize prec emax (f v) 0 s
      | None => x
      end
  | _ => x
  end.
Definition ceil : spec_float -> spec_float := integral Qceiling.
Definition floor : spec_float -> spec_float := integral Qfloor.
Definition round : spec_float -> spec_float :=
  integral (fun v => Qfloor (v + (1 # 2))).

Definition baseBox (origWidth origHeight : Z)
           (targetRatio : spec_float * spec_float)
  : spec_float * spec_float :=
  let t0 := fst targetRatio in
  let t1 := snd targetRatio in
  let origW := ofZ origWidth in
  let origH := ofZ origHeight in
  let targetAspect := div t0 t1 in
  let currentRatio := div origW origH in
  if gtb currentRatio targetAspect
  then (origW, ceil (div (mul origW t1) t0))
  else (ceil (div (mul origH t0) t1), origH).

Definition enforceMinimums (minWidth minHeight : spec_float)
           (targetRatio : spec_float * spec_float)
           (size : spec_float * spec_float) : spec_float * spec_float :=
  let t0 := fst targetRatio in
  let t1 := snd targetRatio in
  let '(newWidth, newHeight) := size in
  if ltb newWidth minWidth || ltb newHeight minHeight then
    let widthScale := div minWidth newWidth in
    let heightScale := div minHeight newHeight in
    let scaleFactor := max widthScale heightScale in
    let '(newWidth, newHeight) :=
      if gtb widthScale heightScale
      then (minWidth, ceil (div (mul minWidth t1) t0))
      else (ceil (div (mul minHeight t0) t1), minHeight) in
    let newWidth := if ltb newWidth minWidth then minWidth else newWidth in
    let newHeight := if ltb newHeight minHeight then minHeight else newHeight in
    let actualRatio := div newWidth newHeight in
    let targetAspectRatio := div t0 t1 in
    if gtb (SFabs (sub actualRatio targetAspectRatio))
           (div (ofZ 1) (ofZ 10000)) then
      if gtb (div newWidth minWidth) (div newHeight minHeight)
      then (ceil (mul newHeight targetAspectRatio), newHeight)
      else (newWidth, ceil (div newWidth targetAspectRatio))
    else (newWidth, newHeight)
  else (newWidth, newHeight).

(** [createHeadshot]'s canvas size for whole-number options. *)
Definition fit (origWidth origHeight minWidth minHeight t0 t1 : Z)
  : option Q * option Q :=
  let size :=
    enforceMinimums (ofZ minWidth) (ofZ minHeight) (ofZ t0, ofZ t1)
      (baseBox origWidth origHeight (ofZ t0, ofZ t1)) in
  (toQ (fst size), toQ (snd size)).

(** [createIcoFromSquare]'s scaled size and offsets. *)
Definition icoPlacement (largestSize origWidth origHeight : Z)
  : (option Q * option Q) * (option Q * option Q) :=
  let largest := ofZ largestSize in
  let origW := ofZ origWidth in
  let origH := ofZ origHeight in
  let scale := min (div largest origW) (div largest origH) in
  let scaledWidth := round (mul origW scale) in
  let scaledHeight := round (mul origH scale) in
  let x := floor (div (sub largest scaledWidth) (ofZ 2)) in
  let y := floor (div (sub largest scaledHeight) (ofZ 2)) in
  ((toQ scaledWidth, toQ scaledHeight), (toQ x, toQ y)).

End Binary64.

(** Two sizes, one of them possibly undefined, are the same. *)
Definition same_size (a : option Q * option Q) (b : Q * Q) : Prop :=
  match a with
  | (Some w, Some h) => w == fst b /\ h == snd b
  | _ => False
  end.

(** ** Vocabulary of the statements *)

(** A source of one flat colour, for the concrete runs. *)
Definition flatImage (w h : Z) : Image :=
  mkImage w h (fun _ _ => mkRGBA 10 20 30 255).

(** Two columns: the left one white, the right one dark. *)
Definition twoColumns : Image :=
  mkImage 2 2 (fun x _ => if (x =? 0)%Z then white else mkRGBA 10 20 30 255).

(** A compositing operator and a resampler to run the drawing with. *)
Definition sampleOver (s b : RGBA) : RGBA :=
  if (alpha s =? 0)%Z then b else s.

Definition sampleResample (source : Z -> Z -> RGBA)
           (sx sy sw sh dw dh : Q) (X Y : Z) : RGBA :=
  source (Qfloor (sx + inject_Z X * sw / dw))
         (Qfloor (sy + inject_Z Y * sh / dh)).

(** Which of the optional fields of the result are set, given the
    [square] and [ico] options. *)
Definition logoFields (square ico : bool) (r : Logo.Result) : Prop :=
  (Logo.res_ico r <> None <-> ico = true /\ square = true) /\
  (Logo.res_square r <> None <-> square = true) /\
  (square = false -> Logo.res_square r = None /\ Logo.res_ico r = None).

(** The favicon canvas: 64 x 64, the source resampled by the one factor
    [min(64 / width, 64 / height)] with rounded sizes, centred, and
    inside the canvas with one side filling it. *)
Definition fitsFavicon (img : Image) (c : Canvas) : Prop :=
  canvas_width c == 64 /\ canvas_height c == 64 /\
  exists background x y scaledWidth scaledHeight,
    calls c = [background; DrawImageScaled img x y scaledWidth scaledHeight] /\
    let origW := inject_Z (width img) in
    let origH := inject_Z (height img) in
    let scale := JS.min (64 / origW) (64 / origH) in
    scaledWidth = JS.round (origW * scale) /\
    scaledHeight = JS.round (origH * scale) /\
    x = JS.floor ((64 - scaledWidth) / 2) /\
    y = JS.floor ((64 - scaledHeight) / 2) /\
    scaledWidth <= 64 /\ scaledHeight <= 64 /\ 0 <= x /\ 0 <= y /\
    (scaledWidth == 64 \/ scaledHeight == 64).

(** [x] lies exactly halfway between two whole numbers. *)
Definition halfway (x : Q) : Prop := exists m : Z, x == inject_Z m + (1 # 2).

(** One of the exact scaled sizes of the favicon is halfway between two
    whole numbers.  There the binary64 product the code rounds may lie
    on either side of the half, and [Math.round] follows it. *)
Definition faviconTie (origWidth origHeight : Z) : Prop :=
  let origW := inject_Z origWidth in
  let origH := inject_Z origHeight in
  let scale := JS.min (64 / origW) (64 / origH) in
  halfway (origW * scale) \/ halfway (origH * scale).

(** One pixel of the buffer: the four bytes at [4 * k]. *)
Definition pixelAt (data : list Z) (k : nat) : option RGBA :=
  match nth_error data (4 * k), nth_error data (4 * k + 1),
        nth_error data (4 * k + 2), nth_error data (4 * k + 3) with
  | Some r, Some g, Some b, Some a => Some (mkRGBA r g b a)
  | _, _, _, _ => None
  end.

(** A pixel after the keying loop has passed over it. *)
Definition keyed (target : option Z * option Z * option Z) (tolerance : Q)
           (p : RGBA) : RGBA :=
  mkRGBA (red p) (green p) (blue p)
         (if ImageManipulation.similar target tolerance
               (red p) (green p) (blue p)
          then 0%Z else alpha p).

(** A value of a [Uint8ClampedArray]. *)
Definition byte (v : Z) : Prop := (0 <= v <= 255)%Z.

(** The sum of squares the loop takes the square root of. *)
Definition distance2 (target : Z * Z * Z) (p : RGBA) : Z :=
  let '(r, g, b) := target in
  ((red p - r) ^ 2 + (green p - g) ^ 2 + (blue p - b) ^ 2)%Z.



(** ** Further code of the repository *)

(** The two tests inside the 5:2 snapping of [createRectangularLogo]:
    whether [baseHeight % 2 !== 0] holds, and whether the last check
    [baseWidth / baseHeight !== 2.5] holds (the branch that logs
    "Adjusting dimensions for exact 5:2 ratio"). *)
Definition snapChecks (base : Q * Q) : bool * bool :=
  let '(baseWidth, baseHeight) := base in
  let baseWidth := JS.ceil (baseWidth / 5) * 5 in
  let baseHeight := (baseWidth * 2) / 5 in
  let oddHeight := JS.rem baseHeight 2 !== 0 in
  let '(baseWidth, baseHeight) :=
    if oddHeight then
      let baseHeight := JS.ceil (baseHeight / 2) * 2 in
      ((baseHeight * 5) / 2, baseHeight)
    else (baseWidth, baseHeight) in
  let baseWidth := JS.round baseWidth in
  let baseHeight := JS.round baseHeight in
  (oddHeight, baseWidth / baseHeight !== (5 # 2)).

(** ** The cropping component ([ImageCropper] of
       src/utils/CropperComponent.js)

    The component's state and its handlers; every handler runs on the
    state the previous one left.  Mouse positions and the sizes of the
    displayed image are the numbers the browser reports. *)

Module Cropper.

Record CropArea := mkCropArea { x : Q; y : Q; width : Q; height : Q }.
Record Point := mkPoint { point_x : Q; point_y : Q }.
Record Size := mkSize { size_width : Q; size_height : Q }.

(** The four resize handles, by their class names. *)
Inductive Handle := nw | ne | sw | se.

(** [resizing.includes('n')] and the like. *)
Definition includes (handle : Handle) (c : ascii) : bool :=
  match handle with
  | nw => (c =? "n")%char || (c =? "w")%char
  | ne => (c =? "n")%char || (c =? "e")%char
  | sw => (c =? "s")%char || (c =? "w")%char
  | se => (c =? "s")%char || (c =? "e")%char
  end.

Record State := mkState {
  cropArea : CropArea;
  isDragging : bool;
  dragStart : Point;
  resizing : option Handle;
  imageSize : Size
}.

(** The [useState] initial values. *)
Definition initial : State :=
  mkState (mkCropArea 0 0 0 0) false (mkPoint 0 0) None (mkSize 0 0).

Definition initCropArea (s : State) (offsetWidth offsetHeight : Z) : State :=
  let offsetW := inject_Z offsetWidth in
  let offsetH := inject_Z offsetHeight in
  let width := JS.floor (offsetW * (8 # 10)) in
  let height := JS.floor (offsetH * (8 # 10)) in
  let x := JS.floor ((offsetW - width) / 2) in
  let y := JS.floor ((offsetH - height) / 2) in
  mkState (mkCropArea x y width height) (isDragging s) (dragStart s)
          (resizing s) (mkSize offsetW offsetH).

(** [target] is the handle the mouse went down on, if it was one. *)
Definition handleMouseDown (s : State) (target : option Handle)
           (clientX clientY : Q) : State :=
  match target with
  | Some handle =>
      mkState (cropArea s) true (mkPoint clientX clientY) (Some handle)
              (imageSize s)
  | None =>
      mkState (cropArea s) true (mkPoint clientX clientY) (resizing s)
              (imageSize s)
  end.

Definition resize (handle : Handle) (cropArea : CropArea) (imageSize : Size)
           (deltaX deltaY : Q) : CropArea :=
  let '(newY, newHeight) :=
    if includes handle "n"
    then (y cropArea + deltaY, height cropArea - deltaY)
    else if includes handle "s"
         then (y cropArea, height cropArea + deltaY)
         else (y cropArea, height cropArea) in
  let '(newX, newWidth) :=
    if includes handle "w"
    then (x cropArea + deltaX, width cropArea - deltaX)
    else if includes handle "e"
         then (x cropArea, width cropArea + deltaX)
         else (x cropArea, width cropArea) in
  let newWidth := if newWidth <? 50 then 50 else newWidth in
  let newHeight := if newHeight <? 50 then 50 else newHeight in
  let '(newX, newWidth) :=
    if newX <? 0 then (0, newWidth + newX) else (newX, newWidth) in
  let '(newY, newHeight) :=
    if newY <? 0 then (0, newHeight + newY) else (newY, newHeight) in
  let newWidth :=
    if newX + newWidth >? size_width imageSize
    then size_width imageSize - newX else newWidth in
  let newHeight :=
    if newY + newHeight >? size_height imageSize
    then size_height imageSize - newY else newHeight in
  mkCropArea (JS.floor newX) (JS.floor newY)
             (JS.floor newWidth) (JS.floor newHeight).

Definition move (cropArea : CropArea) (imageSize : Size)
           (deltaX deltaY : Q) : CropArea :=
  let newX := x cropArea + deltaX in
  let newY := y cropArea + deltaY in
  let newX := if newX <? 0 then 0 else newX in
  let newY := if newY <? 0 then 0 else newY in
  let newX :=
    if newX + width cropArea >? size_width imageSize
    then size_width imageSize - width cropArea else newX in
  let newY :=
    if newY + height cropArea >? size_height imageSize
    then size_height imageSize - height cropArea else newY in
  mkCropArea (JS.floor newX) (JS.floor newY)
             (width cropArea) (height cropArea).

Definition handleMouseMove (s : State) (clientX clientY : Q) : State :=
  if negb (isDragging s) then s
  else
    let deltaX := clientX - point_x (dragStart s) in
    let deltaY := clientY - point_y (dragStart s) in
    let newCropArea :=
      match resizing s with
      | Some handle => resize handle (cropArea s) (imageSize s) deltaX deltaY
      | None => move (cropArea s) (imageSize s) deltaX deltaY
      end in
    mkState newCropArea (isDragging s) (mkPoint clientX clientY)
            (resizing s) (imageSize s).

Definition handleMouseUp (s : State) : State :=
  mkState (cropArea s) false (dragStart s) None (imageSize s).

(** [ctx.drawImage(img, sx, sy, sWidth, sHeight, dx, dy, dWidth,
    dHeight)] with an image as its source. *)
Record DrawImageSub := mkDrawImageSub {
  source : Image;
  sx : Q; sy : Q; sWidth : Q; sHeight : Q;
  dx : Q; dy : Q; dWidth : Q; dHeight : Q
}.

(** The canvas a crop is drawn on: its size and the one call made. *)
Record CropCanvas := mkCropCanvas {
  crop_width : Q;
  crop_height : Q;
  crop_call : DrawImageSub
}.

(** [applyCrop]; [naturalWidth] and [offsetWidth] are those of the
    displayed image at the time of the click, [offsetWidth] positive.
    The scale and the four products are the binary64 numbers the code
    computes, and it is these that are floored: with a 150 pixel image
    shown 110 wide, [11 * (150 / 110)] is 14.999999999999998 and its
    floor 14. *)
Definition applyCrop (s : State) (img : Image)
           (naturalWidth offsetWidth : Z) : CropCanvas :=
  let scale := JS.fl (inject_Z naturalWidth / inject_Z offsetWidth) in
  let scaledCropArea :=
    mkCropArea (JS.floor (JS.fl (x (cropArea s) * scale)))
               (JS.floor (JS.fl (y (cropArea s) * scale)))
               (JS.floor (JS.fl (width (cropArea s) * scale)))
               (JS.floor (JS.fl (height (cropArea s) * scale))) in
  mkCropCanvas (width scaledCropArea) (height scaledCropArea)
    (mkDrawImageSub img
       (x scaledCropArea) (y scaledCropArea)
       (width scaledCropArea) (height scaledCropArea)
       0 0 (width scaledCropArea) (height scaledCropArea)).

(** What happens to the component. *)
Inductive Event :=
| Load (offsetWidth offsetHeight : Z)
| MouseDown (target : option Handle) (clientX clientY : Q)
| MouseMove (clientX clientY : Q)
| MouseUp.

Definition step (s : State) (e : Event) : State :=
  match e with
  | Load offsetWidth offsetHeight => initCropArea s offsetWidth offsetHeight
  | MouseDown target clientX clientY =>
      handleMouseDown s target clientX clientY
  | MouseMove clientX clientY => handleMouseMove s clientX clientY
  | MouseUp => handleMouseUp s
  end.

Definition run (events : list Event) : State := fold_left step events initial.

End Cropper.


(** The four bounds the handlers keep: the corner of the crop box is
    not negative, and the corner plus the size does not pass the size
    of the displayed image.  They confine the box only while its width
    and height are not negative. *)
Definition edgesBounded (s : Cropper.State) : Prop :=
  let c := Cropper.cropArea s in
  0 <= Cropper.x c /\ 0 <= Cropper.y c /\
  Cropper.x c + Cropper.width c <= Cropper.size_width (Cropper.imageSize s) /\
  Cropper.y c + Cropper.height c <= Cropper.size_height (Cropper.imageSize s).

(** The four numbers of the crop box are whole. *)
Definition wholeBox (c : Cropper.CropArea) : Prop :=
  exists X Y W H : Z,
    c = Cropper.mkCropArea (inject_Z X) (inject_Z Y) (inject_Z W)
          (inject_Z H).

(** The crop box lies on the displayed image. *)
Definition onImage (s : Cropper.State) : Prop :=
  edgesBounded s /\
  0 <= Cropper.width (Cropper.cropArea s) /\
  0 <= Cropper.height (Cropper.cropArea s).

(** The mouse does not go down on a resize handle. *)
Definition noHandle (e : Cropper.Event) : Prop :=
  match e with
  | Cropper.MouseDown (Some _) _ _ => False
  | _ => True
  end.

(** Every image that loads has a size that is not negative. *)
Definition soundLoad (e : Cropper.Event) : Prop :=
  match e with
  | Cropper.Load offsetWidth offsetHeight =>
      (0 <= offsetWidth)%Z /\ (0 <= offsetHeight)%Z
  | _ => True
  end.

(** ** The cropping interface built on the DOM
       ([createCroppingInterface] of src/utils/imageManipulation.js) *)

(** The decimal digit for [0 <= d < 10]. *)
Definition digitChar (d : Z) : ascii := ascii_of_nat (48 + Z.to_nat d).

Definition decDigit (c : ascii) : option Z :=
  let n := Z.of_nat (nat_of_ascii c) in
  if (48 <=? n)%Z && (n <=? 57)%Z then Some (n - 48)%Z else None.

(** The decimal digits of [n >= 0] in front of [acc]; [fuel] bounds the
    number of digits after the first. *)
Fixpoint digitsOf (fuel : nat) (n : Z) (acc : string) : string :=
  match fuel with
  | O => String (digitChar (n mod 10)) acc
  | S fuel' =>
      if (n <? 10)%Z then String (digitChar n) acc
      else digitsOf fuel' (n / 10) (String (digitChar (n mod 10)) acc)
  end.

(** An integer in a template literal: [`${n}`]. *)
Definition toString (n : Z) : string :=
  if (n <? 0)%Z
  then String "-" (digitsOf (Z.to_nat (- n)) (- n) "")
  else digitsOf (Z.to_nat n) n "".

(** Value of the longest prefix of decimal digits, as [hexPrefix]. *)
Fixpoint decPrefix (s : string) (acc : option Z) : option Z :=
  match s with
  | String c s' =>
      match decDigit c with
      | Some d =>
          decPrefix s' (Some (match acc with
                              | Some a => 10 * a + d
                              | None => d
                              end)%Z)
      | None => acc
      end
  | EmptyString => acc
  end.

(** [parseInt(s)] without a radix: base 16 after [0x] or [0X], base 10
    otherwise; [None] is [NaN]. *)
Definition parseInt (s : string) : option Z :=
  let s := ImageManipulation.skipWhiteSpace s in
  let '(sign, s) :=
    match s with
    | String "-"%char s' => ((-1)%Z, s')
    | String "+"%char s' => (1%Z, s')
    | _ => (1%Z, s)
    end in
  let digits :=
    match s with
    | String "0"%char (String "x"%char s') =>
        ImageManipulation.hexPrefix s' None
    | String "0"%char (String "X"%char s') =>
        ImageManipulation.hexPrefix s' None
    | _ => decPrefix s None
    end in
  match digits with
  | Some v => Some (sign * v)%Z
  | None => None
  end.

Module CroppingInterface.

(** The four properties of [cropBox.style] the code writes and reads;
    a property that was never set reads as the empty string. *)
Record Style := mkStyle {
  left : string;
  top : string;
  width : string;
  height : string
}.

Definition unset : Style := mkStyle "" "" "" "".

Definition px (n : Z) : string := (toString n ++ "px")%string.

(** [initCropBox], with the [offsetWidth] and [offsetHeight] of the
    cloned image. *)
Definition initCropBox (imgWidth imgHeight : Z) : Style :=
  let cropWidth := Qfloor (inject_Z imgWidth * (8 # 10)) in
  let cropHeight := Qfloor (inject_Z imgHeight * (8 # 10)) in
  mkStyle (px (Qfloor ((inject_Z imgWidth - inject_Z cropWidth) / 2)))
          (px (Qfloor ((inject_Z imgHeight - inject_Z cropHeight) / 2)))
          (px cropWidth)
          (px cropHeight).

(** The object handed to [onCropComplete]. *)
Record CropArea := mkCropArea {
  x : JS.Number;
  y : JS.Number;
  area_width : JS.Number;
  area_height : JS.Number
}.

(** [parseInt(...) * scale]; [parseInt] gives [NaN] for [None]. *)
Definition times (n : option Z) (scale : JS.Number) : JS.Number :=
  match n with
  | Some n => JS.multiply n scale
  | None => JS.NaN
  end.

(** The click handler of the crop button; [offsetWidth] is 0 for an
    image that is not laid out. *)
Definition click (style : Style) (naturalWidth offsetWidth : Z) : CropArea :=
  let scale := JS.divide naturalWidth offsetWidth in
  mkCropArea (times (parseInt (left style)) scale)
             (times (parseInt (top style)) scale)
             (times (parseInt (width style)) scale)
             (times (parseInt (height style)) scale).

End CroppingInterface.

(** ** Background removal behind a promise ([removeBackgroundAI] of
       src/utils/imageManipulation.js) *)

(** What is written to the console: [console.log] of a text followed by
    a [width x height] pair, and [console.warn]. *)
Inductive ConsoleEntry :=
| Log (text : string) (w h : Z)
| Warn (text : string).

(** A run of an asynchronous function: what it wrote to the console and
    how its promise settled; [None] when the promise stays pending. *)
Record Run (A : Type) := mkRun {
  console : list ConsoleEntry;
  outcome : option (Promise A)
}.
Arguments mkRun {A} console outcome.
Arguments console {A} r.
Arguments outcome {A} r.

(** The options [removeBackgroundAI] falls back on. *)
Definition defaultsAI : ImageManipulation.Options :=
  ImageManipulation.mkOptions "#FFFFFF" 50.

(** [decode] is the loading of the PNG data URL of a canvas into an
    [Image]: the image the browser decodes, or [None] when the load
    fails.  [getImageData] throws on an empty rectangle; inside the
    [onload] handler nothing catches it and the promise is never
    settled. *)
Definition removeBackgroundAI (decode : Canvas -> option Image)
           (file : Upload) (options : ImageManipulation.Options)
  : Run Canvas :=
  match file with
  | Unreadable => mkRun [] (Some (Rejected "Failed to read file"))
  | Undecodable => mkRun [] (Some (Rejected "Failed to load image"))
  | Loaded img =>
      let original :=
        Log "Background removal - Original image dimensions: "
            (width img) (height img) in
      if (width img <=? 0)%Z || (height img <=? 0)%Z
      then mkRun [original] None
      else
        let result :=
          ImageManipulation.removeBackground img
            (ImageManipulation.mkOptions
               (ImageManipulation.targetColor options)
               (ImageManipulation.tolerance options)) in
        match decode result with
        | Some verifyImg =>
            let verified :=
              Log "Background removal - Result image dimensions: "
                  (width verifyImg) (height verifyImg) in
            let warning :=
              if negb (width verifyImg =? width img)%Z ||
                 negb (height verifyImg =? height img)%Z
              then [Warn "Background removal changed image dimensions!"]
              else [] in
            mkRun ([original; verified] ++ warning) (Some (Resolved result))
        | None =>
            mkRun [original]
                  (Some (Rejected "Failed to verify result image"))
        end
  end.

(** ** The page ([Home] of src/pages/index.js, the version with
       cropping and background removal) *)

Module Home.

Record State := mkState {
  activeTab : string;
  loading : bool;
  error : option string;
  success : option string;
  logoFile : option Upload;
  logoResults : option Logo.Result;
  transparentBg : bool;
  headshotFile : option Upload;
  headshotResult : option Canvas;
  showCropper : bool;
  cropperImage : option Upload;
  cropperType : option string;
  removeBackgroundOption : bool;
  bgRemovalTolerance : Q;
  bgColor : string
}.

Definition setActiveTab (v : string) (s : State) : State :=
  mkState v (loading s) (error s) (success s) (logoFile s) (logoResults s)
    (transparentBg s) (headshotFile s) (headshotResult s) (showCropper s)
    (cropperImage s) (cropperType s) (removeBackgroundOption s)
    (bgRemovalTolerance s) (bgColor s).

Definition setLoading (v : bool) (s : State) : State :=
  mkState (activeTab s) v (error s) (success s) (logoFile s)
    (logoResults s) (transparentBg s) (headshotFile s) (headshotResult s)
    (showCropper s) (cropperImage s) (cropperType s)
    (removeBackgroundOption s) (bgRemovalTolerance s) (bgColor s).

Definition setError (v : option string) (s : State) : State :=
  mkState (activeTab s) (loading s) v (success s) (logoFile s)
    (logoResults s) (transparentBg s) (headshotFile s) (headshotResult s)
    (showCropper s) (cropperImage s) (cropperType s)
    (removeBackgroundOption s) (bgRemovalTolerance s) (bgColor s).

Definition setSuccess (v : option string) (s : State) : State :=
  mkState (activeTab s) (loading s) (error s) v (logoFile s)
    (logoResults s) (transparentBg s) (headshotFile s) (headshotResult s)
    (showCropper s) (cropperImage s) (cropperType s)
    (removeBackgroundOption s) (bgRemovalTolerance s) (bgColor s).

Definition setLogoFile (v : option Upload) (s : State) : State :=
  mkState (activeTab s) (loading s) (error s) (success s) v (logoResults s)
    (transparentBg s) (headshotFile s) (headshotResult s) (showCropper s)
    (cropperImage s) (cropperType s) (removeBackgroundOption s)
    (bgRemovalTolerance s) (bgColor s).

Definition setLogoResults (v : option Logo.Result) (s : State) : State :=
  mkState (activeTab s) (loading s) (error s) (success s) (logoFile s) v
    (transparentBg s) (headshotFile s) (headshotResult s) (showCropper s)
    (cropperImage s) (cropperType s) (removeBackgroundOption s)
    (bgRemovalTolerance s) (bgColor s).

Definition setTransparentBg (v : bool) (s : State) : State :=
  mkState (activeTab s) (loading s) (error s) (success s) (logoFile s)
    (logoResults s) v (headshotFile s) (headshotResult s) (showCropper s)
    (cropperImage s) (cropperType s) (removeBackgroundOption s)
    (bgRemovalTolerance s) (bgColor s).

Definition setHeadshotFile (v : option Upload) (s : State) : State :=
  mkState (activeTab s) (loading s) (error s) (success s) (logoFile s)
    (logoResults s) (transparentBg s) v (headshotResult s) (showCropper s)
    (cropperImage s) (cropperType s) (removeBackgroundOption s)
    (bgRemovalTolerance s) (bgColor s).

Definition setHeadshotResult (v : option Canvas) (s : State) : State :=
  mkState (activeTab s) (loading s) (error s) (success s) (logoFile s)
    (logoResults s) (transparentBg s) (headshotFile s) v (showCropper s)
    (cropperImage s) (cropperType s) (removeBackgroundOption s)
    (bgRemovalTolerance s) (bgColor s).

Definition setShowCropper (v : bool) (s : State) : State :=
  mkState (activeTab s) (loading s) (error s) (success s) (logoFile s)
    (logoResults s) (transparentBg s) (headshotFile s) (headshotResult s) v
    (cropperImage s) (cropperType s) (removeBackgroundOption s)
    (bgRemovalTolerance s) (bgColor s).

Definition setCropperImage (v : option Upload) (s : State) : State :=
  mkState (activeTab s) (loading s) (error s) (success s) (logoFile s)
    (logoResults s) (transparentBg s) (headshotFile s) (headshotResult s)
    (showCropper s) v (cropperType s) (removeBackgroundOption s)
    (bgRemovalTolerance s) (bgColor s).

Definition setCropperType (v : option string) (s : State) : State :=
  mkState (activeTab s) (loading s) (error s) (success s) (logoFile s)
    (logoResults s) (transparentBg s) (headshotFile s) (headshotResult s)
    (showCropper s) (cropperImage s) v (removeBackgroundOption s)
    (bgRemovalTolerance s) (bgColor s).

Definition setRemoveBackgroundOption (v : bool) (s : State) : State :=
  mkState (activeTab s) (loading s) (error s) (success s) (logoFile s)
    (logoResults s) (transparentBg s) (headshotFile s) (headshotResult s)
    (showCropper s) (cropperImage s) (cropperType s) v
    (bgRemovalTolerance s) (bgColor s).

Definition setBgRemovalTolerance (v : Q) (s : State) : State :=
  mkState (activeTab s) (loading s) (error s) (success s) (logoFile s)
    (logoResults s) (transparentBg s) (headshotFile s) (headshotResult s)
    (showCropper s) (cropperImage s) (cropperType s)
    (removeBackgroundOption s) v (bgColor s).

Definition setBgColor (v : string) (s : State) : State :=
  mkState (activeTab s) (loading s) (error s) (success s) (logoFile s)
    (logoResults s) (transparentBg s) (headshotFile s) (headshotResult s)
    (showCropper s) (cropperImage s) (cropperType s)
    (removeBackgroundOption s) (bgRemovalTolerance s) v.

Definition initial : State :=
  mkState "logo" false None None None None false None None false None None
          false 30 "#FFFFFF".

Section Handlers.

(** The browser's loading of a canvas's data URL, as for
    [removeBackgroundAI]. *)
Variable decode : Canvas -> option Image.

(** [fetch] of a data URL, its blob wrapped in a [File]: the upload the
    processors will read. *)
Definition fileOf (c : Canvas) : Upload :=
  match decode c with
  | Some img => Loaded img
  | None => Undecodable
  end.

(** The optional background removal of both submit handlers. *)
Definition removeBackgroundIfSelected (s : State) (fileToProcess : Upload)
  : option (Promise Upload) :=
  if removeBackgroundOption s then
    match outcome (removeBackgroundAI decode fileToProcess
                     (ImageManipulation.mkOptions (bgColor s)
                        (bgRemovalTolerance s))) with
    | Some (Resolved bgRemovedBase64) =>
        Some (Resolved (fileOf bgRemovedBase64))
    | Some (Rejected message) => Some (Rejected message)
    | None => None
    end
  else Some (Resolved fileToProcess).

(** The state once [handleLogoSubmit] has run as far as it gets. *)
Definition handleLogoSubmit (s : State) (croppedFile : option Upload)
  : State :=
  let fileToProcess :=
    match croppedFile with
    | Some file => Some file
    | None => logoFile s
    end in
  match fileToProcess with
  | None => setError (Some "Please select a logo file"%string) s
  | Some fileToProcess =>
      let s := setError None (setLoading true s) in
      match removeBackgroundIfSelected s fileToProcess with
      | None => s
      | Some (Rejected message) =>
          setLoading false
            (setError (Some ("Error processing logo: " ++ message)%string) s)
      | Some (Resolved processedFile) =>
          match Logo.processLogo processedFile
                  (Logo.mkOptions (5 # 2) 400 160 true true
                     (transparentBg s)) with
          | Resolved results =>
              setLoading false
                (setSuccess (Some "Logo processed successfully!"%string)
                   (setLogoResults (Some results) s))
          | Rejected message =>
              setLoading false
                (setError (Some ("Error processing logo: " ++ message)%string) s)
          end
      end
  end.

Definition handleHeadshotSubmit (s : State) (croppedFile : option Upload)
  : State :=
  let fileToProcess :=
    match croppedFile with
    | Some file => Some file
    | None => headshotFile s
    end in
  match fileToProcess with
  | None => setError (Some "Please select a headshot file"%string) s
  | Some fileToProcess =>
      let s := setError None (setLoading true s) in
      match removeBackgroundIfSelected s fileToProcess with
      | None => s
      | Some (Rejected message) =>
          setLoading false
            (setError (Some ("Error processing headshot: " ++ message)%string) s)
      | Some (Resolved processedFile) =>
          match Headshot.processHeadshot processedFile
                  (Headshot.mkOptions 292 400 (73, 100)) with
          | Resolved result =>
              setLoading false
                (setSuccess (Some "Headshot processed successfully!"%string)
                   (setHeadshotResult (Some result) s))
          | Rejected message =>
              setLoading false
                (setError (Some ("Error processing headshot: " ++ message)%string)
                   s)
          end
      end
  end.

Definition handleLogoChange (s : State) (file : option Upload) : State :=
  match file with
  | Some file =>
      let s :=
        setSuccess None
          (setError None (setLogoResults None (setLogoFile (Some file) s))) in
      match file with
      | Unreadable => s
      | _ => setCropperImage (Some file) s
      end
  | None => s
  end.

Definition handleHeadshotChange (s : State) (file : option Upload) : State :=
  match file with
  | Some file =>
      let s :=
        setSuccess None
          (setError None
             (setHeadshotResult None (setHeadshotFile (Some file) s))) in
      match file with
      | Unreadable => s
      | _ => setCropperImage (Some file) s
      end
  | None => s
  end.

Definition handleCrop (s : State) (type : string) : State :=
  setShowCropper true (setCropperType (Some type) s).

(** [file] is what the data URL handed over by the cropper holds; the
    [fetch] of a data URL does not fail, and the last [setLoading] only
    repeats the one of the submit handler. *)
Definition handleCropComplete (s : State) (file : Upload) : State :=
  let s := setLoading true (setShowCropper false s) in
  match cropperType s with
  | Some "logo"%string =>
      handleLogoSubmit (setLogoFile (Some file) s) (Some file)
  | _ => handleHeadshotSubmit (setHeadshotFile (Some file) s) (Some file)
  end.

Definition handleCropCancel (s : State) : State := setShowCropper false s.

(** [copyToClipboard]: [failure] is the message of the rejection, if
    the clipboard refused. *)
Definition copyToClipboard (s : State) (failure : option string) : State :=
  match failure with
  | None => setSuccess (Some "Copied to clipboard!"%string) s
  | Some message => setError (Some ("Failed to copy: " ++ message)%string) s
  end.

(** What happens on the page: the handlers above, the inline [onChange]
    handlers of the inputs and the timer [copyToClipboard] starts.  The
    value of the tolerance slider is the decimal string of a whole
    number, which its handler reads with [parseInt]. *)
Inductive Event :=
| LogoChange (file : option Upload)
| HeadshotChange (file : option Upload)
| Crop (type : string)
| CropComplete (file : Upload)
| CropCancel
| LogoSubmit
| HeadshotSubmit
| Copy (failure : option string)
| CopyTimeout
| TabClick (tab : string)
| TransparentChange (checked : bool)
| RemoveBackgroundChange (checked : bool)
| ToleranceChange (value : Z)
| ColorChange (value : string).

Definition step (s : State) (e : Event) : State :=
  match e with
  | LogoChange file => handleLogoChange s file
  | HeadshotChange file => handleHeadshotChange s file
  | Crop type => handleCrop s type
  | CropComplete file => handleCropComplete s file
  | CropCancel => handleCropCancel s
  | LogoSubmit => handleLogoSubmit s None
  | HeadshotSubmit => handleHeadshotSubmit s None
  | Copy failure => copyToClipboard s failure
  | CopyTimeout => setSuccess None s
  | TabClick tab => setActiveTab tab s
  | TransparentChange checked => setTransparentBg checked s
  | RemoveBackgroundChange checked => setRemoveBackgroundOption checked s
  | ToleranceChange value =>
      match parseInt (toString value) with
      | Some tolerance => setBgRemovalTolerance (inject_Z tolerance) s
      | None => s
      end
  | ColorChange value => setBgColor value s
  end.

Definition run (events : list Event) : State := fold_left step events initial.

End Handlers.

End Home.

(** A browser whose decoder gives back an image of the size of the
    canvas, and fails only on an empty canvas. *)
Definition keepsSize (decode : Canvas -> option Image) : Prop :=
  forall c : Canvas,
    (0 < Qfloor (canvas_width c))%Z -> (0 < Qfloor (canvas_height c))%Z ->
    exists img,
      decode c = Some img /\
      width img = Qfloor (canvas_width c) /\
      height img = Qfloor (canvas_height c).

(** A decoder to run the page with: the pixels the drawing calls leave. *)
Definition sampleDecode (c : Canvas) : option Image :=
  if (0 <? Qfloor (canvas_width c))%Z && (0 <? Qfloor (canvas_height c))%Z
  then Some (mkImage (Qfloor (canvas_width c)) (Qfloor (canvas_height c))
               (canvasPixel sampleOver sampleResample c))
  else None.

(** Two canvases of one size. *)
Definition sameSize (a b : Canvas) : Prop :=
  canvas_width a == canvas_width b /\ canvas_height a == canvas_height b.

Definition sameSizeOpt (a b : option Canvas) : Prop :=
  match a, b with
  | Some a, Some b => sameSize a b
  | None, None => True
  | _, _ => False
  end.
(** The buffer [removeBackground] put back on its canvas. *)
Definition keyedBuffer (c : Canvas) : list Z :=
  match calls c with
  | [_; PutImageData _ _ data _ _] => data
  | _ => []
  end.

(** An upload whose image, if it decodes, is not empty. *)
Definition soundUpload (file : Upload) : Prop :=
  match file with
  | Loaded img => (0 < width img)%Z /\ (0 < height img)%Z
  | _ => True
  end.

Definition soundEvent (e : Home.Event) : Prop :=
  match e with
  | Home.LogoChange (Some file) => soundUpload file
  | Home.HeadshotChange (Some file) => soundUpload file
  | Home.CropComplete file => soundUpload file
  | _ => True
  end.

(** What the page has to show is fit to be shown: a logo result holds
    a rectangular logo of exactly 5:2 that is at least 400 x 160, a
    square logo of side 40 or more and a 64 x 64 favicon; a headshot
    result is at least 292 x 400. *)
Definition presentable (s : Home.State) : Prop :=
  (forall results,
     Home.logoResults s = Some results ->
     (exists k : Z,
        (0 < k)%Z /\
        canvas_width (Logo.rectangular results) == inject_Z (5 * k) /\
        canvas_height (Logo.rectangular results) == inject_Z (2 * k)) /\
     400 <= canvas_width (Logo.rectangular results) /\
     160 <= canvas_height (Logo.rectangular results) /\
     (exists square,
        Logo.res_square results = Some square /\
        canvas_height square = canvas_width square /\
        40 <= canvas_width square) /\
     (exists ico,
        Logo.res_ico results = Some ico /\
        canvas_width ico == 64 /\ canvas_height ico == 64)) /\
  (forall result,
     Home.headshotResult s = Some result ->
     292 <= canvas_width result /\ 400 <= canvas_height result).

(** The part of the state the page shows, and the files it would
    process next. *)
Definition keeps (s : Home.State) : Prop :=
  match Home.logoFile s with Some file => soundUpload file | None => True end
  /\
  match Home.headshotFile s with Some file => soundUpload file | None => True
  end /\
  presentable s.

(** * Properties *)

(** ** Comparison and rounding *)

Lemma ltb_lt (a b : Q) : (a <? b) = true <-> a < b.
Proof. unfold JS.ltb, Qlt. apply Z.ltb_lt. Qed.

Lemma ltb_ge (a b : Q) : (a <? b) = false <-> b <= a.
Proof. unfold JS.ltb, Qle. apply Z.ltb_ge. Qed.

Lemma gtb_gt (a b : Q) : (a >? b) = true <-> b < a.
Proof. apply ltb_lt. Qed.

Lemma gtb_le (a b : Q) : (a >? b) = false <-> a <= b.
Proof. apply ltb_ge. Qed.

(** Split on the next comparison of the goal and turn it into an order
    fact. *)
Ltac js_cases :=
  match goal with
  | |- context [JS.gtb ?a ?b] =>
      let E := fresh "E" in
      destruct (JS.gtb a b) eqn:E;
      [apply gtb_gt in E | apply gtb_le in E]
  | |- context [JS.ltb ?a ?b] =>
      let E := fresh "E" in
      destruct (JS.ltb a b) eqn:E;
      [apply ltb_lt in E | apply ltb_ge in E]
  end.

Lemma ceil_ge (x : Q) : x <= JS.ceil x.
Proof. apply Qle_ceiling. Qed.

Lemma ceil_lt (x : Q) : JS.ceil x < x + 1.
Proof.
  unfold JS.ceil. pose proof (Qceiling_lt x) as H.
  unfold Z.sub in H. rewrite inject_Z_plus in H. simpl in H.
  change (inject_Z (-1)) with (-(1)) in H. lra.
Qed.

Lemma ceil_mono (x y : Q) : x <= y -> JS.ceil x <= JS.ceil y.
Proof.
  intros H. unfold JS.ceil. rewrite <- Zle_Qle.
  now apply Qceiling_resp_le.
Qed.

Lemma ceil_lub (x : Q) (n : Z) : x <= inject_Z n -> JS.ceil x <= inject_Z n.
Proof.
  intros H. unfold JS.ceil. rewrite <- Zle_Qle.
  rewrite <- (Qceiling_Z n). now apply Qceiling_resp_le.
Qed.

Lemma floor_nonneg (x : Q) : 0 <= x -> 0 <= JS.floor x.
Proof.
  intros H. unfold JS.floor. change 0 with (inject_Z 0).
  rewrite <- Zle_Qle. rewrite <- (Qfloor_Z 0). now apply Qfloor_resp_le.
Qed.

Lemma round_lub (x : Q) (n : Z) : inject_Z n <= x -> inject_Z n <= JS.round x.
Proof.
  intros H. unfold JS.round. rewrite <- Zle_Qle.
  rewrite <- (Qfloor_Z n). apply Qfloor_resp_le. lra.
Qed.

Lemma round_le (x : Q) (n : Z) : x <= inject_Z n -> JS.round x <= inject_Z n.
Proof.
  intros H. unfold JS.round. rewrite <- Zle_Qle.
  assert (L : (Qfloor (x + (1 # 2)) < n + 1)%Z).
  { rewrite Zlt_Qlt. eapply Qle_lt_trans; [apply Qfloor_le|].
    rewrite inject_Z_plus. change (inject_Z 1) with 1. lra. }
  lia.
Qed.

Lemma div_mul (x a : Q) : ~ a == 0 -> (x / a) * a == x.
Proof. intros H. field. exact H. Qed.

Lemma max_l (a b : Q) : a <= JS.max a b.
Proof. unfold JS.max. js_cases; lra. Qed.

Lemma max_r (a b : Q) : b <= JS.max a b.
Proof. unfold JS.max. js_cases; lra. Qed.

Lemma min_l (a b : Q) : JS.min a b <= a.
Proof. unfold JS.min. js_cases; lra. Qed.

Lemma min_r (a b : Q) : JS.min a b <= b.
Proof. unfold JS.min. js_cases; lra. Qed.

Lemma floor_half (x : Q) (n : Z) : x == inject_Z n -> Qfloor (x + (1 # 2)) = n.
Proof.
  intros H.
  assert (L : (n <= Qfloor (x + (1 # 2)))%Z).
  { rewrite <- (Qfloor_Z n). apply Qfloor_resp_le. lra. }
  assert (U : (Qfloor (x + (1 # 2)) < n + 1)%Z).
  { rewrite Zlt_Qlt. eapply Qle_lt_trans; [apply Qfloor_le|].
    rewrite inject_Z_plus. change (inject_Z 1) with 1. lra. }
  lia.
Qed.

Lemma round_int (x : Q) (n : Z) : x == inject_Z n -> JS.round x = inject_Z n.
Proof. intros H. unfold JS.round. now rewrite (floor_half x n H). Qed.

Lemma trunc_int (x : Q) (n : Z) : x == inject_Z n -> JS.trunc x = n.
Proof.
  intros H. unfold JS.trunc.
  destruct (x <? 0); rewrite H; [apply Qceiling_Z | apply Qfloor_Z].
Qed.

Lemma neqb_false (a b : Q) : a == b -> (a !== b) = false.
Proof.
  intros H. unfold JS.neqb. apply negb_false_iff. now apply Qeq_bool_iff.
Qed.

Lemma neqb_true (a b : Q) : ~ a == b -> (a !== b) = true.
Proof.
  intros H. unfold JS.neqb. apply negb_true_iff.
  destruct (Qeq_bool a b) eqn:E; [|reflexivity].
  apply Qeq_bool_iff in E. contradiction.
Qed.

(** ** The 5:2 snapping *)

(** The snapping block returns five and two times the number of
    five-pixel units that cover the width it is given; its two inner
    corrections never change that. *)
Lemma snapFiveTwo_units (baseWidth baseHeight : Q) :
  size_eq (Logo.snapFiveTwo (baseWidth, baseHeight))
          (inject_Z (5 * Qceiling (baseWidth / 5)),
           inject_Z (2 * Qceiling (baseWidth / 5))).
Proof.
  unfold Logo.snapFiveTwo.
  set (k := Qceiling (baseWidth / 5)).
  assert (Hw : JS.ceil (baseWidth / 5) * 5 == inject_Z (5 * k)).
  { unfold JS.ceil. fold k. rewrite inject_Z_mult. simpl. ring. }
  assert (Hh : JS.ceil (baseWidth / 5) * 5 * 2 / 5 == inject_Z (2 * k)).
  { unfold JS.ceil. fold k. rewrite inject_Z_mult. simpl. field. }
  assert (Hrem : JS.rem (JS.ceil (baseWidth / 5) * 5 * 2 / 5) 2 == 0).
  { unfold JS.rem. rewrite (trunc_int _ k).
    - rewrite Hh, inject_Z_mult. simpl. ring.
    - rewrite Hh, inject_Z_mult. simpl. field. }
  rewrite (neqb_false _ _ Hrem).
  rewrite (round_int _ _ Hw), (round_int _ _ Hh).
  destruct (Z.eq_dec k 0) as [K | K].
  - rewrite K. vm_compute. split; reflexivity.
  - rewrite neqb_false; [simpl; split; reflexivity|].
    rewrite !inject_Z_mult. simpl. field.
    intros C. apply K. change 0 with (inject_Z 0) in C.
    exact (proj1 (inject_Z_injective k 0) C).
Qed.

Arguments Logo.snapFiveTwo : simpl never.

(** ** The rectangular logo: containment and minimums *)

Section LogoGeometry.

Variables (origWidth origHeight : Z) (aspectRatio minWidth minHeight : Q).
Hypothesis Hheight : (0 < origHeight)%Z.
Hypothesis Hratio : 0 < aspectRatio.

Let around' := around origWidth origHeight aspectRatio 1.
Let meets' := meets minWidth minHeight.
Let tight' := tight aspectRatio.

Local Ltac open_all :=
  unfold around', meets', tight', around, meets, tight in *;
  simpl fst in *; simpl snd in *.

Lemma logo_origHeight_pos : 0 < inject_Z origHeight.
Proof. change 0 with (inject_Z 0). now rewrite <- Zlt_Qlt. Qed.

Lemma logo_ratio_cmp_gt :
  inject_Z origHeight * aspectRatio < inject_Z origWidth <->
  aspectRatio < inject_Z origWidth / inject_Z origHeight.
Proof.
  pose proof logo_origHeight_pos as P. split; intros H.
  - apply Qlt_shift_div_l; [exact P|]. lra.
  - apply (Qmult_lt_compat_r _ _ (inject_Z origHeight)) in H; [|exact P].
    rewrite div_mul in H; lra.
Qed.

Lemma ceil_div_mul (w : Q) : w <= JS.ceil (w / aspectRatio) * aspectRatio.
Proof.
  pose proof (ceil_ge (w / aspectRatio)) as C.
  apply (Qmult_le_compat_r _ _ aspectRatio) in C; [|lra].
  rewrite div_mul in C by lra. exact C.
Qed.

Lemma div_le_ceil (h w : Q) :
  h * aspectRatio <= w -> h <= JS.ceil (w / aspectRatio).
Proof.
  intros H. pose proof (ceil_ge (w / aspectRatio)) as C.
  assert (D : h <= w / aspectRatio).
  { apply Qle_shift_div_l; [exact Hratio|exact H]. }
  lra.
Qed.

Lemma logo_baseBox_around :
  around' (Logo.baseBox origWidth origHeight aspectRatio).
Proof.
  unfold Logo.baseBox.
  js_cases; open_all.
  - apply logo_ratio_cmp_gt in E.
    pose proof (ceil_div_mul (inject_Z origWidth)).
    pose proof (div_le_ceil (inject_Z origHeight) (inject_Z origWidth)). lra.
  - assert (E' : inject_Z origWidth <= inject_Z origHeight * aspectRatio).
    { destruct (Qlt_le_dec (inject_Z origHeight * aspectRatio)
                           (inject_Z origWidth)) as [L|L]; [|exact L].
      apply logo_ratio_cmp_gt in L. lra. }
    pose proof (ceil_ge (inject_Z origHeight * aspectRatio)). lra.
Qed.

Lemma tight_of_width (w : Q) : tight' (w, JS.ceil (w / aspectRatio)).
Proof.
  open_all. split; [|lra].
  pose proof (ceil_div_mul w).
  pose proof (ceil_ge (JS.ceil (w / aspectRatio) * aspectRatio)). lra.
Qed.

Lemma tight_of_height (h : Q) : tight' (JS.ceil (h * aspectRatio), h).
Proof.
  open_all. split; [lra|].
  apply div_le_ceil. apply ceil_ge.
Qed.

Lemma logo_baseBox_tight :
  tight' (Logo.baseBox origWidth origHeight aspectRatio).
Proof.
  unfold Logo.baseBox. js_cases; [apply tight_of_width | apply tight_of_height].
Qed.

(** The four ways through the minimum block. *)
Lemma logo_enforceMinimums_cases (size : Q * Q) :
  let size' := Logo.enforceMinimums aspectRatio minWidth minHeight size in
  (size' = size /\ meets' size) \/
  (fst size < minWidth /\
   size' = (minWidth, JS.ceil (minWidth / aspectRatio)) /\
   minHeight <= JS.ceil (minWidth / aspectRatio)) \/
  (fst size < minWidth /\ JS.ceil (minWidth / aspectRatio) < minHeight /\
   size' = (JS.ceil (minHeight * aspectRatio), minHeight)) \/
  (minWidth <= fst size /\ snd size < minHeight /\
   size' = (JS.ceil (minHeight * aspectRatio), minHeight)).
Proof.
  destruct size as [w h]. unfold Logo.enforceMinimums. open_all.
  destruct (w <? minWidth) eqn:E1.
  - apply ltb_lt in E1. simpl.
    destruct (JS.ceil (minWidth / aspectRatio) <? minHeight) eqn:E2.
    + apply ltb_lt in E2. right; right; left. auto.
    + apply ltb_ge in E2. right; left. auto.
  - apply ltb_ge in E1. simpl.
    destruct (h <? minHeight) eqn:E2.
    + apply ltb_lt in E2. right; right; right. auto.
    + apply ltb_ge in E2. left. auto.
Qed.

Lemma logo_enforceMinimums_tight (size : Q * Q) :
  tight' size ->
  tight' (Logo.enforceMinimums aspectRatio minWidth minHeight size).
Proof.
  intros T.
  destruct (logo_enforceMinimums_cases size)
    as [[-> _] | [(_ & -> & _) | [(_ & _ & ->) | (_ & _ & ->)]]];
    auto using tight_of_width, tight_of_height.
Qed.

Lemma logo_enforceMinimums_meets (size : Q * Q) :
  tight' size ->
  meets' (Logo.enforceMinimums aspectRatio minWidth minHeight size).
Proof.
  intros T.
  destruct (logo_enforceMinimums_cases size)
    as [[-> M] | [(L & -> & M) | [(L & L' & ->) | (L & L' & ->)]]];
    open_all.
  - exact M.
  - split; [lra|exact M].
  - split; [|lra].
    pose proof (ceil_div_mul minWidth).
    assert (D : JS.ceil (minWidth / aspectRatio) * aspectRatio
                <= minHeight * aspectRatio).
    { apply Qmult_le_compat_r; lra. }
    pose proof (ceil_ge (minHeight * aspectRatio)). lra.
  - split; [|lra].
    assert (D : snd size * aspectRatio <= minHeight * aspectRatio).
    { apply Qmult_le_compat_r; lra. }
    apply ceil_mono in D. lra.
Qed.

Lemma logo_enforceMinimums_around (size : Q * Q) :
  around' size ->
  around' (Logo.enforceMinimums aspectRatio minWidth minHeight size).
Proof.
  intros A.
  assert (W : forall w, fst size < w -> around' (w, JS.ceil (w / aspectRatio))).
  { intros w L. open_all.
    pose proof (ceil_div_mul w).
    pose proof (div_le_ceil (inject_Z origHeight) w). lra. }
  assert (H : forall s h, around' s -> snd s < h ->
                          around' (JS.ceil (h * aspectRatio), h)).
  { intros s h B L. open_all.
    pose proof (ceil_ge (h * aspectRatio)) as C.
    assert (D : snd s * aspectRatio <= h * aspectRatio).
    { apply Qmult_le_compat_r; lra. }
    assert (D' : inject_Z origHeight * aspectRatio <= snd s * aspectRatio).
    { apply Qmult_le_compat_r; lra. }
    lra. }
  destruct (logo_enforceMinimums_cases size)
    as [[-> M] | [(L & -> & M) | [(L & L' & ->) | (L & L' & ->)]]].
  - exact A.
  - apply W; exact L.
  - apply (H (minWidth, JS.ceil (minWidth / aspectRatio))); [apply W|]; auto.
  - apply (H size); auto.
Qed.

End LogoGeometry.

Lemma units_cover (w : Q) :
  w <= inject_Z (5 * Qceiling (w / 5)) /\
  w / (5 # 2) <= inject_Z (2 * Qceiling (w / 5)).
Proof.
  pose proof (Qle_ceiling (w / 5)) as C.
  assert (D : w / 5 * 5 == w) by (field).
  assert (D' : w / (5 # 2) == w / 5 * 2) by (field).
  rewrite !inject_Z_mult.
  change (inject_Z 5) with 5. change (inject_Z 2) with 2.
  split; lra.
Qed.

Lemma logo_fit_around (origWidth origHeight : Z)
      (aspectRatio minWidth minHeight : Q) :
  (0 < origHeight)%Z -> 0 < aspectRatio ->
  let size := Logo.fit origWidth origHeight aspectRatio minWidth minHeight in
  inject_Z origWidth <= fst size /\ inject_Z origHeight <= snd size.
Proof.
  intros Hh Ha. unfold Logo.fit.
  pose proof (logo_enforceMinimums_around origWidth origHeight aspectRatio
                minWidth minHeight Ha _
                (logo_baseBox_around origWidth origHeight aspectRatio Hh Ha)) as A.
  destruct (Logo.enforceMinimums _ _ _ _) as [w h].
  destruct A as (A1 & A2 & A3 & A4); simpl in A1, A2, A3, A4.
  destruct (aspectRatio === (5 # 2)) eqn:E; cbn [fst snd]; [|split; assumption].
  apply Qeq_bool_iff in E.
  destruct (snapFiveTwo_units w h) as [U1 U2]. cbn [fst snd] in U1, U2.
  rewrite U1, U2. destruct (units_cover w) as [C1 C2].
  rewrite E in A4.
  assert (D : w / (5 # 2) * (5 # 2) == w) by (field).
  split; lra.
Qed.

Lemma logo_fit_meets (origWidth origHeight : Z)
      (aspectRatio minWidth minHeight : Q) :
  (0 < origHeight)%Z -> 0 < aspectRatio ->
  meets minWidth minHeight
        (Logo.fit origWidth origHeight aspectRatio minWidth minHeight).
Proof.
  intros Hh Ha. unfold Logo.fit.
  pose proof (logo_baseBox_tight origWidth origHeight aspectRatio Ha) as T.
  pose proof (logo_enforceMinimums_meets aspectRatio minWidth minHeight
                Ha _ T) as M.
  pose proof (logo_enforceMinimums_tight aspectRatio minWidth minHeight
                Ha _ T) as T'.
  destruct (Logo.enforceMinimums _ _ _ _) as [w h].
  destruct M as [M1 M2]. destruct T' as [_ T2]. simpl in M1, M2, T2.
  destruct (aspectRatio === (5 # 2)) eqn:E; cbn [fst snd]; [|split; assumption].
  apply Qeq_bool_iff in E.
  destruct (snapFiveTwo_units w h) as [U1 U2]. cbn [fst snd] in U1, U2.
  unfold meets. rewrite U1, U2. destruct (units_cover w) as [C1 C2].
  split; [lra|].
  assert (L : JS.ceil (w / aspectRatio) <= inject_Z (2 * Qceiling (w / 5))).
  { apply ceil_lub. now rewrite E. }
  lra.
Qed.

(** With the 5:2 ratio the canvas of the rectangular logo has exactly
    that ratio. *)
Lemma logo_fit_exact (origWidth origHeight : Z)
      (aspectRatio minWidth minHeight : Q) :
  aspectRatio == 5 # 2 ->
  let size := Logo.fit origWidth origHeight aspectRatio minWidth minHeight in
  fst size * 2 == snd size * 5.
Proof.
  intros E. unfold Logo.fit.
  apply Qeq_bool_iff in E. unfold JS.eqb. rewrite E.
  destruct (Logo.enforceMinimums _ _ _ _) as [w h].
  destruct (snapFiveTwo_units w h) as [U1 U2].
  cbn [fst snd] in U1, U2. cbn [fst snd].
  rewrite U1, U2, !inject_Z_mult.
  change (inject_Z 5) with 5. change (inject_Z 2) with 2. ring.
Qed.

(** ** The earlier rectangular logo and the square logo *)

Lemma inject_Z_pos (n : Z) : (0 < n)%Z -> 0 < inject_Z n.
Proof. intros H. change 0 with (inject_Z 0). now rewrite <- Zlt_Qlt. Qed.



Lemma orb_ltb (a b c d : Q) :
  (a <? b) || (c <? d) = true <-> a < b \/ c < d.
Proof. rewrite orb_true_iff, !ltb_lt. reflexivity. Qed.

Lemma orb_ltb_false (a b c d : Q) :
  (a <? b) || (c <? d) = false <-> b <= a /\ d <= c.
Proof. rewrite orb_false_iff, !ltb_ge. reflexivity. Qed.

Section RoundedGeometry.

Variables (origWidth origHeight : Z) (aspectRatio : Q).
Hypothesis Hwidth : (0 < origWidth)%Z.
Hypothesis Hheight : (0 < origHeight)%Z.
Hypothesis Hratio : 0 < aspectRatio.

(** The first step of the earlier fit: an integer box around the
    source. *)
Lemma rounded_base :
  let origW := inject_Z origWidth in
  let origH := inject_Z origHeight in
  let base :=
    if origW / origH >? aspectRatio
    then (origW, JS.round (origW / aspectRatio))
    else (JS.round (origH * aspectRatio), origH) in
  exists w h : Z,
    base = (inject_Z w, inject_Z h) /\
    (origWidth <= w)%Z /\ (origHeight <= h)%Z.
Proof.
  intros origW origH base. subst base origW origH.
  pose proof (inject_Z_pos _ Hheight) as P.
  js_cases.
  - apply (logo_ratio_cmp_gt origWidth origHeight aspectRatio Hheight) in E.
    exists origWidth, (Qfloor (inject_Z origWidth / aspectRatio + (1 # 2))).
    split; [reflexivity|]. split; [lia|].
    rewrite Zle_Qle. apply round_lub.
    apply Qle_shift_div_l; lra.
  - exists (Qfloor (inject_Z origHeight * aspectRatio + (1 # 2))), origHeight.
    split; [reflexivity|]. split; [|lia].
    rewrite Zle_Qle. apply round_lub.
    destruct (Qlt_le_dec (inject_Z origHeight * aspectRatio)
                         (inject_Z origWidth)) as [L|L]; [|exact L].
    apply (logo_ratio_cmp_gt origWidth origHeight aspectRatio Hheight) in L.
    lra.
Qed.


(** Whole-pixel minimums are reached by the scale factor. *)
Lemma rounded_fit_meets (minWidth minHeight : Z) :
  meets (inject_Z minWidth) (inject_Z minHeight)
        (LogoRounded.fit origWidth origHeight aspectRatio
           (inject_Z minWidth) (inject_Z minHeight)).
Proof.
  unfold LogoRounded.fit, meets.
  destruct rounded_base as (w & h & -> & Lw & Lh).
  assert (Pw : 0 < inject_Z w) by (apply inject_Z_pos; lia).
  assert (Ph : 0 < inject_Z h) by (apply inject_Z_pos; lia).
  destruct ((inject_Z w <? inject_Z minWidth) ||
            (inject_Z h <? inject_Z minHeight)) eqn:B; cbn [fst snd].
  - set (sf := JS.max _ _).
    assert (S1 : inject_Z minWidth / inject_Z w <= sf) by apply max_l.
    assert (S2 : inject_Z minHeight / inject_Z h <= sf) by apply max_r.
    apply (Qmult_le_compat_r _ _ (inject_Z w)) in S1; [|lra].
    apply (Qmult_le_compat_r _ _ (inject_Z h)) in S2; [|lra].
    rewrite div_mul in S1, S2 by lra.
    split; apply round_lub; lra.
  - apply orb_ltb_false in B. exact B.
Qed.

End RoundedGeometry.

Lemma squareSize_bounds (origWidth origHeight : Z) (minSize : Q) :
  let s := Logo.squareSize origWidth origHeight minSize in
  inject_Z origWidth <= s /\ inject_Z origHeight <= s /\ minSize <= s.
Proof.
  unfold Logo.squareSize.
  pose proof (max_l (inject_Z origWidth) (inject_Z origHeight)).
  pose proof (max_r (inject_Z origWidth) (inject_Z origHeight)).
  js_cases; lra.
Qed.

(** ** The headshot: containment *)

Lemma cross_lt (a b c d : Q) :
  0 < b -> 0 < d -> (c / d < a / b <-> c * b < a * d).
Proof.
  intros Hb Hd.
  assert (E1 : c / d * d == c) by (apply div_mul; lra).
  assert (E2 : a / b * b == a) by (apply div_mul; lra).
  assert (P : 0 < d * b) by (apply Qmult_lt_0_compat; assumption).
  assert (F1 : c / d * (d * b) == c * b) by (rewrite <- E1 at 2; ring).
  assert (F2 : a / b * (d * b) == a * d) by (rewrite <- E2 at 2; ring).
  split; intros H.
  - apply (Qmult_lt_compat_r _ _ (d * b)) in H; [|exact P]. lra.
  - rewrite <- F1, <- F2 in H. now apply Qmult_lt_r in H.
Qed.

Section HeadshotGeometry.

Variables (origWidth origHeight : Z) (minWidth minHeight t0 t1 : Q).
Hypothesis Hwidth : (0 < origWidth)%Z.
Hypothesis Hheight : (0 < origHeight)%Z.
Hypothesis Ht0 : 0 < t0.
Hypothesis Ht1 : 0 < t1.

Lemma headshot_baseBox_around :
  around origWidth origHeight t0 t1
         (Headshot.baseBox origWidth origHeight (t0, t1)).
Proof.
  pose proof (inject_Z_pos _ Hheight) as P.
  unfold Headshot.baseBox, around. cbn [fst snd].
  pose proof (ceil_div_mul t0 Ht0 (inject_Z origWidth * t1)) as C0.
  pose proof (ceil_div_mul t1 Ht1 (inject_Z origHeight * t0)) as C1.
  js_cases; cbn [fst snd].
  - apply (cross_lt (inject_Z origWidth) (inject_Z origHeight) t0 t1 P Ht1)
      in E.
    repeat split; try nra.
  - assert (E' : inject_Z origWidth * t1 <= inject_Z origHeight * t0).
    { destruct (Qlt_le_dec (inject_Z origHeight * t0)
                           (inject_Z origWidth * t1)) as [L|L]; [|exact L].
      rewrite (Qmult_comm (inject_Z origHeight)) in L.
      apply (cross_lt (inject_Z origWidth) (inject_Z origHeight) t0 t1 P Ht1)
        in L.
      lra. }
    repeat split; try nra.
Qed.

Let r := t0 / t1.







End HeadshotGeometry.

(** ** Centred padding *)





(** ** The headshot of a 50 x 80 source *)

(** C9.  A 50 x 80 source with ratio 73:100 and minimums 292 x 400: the
    ratio-only box is 59 x 80 (width [ceil(80 * 73 / 100)]), and the
    minimum block sets the height to 400 and the width to 292, which is
    the size of the canvas. *)
Theorem headshot_50_80 (pixels : Z -> Z -> RGBA) :
  size_eq (Headshot.baseBox 50 80 (73, 100)) (59, 80) /\
  size_eq (Headshot.fit 50 80 292 400 (73, 100)) (292, 400) /\
  let c := Headshot.createHeadshot (mkImage 50 80 pixels) 292 400 (73, 100) in
  canvas_width c == 292 /\ canvas_height c == 400.
Proof.
  split; [|split].
  - vm_compute. split; reflexivity.
  - vm_compute. split; reflexivity.
  - unfold Headshot.createHeadshot. cbn [width height].
    destruct (Headshot.fit 50 80 292 400 (73, 100)) as [w h] eqn:F.
    cbn [Headshot.offsets canvas_width canvas_height].
    vm_compute in F. injection F as <- <-. split; reflexivity.
Qed.

(** ** The fields of the logo result *)

(** C10.  A [processLogo] call that resolves always carries the
    rectangular logo; its [ico] field is non-null only when both the
    [ico] and the [square] options are set, and with [square] unset the
    [square] and [ico] fields are both null whatever [ico] says.  This
    holds in each generation of the logo processor. *)
Theorem processLogo_fields
        (file : Upload) (options : Logo.Options) (options1 : LogoFirst.Options)
        (r : Logo.Result) :
  (Logo.processLogo file options = Resolved r ->
   (exists img, file = Loaded img /\
      Logo.rectangular r =
        Logo.createRectangularLogo img (Logo.aspectRatio options)
          (Logo.minWidth options) (Logo.minHeight options)
          (Logo.transparent options)) /\
   logoFields (Logo.square options) (Logo.ico options) r) /\
  (LogoRounded.processLogo file options = Resolved r ->
   (exists img, file = Loaded img /\
      Logo.rectangular r =
        LogoRounded.createRectangularLogo img (Logo.aspectRatio options)
          (Logo.minWidth options) (Logo.minHeight options)
          (Logo.transparent options)) /\
   logoFields (Logo.square options) (Logo.ico options) r) /\
  (LogoFirst.processLogo file options1 = Resolved r ->
   (exists img, file = Loaded img /\
      Logo.rectangular r =
        LogoFirst.createRectangularLogo img (LogoFirst.aspectRatio options1)
          (LogoFirst.minWidth options1) (LogoFirst.minHeight options1)) /\
   logoFields (LogoFirst.square options1) (LogoFirst.ico options1) r).
Proof.
  unfold logoFields.
  split; [|split]; (destruct file as [| |img]; cbn; intros H;
    [discriminate H | discriminate H |]); injection H as <-;
    (split; [exists img; split; reflexivity|]); cbn.
  - destruct (Logo.square options), (Logo.ico options); cbn;
      intuition congruence.
  - destruct (Logo.square options), (Logo.ico options); cbn;
      intuition congruence.
  - destruct (LogoFirst.square options1), (LogoFirst.ico options1); cbn;
      intuition congruence.
Qed.

Lemma processLogo_fields_witness :
  logoFields true true
    (Logo.mkResult
       (Logo.createRectangularLogo (flatImage 50 80) (5 # 2) 400 160 false)
       (Some (Logo.createSquareLogo (flatImage 50 80) 40 false))
       (Some (Logo.createIcoFromSquare (flatImage 50 80) false))).
Proof.
  apply (processLogo_fields (Loaded (flatImage 50 80)) Logo.defaults
           (LogoFirst.mkOptions (5 # 2) 400 160 true true)).
  reflexivity.
Defined.

(** ** The favicon *)

Lemma icoPlacement_fits (origWidth origHeight : Z) :
  (0 < origWidth)%Z -> (0 < origHeight)%Z ->
  let origW := inject_Z origWidth in
  let origH := inject_Z origHeight in
  let scale := JS.min (64 / origW) (64 / origH) in
  let scaledWidth := JS.round (origW * scale) in
  let scaledHeight := JS.round (origH * scale) in
  Logo.icoPlacement 64 origWidth origHeight =
    ((scaledWidth, scaledHeight),
     (JS.floor ((64 - scaledWidth) / 2), JS.floor ((64 - scaledHeight) / 2)))
  /\ scaledWidth <= 64 /\ scaledHeight <= 64
  /\ 0 <= JS.floor ((64 - scaledWidth) / 2)
  /\ 0 <= JS.floor ((64 - scaledHeight) / 2)
  /\ (scaledWidth == 64 \/ scaledHeight == 64).
Proof.
  intros Hw Hh origW origH scale scaledWidth scaledHeight.
  pose proof (inject_Z_pos _ Hw) as Pw. pose proof (inject_Z_pos _ Hh) as Ph.
  fold origW in Pw. fold origH in Ph.
  assert (Ew : origW * (64 / origW) == 64) by (field; lra).
  assert (Eh : origH * (64 / origH) == 64) by (field; lra).
  assert (Sw : origW * scale <= 64).
  { pose proof (min_l (64 / origW) (64 / origH)) as M. fold scale in M.
    apply (Qmult_le_compat_r _ _ origW) in M; lra. }
  assert (Sh : origH * scale <= 64).
  { pose proof (min_r (64 / origW) (64 / origH)) as M. fold scale in M.
    apply (Qmult_le_compat_r _ _ origH) in M; lra. }
  assert (Lw : scaledWidth <= 64) by (apply (round_le _ 64); exact Sw).
  assert (Lh : scaledHeight <= 64) by (apply (round_le _ 64); exact Sh).
  split; [reflexivity|]. split; [exact Lw|]. split; [exact Lh|].
  split; [apply floor_nonneg; apply Qle_shift_div_l; lra|].
  split; [apply floor_nonneg; apply Qle_shift_div_l; lra|].
  subst scaledWidth scaledHeight scale. unfold JS.min.
  destruct (64 / origH <? 64 / origW).
  - right. rewrite (round_int _ 64); [reflexivity|exact Eh].
  - left. rewrite (round_int _ 64); [reflexivity|exact Ew].
Qed.

Lemma round_near (x : Q) :
  ~ halfway x -> Qabs (JS.round x - x) < 1 # 2.
Proof.
  intros N. unfold JS.round.
  pose proof (Qfloor_le (x + (1 # 2))) as F1.
  pose proof (Qlt_floor (x + (1 # 2))) as F2.
  rewrite inject_Z_plus in F2. change (inject_Z 1) with 1 in F2.
  set (r := inject_Z (Qfloor (x + (1 # 2)))) in *.
  assert (T : ~ r == x + (1 # 2)).
  { intros E. apply N. exists (Qfloor (x + (1 # 2)) - 1)%Z.
    unfold Z.sub. rewrite inject_Z_plus, inject_Z_opp. fold r.
    change (inject_Z 1) with 1. lra. }
  assert (S : r < x + (1 # 2)).
  { destruct (Qlt_le_dec r (x + (1 # 2))) as [L|G]; [exact L|].
    exfalso. apply T. apply Qle_antisym; assumption. }
  apply Qabs_case; intros _; lra.
Qed.

(** A number that differs from its floor plus one half is not halfway. *)
Lemma not_halfway (x : Q) :
  Qeq_bool (inject_Z (Qfloor x) + (1 # 2)) x = false -> ~ halfway x.
Proof.
  intros B [m H].
  assert (E : Qfloor x = m).
  { pose proof (Qfloor_le x) as F1. pose proof (Qlt_floor x) as F2.
    rewrite inject_Z_plus in F2. change (inject_Z 1) with 1 in F2.
    assert (A : (m - 1 < Qfloor x)%Z).
    { rewrite Zlt_Qlt. unfold Z.sub. rewrite inject_Z_plus, inject_Z_opp.
      change (inject_Z 1) with 1. lra. }
    assert (C : (Qfloor x < m + 1)%Z).
    { rewrite Zlt_Qlt, inject_Z_plus. change (inject_Z 1) with 1. lra. }
    lia. }
  apply Qeq_bool_neq in B. apply B. rewrite E, H. reflexivity.
Qed.

(** C8, as the code has it.  The favicon is a fixed 64 x 64 canvas; the
    source is drawn resampled by the single factor
    [min(64 / width, 64 / height)], its scaled sizes rounded, and
    centred, provided neither exact scaled size is halfway between two
    whole numbers: each rounded size is then closer than one half to
    the exact one.  A 1000 x 10 source becomes 64 x 1, at offset 0
    across and 31 down. *)
Theorem favicon_scaled_to_fit
        (img : Image) (transparent : bool) (pixels : Z -> Z -> RGBA) :
  (0 < width img)%Z -> (0 < height img)%Z ->
  ~ faviconTie (width img) (height img) ->
  fitsFavicon img (Logo.createIcoFromSquare img transparent) /\
  fitsFavicon img (LogoRounded.createIcoFromSquare img transparent) /\
  fitsFavicon img (LogoFirst.createIcoFromSquare img) /\
  (let origW := inject_Z (width img) in
   let origH := inject_Z (height img) in
   let scale := JS.min (64 / origW) (64 / origH) in
   Qabs (JS.round (origW * scale) - origW * scale) < 1 # 2 /\
   Qabs (JS.round (origH * scale) - origH * scale) < 1 # 2) /\
  calls (Logo.createIcoFromSquare (mkImage 1000 10 pixels) transparent) =
    [paintBackground transparent 64 64;
     DrawImageScaled (mkImage 1000 10 pixels) 0 31 64 1].
Proof.
  intros Hw Hh Tie.
  destruct (icoPlacement_fits (width img) (height img) Hw Hh)
    as (P & B).
  cbv zeta in P, B.
  assert (F : forall background,
             fitsFavicon img
               (let '((scaledWidth, scaledHeight), (x, y)) :=
                  Logo.icoPlacement 64 (width img) (height img) in
                mkCanvas 64 64
                  [background;
                   DrawImageScaled img x y scaledWidth scaledHeight])).
  { intros background. rewrite P. unfold fitsFavicon.
    cbn [canvas_width canvas_height calls].
    split; [reflexivity|]. split; [reflexivity|].
    exists background. do 4 eexists. split; [reflexivity|].
    cbv zeta. repeat (split; [reflexivity|]). exact B. }
  split; [|split; [|split; [|split]]].
  - apply F.
  - apply F.
  - apply F.
  - unfold faviconTie in Tie. cbv zeta in *.
    split; apply round_near; intros H; apply Tie; [left|right]; exact H.
  - vm_compute. destruct transparent; reflexivity.
Qed.

Lemma favicon_scaled_to_fit_witness :
  fitsFavicon (flatImage 1000 10)
              (Logo.createIcoFromSquare (flatImage 1000 10) false).
Proof.
  apply (favicon_scaled_to_fit (flatImage 1000 10) false (fun _ _ => white));
    try reflexivity.
  intros [H|H]; revert H; apply not_halfway; reflexivity.
Defined.

(** Where the claim fails: a 6272 x 49 source.  Its exact scaled height
    64 * 49 / 6272 is one half, which the claim rounds to 1: content of
    64 x 1 at (0, 31).  In binary64 the quotient 64 / 6272 is rounded,
    the product 49 * (64 / 6272) is 0.49999999999999994, and the code
    draws the source 64 x 0 at (0, 32): nothing. *)
Lemma favicon_tie_rounds_down :
  faviconTie 6272 49 /\
  Logo.icoPlacement 64 6272 49 = ((64, 1), (0, 31)) /\
  match Binary64.toQ
          (Binary64.mul (Binary64.ofZ 49)
             (Binary64.div (Binary64.ofZ 64) (Binary64.ofZ 6272))) with
  | Some product => product < 1 # 2
  | None => False
  end /\
  match Binary64.icoPlacement 64 6272 49 with
  | ((Some scaledWidth, Some scaledHeight), (Some x, Some y)) =>
      scaledWidth == 64 /\ scaledHeight == 0 /\ x == 0 /\ y == 32
  | _ => False
  end.
Proof.
  split.
  { right. exists 0%Z. vm_compute. reflexivity. }
  vm_compute. repeat split; reflexivity.
Qed.

(** ** Colour keying *)

Import ImageManipulation.

Lemma keyOut_length (target : option Z * option Z * option Z) (tolerance : Q)
      (data : list Z) :
  List.length (keyOut target tolerance data) = List.length data.
Proof.
  assert (G : forall n data, (List.length data <= n)%nat ->
                List.length (keyOut target tolerance data) = List.length data).
  { induction n as [|n IH]; intros d L.
    - destruct d; [reflexivity|simpl in L; lia].
    - destruct d as [|r [|g [|b [|a rest]]]]; try reflexivity.
      cbn [keyOut List.length]. rewrite IH; [reflexivity|]. simpl in L. lia. }
  apply (G (List.length data)). lia.
Qed.

Lemma keyOut_pixelAt (target : option Z * option Z * option Z) (tolerance : Q)
      (k : nat) :
  forall (data : list Z) (p : RGBA),
    pixelAt data k = Some p ->
    pixelAt (keyOut target tolerance data) k = Some (keyed target tolerance p).
Proof.
  induction k as [|k IH]; intros data p H.
  - destruct data as [|r [|g [|b [|a rest]]]]; try discriminate H.
    cbn in H. injection H as <-. reflexivity.
  - destruct data as [|r [|g [|b [|a rest]]]]; try discriminate H.
    + unfold pixelAt in H. replace (4 * S k)%nat with (S (S (S (S (4 * k)))))
        in H by lia.
      cbn in H. destruct (4 * k)%nat; discriminate H.
    + unfold pixelAt in H. replace (4 * S k)%nat with (S (S (S (S (4 * k)))))
        in H by lia.
      cbn in H. destruct (4 * k)%nat; discriminate H.
    + unfold pixelAt in H. replace (4 * S k)%nat with (S (S (S (S (4 * k)))))
        in H by lia.
      cbn in H. destruct (4 * k)%nat; discriminate H.
    + cbn [keyOut]. unfold pixelAt in *.
      replace (4 * S k)%nat with (S (S (S (S (4 * k))))) in * by lia.
      cbn [nth_error Nat.add] in *. apply IH. exact H.
Qed.

Lemma sqrt_ltb_spec (n : Z) (t : Q) :
  JS.sqrt_ltb n t = true <-> (0 <= n)%Z /\ JS.sqrt n < t.
Proof.
  unfold JS.sqrt_ltb. now rewrite andb_true_iff, ltb_lt, Z.leb_le.
Qed.

(** The scaling exponent and the significand of [JS.sqrt n]: the
    multiple of [2^-k] nearest to the square root of [n]. *)
Lemma sqrt_significand (n : Z) :
  (0 < n)%Z ->
  exists k s : Z,
    (0 <= k)%Z /\ k = Z.max 0 (52 - Z.log2 n / 2) /\
    (0 <= s)%Z /\
    JS.sqrt n == inject_Z s / inject_Z (2 ^ k) /\
    ((2 * s - 1) ^ 2 < 4 * (n * 4 ^ k) < (2 * s + 1) ^ 2)%Z.
Proof.
  intros Hn. unfold JS.sqrt.
  destruct (n <=? 0)%Z eqn:E; [apply Z.leb_le in E; lia|]. clear E.
  set (k := Z.max 0 (52 - Z.log2 n / 2)).
  assert (Hk : (0 <= k)%Z) by (unfold k; lia).
  assert (P4 : (0 < 4 ^ k)%Z) by (apply Z.pow_pos_nonneg; lia).
  set (m := (n * 4 ^ k)%Z).
  assert (Hm : (0 < m)%Z) by (unfold m; nia).
  pose proof (Z.sqrt_spec m (Z.lt_le_incl _ _ Hm)) as S.
  pose proof (Z.sqrt_nonneg m) as S0.
  set (s := Z.sqrt m) in *. cbv zeta. unfold Z.succ in S.
  destruct (m <=? s * s + s)%Z eqn:C.
  - apply Z.leb_le in C. exists k, s. rewrite !Z.pow_2_r.
    assert (0 < s)%Z by nia.
    repeat split; try lia; try reflexivity; nia.
  - apply Z.leb_gt in C. exists k, (s + 1)%Z. rewrite !Z.pow_2_r.
    repeat split; try lia; try reflexivity; nia.
Qed.

(** The significand has the 53 bits of binary64. *)
Lemma sqrt_precision (n : Z) :
  (0 < n < 2 ^ 104)%Z ->
  exists k s : Z,
    (0 <= k)%Z /\ JS.sqrt n == inject_Z s / inject_Z (2 ^ k) /\
    (2 ^ 52 <= s <= 2 ^ 53)%Z /\
    ((2 * s - 1) ^ 2 < 4 * (n * 4 ^ k) < (2 * s + 1) ^ 2)%Z.
Proof.
  intros [Hn Un].
  destruct (sqrt_significand n Hn) as (k & s & Hk & Ek & Hs & E & Lo & Hi).
  exists k, s. split; [exact Hk|]. split; [exact E|].
  split; [|split; assumption].
  pose proof (Z.log2_spec n Hn) as [L1 L2].
  assert (L : (Z.log2 n < 104)%Z) by (apply Z.log2_lt_pow2; lia).
  pose proof (Z.log2_nonneg n) as L0.
  set (e := Z.log2 n) in *.
  pose proof (Z.div_mod e 2 ltac:(lia)) as D.
  pose proof (Z.mod_pos_bound e 2 ltac:(lia)) as M.
  set (j := (e / 2)%Z) in *. set (r := (e mod 2)%Z) in *.
  assert (Ek' : k = (52 - j)%Z) by lia.
  assert (H4 : (4 ^ k = 2 ^ (104 - 2 * j))%Z).
  { change 4%Z with (2 ^ 2)%Z. rewrite <- Z.pow_mul_r by lia.
    f_equal. lia. }
  rewrite H4 in Lo, Hi.
  assert (A1 : (2 ^ e * 2 ^ (104 - 2 * j) = 2 ^ 104 * 2 ^ r)%Z).
  { rewrite <- !Z.pow_add_r by lia. f_equal. lia. }
  assert (A2 : (2 ^ Z.succ e * 2 ^ (104 - 2 * j) = 2 ^ 105 * 2 ^ r)%Z).
  { rewrite <- !Z.pow_add_r by lia. f_equal. lia. }
  set (a := (2 ^ (104 - 2 * j))%Z) in *.
  assert (Pa : (0 < a)%Z) by (apply Z.pow_pos_nonneg; lia).
  assert (R : (1 <= 2 ^ r <= 2)%Z).
  { assert (r = 0 \/ r = 1)%Z as [->| ->] by lia; cbn; lia. }
  assert (B1 : (2 ^ 104 <= n * a)%Z) by nia.
  assert (B2 : (n * a < 2 ^ 106)%Z).
  { apply Z.lt_le_trans with (2 ^ Z.succ e * a)%Z; [nia|].
    rewrite A2. change (2 ^ 106)%Z with (2 ^ 105 * 2)%Z. nia. }
  rewrite !Z.pow_2_r in Lo, Hi.
  change (2 ^ 104)%Z with (2 ^ 52 * 2 ^ 52)%Z in B1.
  change (2 ^ 106)%Z with (2 ^ 53 * 2 ^ 53)%Z in B2.
  set (lo := (2 ^ 52)%Z) in *. set (hi := (2 ^ 53)%Z) in *.
  assert (0 < lo)%Z by (unfold lo; lia).
  assert (0 < hi)%Z by (unfold hi; lia).
  split; nia.
Qed.

Lemma sqrt_nonneg (n : Z) : 0 <= JS.sqrt n.
Proof.
  destruct (Z_lt_le_dec 0 n) as [Hn|Hn].
  - destruct (sqrt_significand n Hn) as (k & s & Hk & _ & Hs & E & _).
    rewrite E. apply Qle_shift_div_l.
    + change 0 with (inject_Z 0). rewrite <- Zlt_Qlt.
      apply Z.pow_pos_nonneg; lia.
    + rewrite Qmult_0_l. change 0 with (inject_Z 0). now rewrite <- Zle_Qle.
  - unfold JS.sqrt. apply Z.leb_le in Hn. rewrite Hn. apply Qle_refl.
Qed.

(** Against a whole number the rounded root decides as the exact one. *)
Lemma sqrt_whole (n T : Z) :
  (0 <= n < 2 ^ 52)%Z ->
  JS.sqrt n < inject_Z T <-> (0 < T /\ n < T * T)%Z.
Proof.
  intros [Hn Un].
  destruct (Z.eq_dec n 0) as [->|N0].
  { change (JS.sqrt 0) with 0. change 0 with (inject_Z 0).
    rewrite <- Zlt_Qlt. nia. }
  assert (Pn : (0 < n)%Z) by lia.
  destruct (sqrt_significand n Pn) as (k & s & Hk & Ek & Hs & E & Lo & Hi).
  rewrite E.
  assert (L : (Z.log2 n < 52)%Z) by (apply Z.log2_lt_pow2; lia).
  pose proof (Z.log2_nonneg n) as L0.
  assert (Ek' : k = (52 - Z.log2 n / 2)%Z).
  { rewrite Ek. apply Z.max_r.
    assert (Z.log2 n / 2 < 26)%Z by (apply Z.div_lt_upper_bound; lia). lia. }
  set (P := (2 ^ k)%Z) in *.
  assert (PP : (0 < P)%Z) by (apply Z.pow_pos_nonneg; lia).
  assert (P2 : (4 ^ k = P * P)%Z).
  { unfold P. change 4%Z with (2 * 2)%Z. now rewrite Z.pow_mul_l. }
  rewrite P2, !Z.pow_2_r in Lo, Hi.
  assert (Big : (n < P * P)%Z).
  { rewrite <- P2.
    assert (H4 : (4 ^ k = 2 ^ (2 * k))%Z)
      by (rewrite Z.pow_mul_r by lia; reflexivity).
    rewrite H4.
    apply Z.lt_le_trans with (2 ^ 52)%Z; [exact Un|].
    apply Z.pow_le_mono_r; [lia|].
    pose proof (Z.mul_div_le (Z.log2 n) 2). lia. }
  assert (Q1 : inject_Z s / inject_Z P < inject_Z T <-> (s < T * P)%Z).
  { assert (0 < inject_Z P)
      by (change 0 with (inject_Z 0); now rewrite <- Zlt_Qlt).
    rewrite Zlt_Qlt, inject_Z_mult. split; intros H1.
    - setoid_replace (inject_Z s) with (inject_Z s / inject_Z P * inject_Z P)
        by (field; lra).
      nra.
    - apply Qlt_shift_div_r; assumption. }
  rewrite Q1. split.
  - intros H. split; [nia|].
    destruct (Z_lt_le_dec n (T * T)) as [?|G]; [assumption|exfalso].
    assert (0 < T)%Z by nia.
    nia.
  - intros [HT H].
    destruct (Z_lt_le_dec s (T * P)) as [?|G]; [assumption|exfalso].
    assert (A : ((2 * (T * P) - 1) * (2 * (T * P) - 1)
                  < 4 * (n * (P * P)))%Z) by nia.
    assert (B : (n * (P * P) <= (T * T - 1) * (P * P))%Z) by nia.
    assert (C : (P < T)%Z) by nia.
    nia.
Qed.

(** Reading a buffer that was built chunk by chunk. *)
Lemma nth_error_chunks {A B : Type} (f : A -> list B) (c : nat) :
  (forall a, List.length (f a) = c) ->
  forall (l : list A) (i j : nat) (a : A),
    nth_error l i = Some a -> (j < c)%nat ->
    nth_error (flat_map f l) (c * i + j) = nth_error (f a) j.
Proof.
  intros Hc l. induction l as [|a0 l IH]; intros i j a Hi Hj.
  - destruct i; discriminate Hi.
  - cbn [flat_map]. destruct i as [|i].
    + cbn in Hi. injection Hi as ->.
      rewrite Nat.mul_0_r, Nat.add_0_l.
      apply nth_error_app1. rewrite Hc. exact Hj.
    + cbn in Hi. rewrite nth_error_app2 by (rewrite Hc; lia).
      rewrite Hc. replace (c * S i + j - c)%nat with (c * i + j)%nat by lia.
      apply IH; assumption.
Qed.

Lemma imageBytes_nth (img : Image) (x y j : nat) :
  (x < Z.to_nat (width img))%nat -> (y < Z.to_nat (height img))%nat ->
  (j < 4)%nat ->
  nth_error (imageBytes img) (4 * (y * Z.to_nat (width img) + x) + j) =
  nth_error (pixelBytes (pixel img (Z.of_nat x) (Z.of_nat y))) j.
Proof.
  intros Hx Hy Hj. unfold imageBytes.
  set (w := Z.to_nat (width img)) in *.
  set (row := fun y0 : nat =>
                flat_map
                  (fun x0 : nat =>
                     pixelBytes (pixel img (Z.of_nat x0) (Z.of_nat y0)))
                  (seq 0 w)).
  assert (Lrow : forall y0, List.length (row y0) = (4 * w)%nat).
  { intros y0. unfold row.
    rewrite flat_map_constant_length with (c := 4%nat) by (intros; reflexivity).
    rewrite length_seq. lia. }
  replace (4 * (y * w + x) + j)%nat with (4 * w * y + (4 * x + j))%nat by lia.
  rewrite (nth_error_chunks row (4 * w) Lrow _ y _ y).
  - unfold row.
    apply (nth_error_chunks
             (fun x0 : nat => pixelBytes (pixel img (Z.of_nat x0) (Z.of_nat y)))
             4).
    + reflexivity.
    + rewrite nth_error_seq. apply Nat.ltb_lt in Hx. now rewrite Hx.
    + exact Hj.
  - rewrite nth_error_seq. apply Nat.ltb_lt in Hy. now rewrite Hy.
  - lia.
Qed.

Lemma imageBytes_pixelAt (img : Image) (x y : nat) :
  (x < Z.to_nat (width img))%nat -> (y < Z.to_nat (height img))%nat ->
  pixelAt (imageBytes img) (y * Z.to_nat (width img) + x) =
  Some (pixel img (Z.of_nat x) (Z.of_nat y)).
Proof.
  intros Hx Hy. unfold pixelAt.
  rewrite <- (Nat.add_0_r (4 * (y * Z.to_nat (width img) + x))) at 1.
  rewrite !imageBytes_nth by (assumption || lia).
  cbn. destruct (pixel img (Z.of_nat x) (Z.of_nat y)). reflexivity.
Qed.

Lemma bytesPixel_pixelAt (w : Z) (data : list Z) (X Y : Z) (p : RGBA) :
  (0 <= w)%Z -> (0 <= X)%Z -> (0 <= Y)%Z ->
  pixelAt data (Z.to_nat Y * Z.to_nat w + Z.to_nat X) = Some p ->
  bytesPixel w data X Y = p.
Proof.
  intros Hw HX HY H. unfold bytesPixel, pixelAt in *.
  replace (Z.to_nat (4 * (Y * w + X)))
    with (4 * (Z.to_nat Y * Z.to_nat w + Z.to_nat X))%nat by nia.
  set (i := (4 * (Z.to_nat Y * Z.to_nat w + Z.to_nat X))%nat) in *.
  destruct (nth_error data i) as [r|] eqn:Er; [|discriminate H].
  destruct (nth_error data (i + 1)) as [g|] eqn:Eg; [|discriminate H].
  destruct (nth_error data (i + 2)) as [b|] eqn:Eb; [|discriminate H].
  destruct (nth_error data (i + 3)) as [a|] eqn:Ea; [|discriminate H].
  injection H as <-.
  now rewrite (nth_error_nth _ _ _ Er), (nth_error_nth _ _ _ Eg),
    (nth_error_nth _ _ _ Eb), (nth_error_nth _ _ _ Ea).
Qed.

(** Over the reals: the square root of a sum of squares [n] is below
    [t] exactly when [t] is positive and [n] is below its square. *)
Lemma sqrt_lt_real (n : Z) (t : Q) :
  (0 <= n)%Z ->
  0 < t /\ inject_Z n < t * t <->
  Rdefinitions.Rlt (R_sqrt.sqrt (Rdefinitions.IZR n)) (Rdefinitions.Q2R t).
Proof.
  intros Hn.
  assert (Pn : Rdefinitions.Rle (Rdefinitions.IZR 0) (Rdefinitions.IZR n))
    by (apply RIneq.IZR_le; exact Hn).
  assert (Qn : Rdefinitions.Q2R (inject_Z n) = Rdefinitions.IZR n).
  { unfold Rdefinitions.Q2R. cbn. rewrite RIneq.Rinv_1. apply RIneq.Rmult_1_r. }
  assert (Q0 : Rdefinitions.Q2R 0 = Rdefinitions.IZR 0).
  { unfold Rdefinitions.Q2R. cbn. apply RIneq.Rmult_0_l. }
  split.
  - intros [Ht Hlt].
    apply Qreals.Qlt_Rlt in Ht, Hlt.
    rewrite Qreals.Q2R_mult, Qn in Hlt. rewrite Q0 in Ht.
    rewrite <- (R_sqrt.sqrt_square (Rdefinitions.Q2R t))
      by (apply RIneq.Rlt_le; exact Ht).
    apply R_sqrt.sqrt_lt_1_alt. split; assumption.
  - intros H.
    pose proof (R_sqrt.sqrt_pos (Rdefinitions.IZR n)) as P.
    assert (Ht : Rdefinitions.Rlt (Rdefinitions.IZR 0) (Rdefinitions.Q2R t))
      by (eapply RIneq.Rle_lt_trans; eassumption).
    split.
    + apply Qreals.Rlt_Qlt. rewrite Q0. exact Ht.
    + apply Qreals.Rlt_Qlt. rewrite Qreals.Q2R_mult, Qn.
      rewrite <- (R_sqrt.sqrt_sqrt (Rdefinitions.IZR n)) by exact Pn.
      apply RIneq.Rmult_le_0_lt_compat; assumption.
Qed.

(** With a whole tolerance the test the loop makes is the Euclidean
    distance test. *)
Lemma sqrt_ltb_whole (n T : Z) (t : Q) :
  (0 <= n < 2 ^ 52)%Z -> t == inject_Z T ->
  (JS.sqrt n <? t) = true <->
  Rdefinitions.Rlt (R_sqrt.sqrt (Rdefinitions.IZR n)) (Rdefinitions.IZR T).
Proof.
  intros Hn Et. rewrite ltb_lt, Et, (sqrt_whole n T Hn).
  assert (QT : Rdefinitions.Q2R (inject_Z T) = Rdefinitions.IZR T).
  { unfold Rdefinitions.Q2R. cbn. rewrite RIneq.Rinv_1. apply RIneq.Rmult_1_r. }
  rewrite <- QT, <- (sqrt_lt_real n (inject_Z T)) by lia.
  rewrite <- inject_Z_mult. change 0 with (inject_Z 0).
  now rewrite <- !Zlt_Qlt.
Qed.

Lemma hexDigit_range (c : ascii) (d : Z) :
  hexDigit c = Some d -> (0 <= d <= 15)%Z.
Proof.
  unfold hexDigit. set (n := Z.of_nat (nat_of_ascii c)).
  destruct ((48 <=? n)%Z && (n <=? 57)%Z) eqn:A.
  { apply andb_true_iff in A as [A1 A2].
    apply Z.leb_le in A1, A2. intros [= <-]. lia. }
  destruct ((97 <=? n)%Z && (n <=? 102)%Z) eqn:B.
  { apply andb_true_iff in B as [B1 B2].
    apply Z.leb_le in B1, B2. intros [= <-]. lia. }
  destruct ((65 <=? n)%Z && (n <=? 70)%Z) eqn:C; [|discriminate].
  apply andb_true_iff in C as [C1 C2].
  apply Z.leb_le in C1, C2. intros [= <-]. lia.
Qed.

Lemma parseInt16_hex2 (c1 c2 : ascii) (d1 d2 : Z) :
  hexDigit c1 = Some d1 -> hexDigit c2 = Some d2 ->
  parseInt16 (String c1 (String c2 "")) = Some (16 * d1 + d2)%Z.
Proof.
  intros H1 H2.
  destruct c1 as [[] [] [] [] [] [] [] []]; vm_compute in H1;
    try discriminate H1; injection H1 as <-;
    destruct c2 as [[] [] [] [] [] [] [] []]; vm_compute in H2;
    try discriminate H2; injection H2 as <-; reflexivity.
Qed.

Lemma parseTarget_digits
      (c0 c1 c2 c3 c4 c5 c6 : ascii) (rest : string)
      (d1 d2 d3 d4 d5 d6 : Z) :
  hexDigit c1 = Some d1 -> hexDigit c2 = Some d2 ->
  hexDigit c3 = Some d3 -> hexDigit c4 = Some d4 ->
  hexDigit c5 = Some d5 -> hexDigit c6 = Some d6 ->
  parseTarget
    (String c0 (String c1 (String c2 (String c3 (String c4
       (String c5 (String c6 rest))))))) =
  (Some (16 * d1 + d2)%Z, Some (16 * d3 + d4)%Z, Some (16 * d5 + d6)%Z).
Proof.
  intros H1 H2 H3 H4 H5 H6. unfold parseTarget, slice.
  cbn [Nat.sub substring].
  assert (E : substring 0 0 rest = ""%string) by (destruct rest; reflexivity).
  rewrite E.
  now rewrite (parseInt16_hex2 _ _ _ _ H1 H2),
    (parseInt16_hex2 _ _ _ _ H3 H4), (parseInt16_hex2 _ _ _ _ H5 H6).
Qed.


Lemma sampleOver_clear (s b : RGBA) : alpha s = 0%Z -> sampleOver s b = b.
Proof. intros H. unfold sampleOver. now rewrite H. Qed.

(** What the returned canvas holds at a pixel of the image: the keyed
    pixel, as the canvas stores it. *)
Lemma removeBackground_pixel
      (over : RGBA -> RGBA -> RGBA)
      (resample :
         (Z -> Z -> RGBA) -> Q -> Q -> Q -> Q -> Q -> Q -> Z -> Z -> RGBA)
      (img : Image) (options : Options) (X Y : Z) :
  (0 <= X < width img)%Z -> (0 <= Y < height img)%Z ->
  pixelAt (keyOut (parseTarget (targetColor options)) (tolerance options)
             (imageBytes img))
          (Z.to_nat Y * Z.to_nat (width img) + Z.to_nat X) =
    Some (keyed (parseTarget (targetColor options)) (tolerance options)
            (pixel img X Y)) /\
  canvasPixel over resample (removeBackground img options) X Y =
    over (keyed (parseTarget (targetColor options)) (tolerance options)
            (pixel img X Y))
         transparentBlack.
Proof.
  intros HX HY.
  assert (K : pixelAt (keyOut (parseTarget (targetColor options))
                         (tolerance options) (imageBytes img))
                (Z.to_nat Y * Z.to_nat (width img) + Z.to_nat X) =
              Some (keyed (parseTarget (targetColor options))
                      (tolerance options) (pixel img X Y))).
  { apply keyOut_pixelAt. rewrite imageBytes_pixelAt by lia.
    now rewrite !Z2Nat.id by lia. }
  split; [exact K|].
  unfold canvasPixel, removeBackground, paint.
  cbn [calls fold_left paintOp].
  change (Qfloor 0) with 0%Z. rewrite !Z.sub_0_r.
  assert (B : ((0 <=? X)%Z && (X <? width img)%Z &&
               (0 <=? Y)%Z && (Y <? height img)%Z) = true).
  { rewrite !andb_true_iff. repeat split;
      (apply Z.leb_le || apply Z.ltb_lt); lia. }
  rewrite B. f_equal.
  apply bytesPixel_pixelAt; try lia. exact K.
Qed.

Lemma hexDigit_digits (c : ascii) (d : Z) :
  hexDigit c = Some d ->
  In c (list_ascii_of_string "0123456789abcdefABCDEF").
Proof.
  destruct c as [[] [] [] [] [] [] [] []]; vm_compute;
    intros H; try discriminate H; tauto.
Qed.

(** C4, as the code has it.  [removeBackground] returns a canvas of the
    size of the image.  The colour string is read as three two-digit
    hexadecimal numbers, digits [0-9], [a-f] and [A-F].  In the buffer
    that is written back every pixel keeps its red, green and blue, and
    its alpha is 0 when [Math.sqrt] of the squared distance, a binary64
    number, is below the tolerance, and is left as it was otherwise.
    On the returned canvas a pixel that was keyed is transparent black,
    its colour is lost, and a pixel that was not keyed is unchanged;
    this is said of a pixel that the canvas holds as the image has it,
    as it does every opaque pixel.  The root is the number with a
    53-bit significand nearest to the real square root; for bytes and a
    whole tolerance the test is the test of the Euclidean distance
    itself. *)
Theorem removeBackground_keys_by_rounded_distance
        (over : RGBA -> RGBA -> RGBA)
        (resample :
           (Z -> Z -> RGBA) -> Q -> Q -> Q -> Q -> Q -> Q -> Z -> Z -> RGBA)
        (img : Image) (options : Options) (X Y : Z)
        (c0 c1 c2 c3 c4 c5 c6 : ascii) (rest : string)
        (d1 d2 d3 d4 d5 d6 : Z) :
  (forall s b, alpha s = 0%Z -> over s b = b) ->
  (0 <= X < width img)%Z -> (0 <= Y < height img)%Z ->
  over (pixel img X Y) transparentBlack = pixel img X Y ->
  targetColor options =
    String c0 (String c1 (String c2 (String c3 (String c4
      (String c5 (String c6 rest)))))) ->
  hexDigit c1 = Some d1 -> hexDigit c2 = Some d2 ->
  hexDigit c3 = Some d3 -> hexDigit c4 = Some d4 ->
  hexDigit c5 = Some d5 -> hexDigit c6 = Some d6 ->
  let target := ((16 * d1 + d2)%Z, (16 * d3 + d4)%Z, (16 * d5 + d6)%Z) in
  let c := removeBackground img options in
  let p := pixel img X Y in
  let distance := JS.sqrt (distance2 target p) in
  let near := distance <? tolerance options in
  canvas_width c = inject_Z (width img) /\
  canvas_height c = inject_Z (height img) /\
  (map hexDigit (list_ascii_of_string "0123456789abcdefABCDEF") =
   map Some [0; 1; 2; 3; 4; 5; 6; 7; 8; 9; 10; 11; 12; 13; 14; 15;
             10; 11; 12; 13; 14; 15]%Z /\
   forall c d,
     hexDigit c = Some d ->
     In c (list_ascii_of_string "0123456789abcdefABCDEF")) /\
  (exists data,
     calls c = [DrawImage img 0 0;
                PutImageData (width img) (height img) data 0 0] /\
     pixelAt data (Z.to_nat Y * Z.to_nat (width img) + Z.to_nat X) =
       Some (mkRGBA (red p) (green p) (blue p)
               (if near then 0%Z else alpha p))) /\
  (near = true -> canvasPixel over resample c X Y = transparentBlack) /\
  (near = false -> canvasPixel over resample c X Y = p) /\
  (byte (red p) -> byte (green p) -> byte (blue p) ->
   ((0 < distance2 target p)%Z ->
    exists k s : Z,
      (0 <= k)%Z /\ distance == inject_Z s / inject_Z (2 ^ k) /\
      (2 ^ 52 <= s <= 2 ^ 53)%Z /\
      ((2 * s - 1) ^ 2 < 4 * (distance2 target p * 4 ^ k)
       < (2 * s + 1) ^ 2)%Z) /\
   forall T : Z,
     tolerance options == inject_Z T ->
     (near = true <->
      Rdefinitions.Rlt
        (R_sqrt.sqrt (Rdefinitions.IZR (distance2 target p)))
        (Rdefinitions.IZR T))).
Proof.
  intros Clear HX HY Held Color H1 H2 H3 H4 H5 H6 target c p distance near.
  pose proof (removeBackground_pixel over resample img options X Y HX HY)
    as [K E].
  rewrite Color in K, E.
  rewrite (parseTarget_digits c0 c1 c2 c3 c4 c5 c6 rest _ _ _ _ _ _
             H1 H2 H3 H4 H5 H6) in K, E.
  assert (D0 : (0 <= distance2 target p)%Z)
    by (unfold distance2, target; nia).
  assert (S : similar (Some (16 * d1 + d2)%Z, Some (16 * d3 + d4)%Z,
                       Some (16 * d5 + d6)%Z) (tolerance options)
                (red p) (green p) (blue p) = near).
  { cbn [similar]. unfold JS.sqrt_ltb.
    apply Z.leb_le in D0. unfold distance2, target in D0.
    rewrite D0. reflexivity. }
  unfold keyed in K, E. fold p in K, E. rewrite S in K, E.
  split; [reflexivity|]. split; [reflexivity|].
  split; [split; [reflexivity|exact hexDigit_digits]|].
  split.
  { eexists. split; [reflexivity|].
    fold p. rewrite Color.
    rewrite (parseTarget_digits c0 c1 c2 c3 c4 c5 c6 rest _ _ _ _ _ _
               H1 H2 H3 H4 H5 H6).
    exact K. }
  split.
  { intros N. subst c. rewrite E, N. now apply Clear. }
  split.
  { intros N. subst c. rewrite E, N. subst p. revert Held.
    destruct (pixel img X Y). cbn. auto. }
  intros Br Bg Bb.
  pose proof (hexDigit_range _ _ H1). pose proof (hexDigit_range _ _ H2).
  pose proof (hexDigit_range _ _ H3). pose proof (hexDigit_range _ _ H4).
  pose proof (hexDigit_range _ _ H5). pose proof (hexDigit_range _ _ H6).
  assert (D1 : (distance2 target p < 2 ^ 52)%Z).
  { unfold byte in Br, Bg, Bb. unfold distance2, target.
    assert (Sq : forall a : Z, (-255 <= a <= 255 -> a ^ 2 <= 65025)%Z)
      by (intros a Ha; rewrite Z.pow_2_r; nia).
    pose proof (Sq (red p - (16 * d1 + d2))%Z ltac:(lia)).
    pose proof (Sq (green p - (16 * d3 + d4))%Z ltac:(lia)).
    pose proof (Sq (blue p - (16 * d5 + d6))%Z ltac:(lia)).
    change (2 ^ 52)%Z with 4503599627370496%Z. lia. }
  split.
  - intros Pd. apply sqrt_precision.
    change (2 ^ 104)%Z with (2 ^ 52 * 2 ^ 52)%Z.
    change (2 ^ 52)%Z with 4503599627370496%Z in *. lia.
  - intros T ET. apply sqrt_ltb_whole; [lia|exact ET].
Qed.

Lemma removeBackground_keys_by_rounded_distance_witness :
  canvasPixel sampleOver sampleResample
    (removeBackground twoColumns defaults) 0 0 = transparentBlack /\
  canvasPixel sampleOver sampleResample
    (removeBackground twoColumns defaults) 1 0 = mkRGBA 10 20 30 255.
Proof.
  assert (In0 : (0 <= 0 < width twoColumns)%Z) by (cbn; lia).
  assert (In1 : (0 <= 1 < width twoColumns)%Z) by (cbn; lia).
  assert (InY : (0 <= 0 < height twoColumns)%Z) by (cbn; lia).
  split.
  - pose proof (removeBackground_keys_by_rounded_distance
                  sampleOver sampleResample twoColumns defaults 0 0
                  "#" "F" "F" "F" "F" "F" "F" "" 15 15 15 15 15 15
                  sampleOver_clear In0 InY eq_refl
                  eq_refl eq_refl eq_refl eq_refl eq_refl eq_refl eq_refl)
      as (_ & _ & _ & _ & A & _).
    exact (A eq_refl).
  - pose proof (removeBackground_keys_by_rounded_distance
                  sampleOver sampleResample twoColumns defaults 1 0
                  "#" "F" "F" "F" "F" "F" "F" "" 15 15 15 15 15 15
                  sampleOver_clear In1 InY eq_refl
                  eq_refl eq_refl eq_refl eq_refl eq_refl eq_refl eq_refl)
      as (_ & _ & _ & _ & _ & A & _).
    exact (A eq_refl).
Defined.

(** Where the claim fails.  The squared distance of (254, 254, 255)
    from white is 2, and [Math.sqrt(2)] is the binary64 number
    6369051672525773 / 2^52, which lies above the real square root of
    2.  With that number for tolerance the Euclidean distance is
    strictly below the tolerance, but the rounded distance is not: the
    pixel keeps its alpha.  And a pixel that is keyed does not keep its
    colour on the returned canvas: (250, 250, 250) keyed at the
    defaults reads back as transparent black. *)
Lemma removeBackground_compares_rounded_root :
  let t := 6369051672525773 # 4503599627370496 in
  let img := mkImage 1 1 (fun _ _ => mkRGBA 254 254 255 255) in
  let faint := mkImage 1 1 (fun _ _ => mkRGBA 250 250 250 255) in
  parseTarget "#FFFFFF" = (Some 255, Some 255, Some 255)%Z /\
  distance2 (255, 255, 255)%Z (pixel img 0 0) = 2%Z /\
  Binary64.toQ (SFsqrt Binary64.prec Binary64.emax (Binary64.ofZ 2)) = Some t /\
  JS.sqrt 2 == t /\
  Rdefinitions.Rlt (R_sqrt.sqrt (Rdefinitions.IZR 2)) (Rdefinitions.Q2R t) /\
  canvasPixel sampleOver sampleResample
    (removeBackground img (mkOptions "#FFFFFF" t)) 0 0 =
    mkRGBA 254 254 255 255 /\
  canvasPixel sampleOver sampleResample (removeBackground faint defaults) 0 0
    = transparentBlack.
Proof.
  intros t img faint.
  split; [reflexivity|]. split; [reflexivity|].
  split; [vm_compute; reflexivity|]. split; [vm_compute; reflexivity|].
  split.
  { apply sqrt_lt_real; [lia|]. split; vm_compute; reflexivity. }
  split.
  - destruct (removeBackground_pixel sampleOver sampleResample img
                (mkOptions "#FFFFFF" t) 0 0) as [_ E]; try (cbn; lia).
    rewrite E. vm_compute. reflexivity.
  - destruct (removeBackground_pixel sampleOver sampleResample faint
                defaults 0 0) as [_ E]; try (cbn; lia).
    rewrite E. vm_compute. reflexivity.
Qed.

(** ** The headshot is padded, never resampled *)


Section HeadshotPixels.

Variable over : RGBA -> RGBA -> RGBA.
Variable resample :
  (Z -> Z -> RGBA) -> Q -> Q -> Q -> Q -> Q -> Q -> Z -> Z -> RGBA.
(** An opaque pixel replaces what is under it. *)
Hypothesis over_opaque : forall s b, alpha s = 255%Z -> over s b = s.

Variables (img : Image) (w h : Q).
Hypothesis Hw : inject_Z (width img) <= w.
Hypothesis Hh : inject_Z (height img) <= h.

Let x := Qfloor ((w - inject_Z (width img)) / 2).
Let y := Qfloor ((h - inject_Z (height img)) / 2).
Let c := mkCanvas w h
           [FillRect "white" 0 0 w h;
            DrawImage img (inject_Z x) (inject_Z y)].




End HeadshotPixels.

(** With the 73:100 ratio and the 292 x 400 minimums the headshot canvas
    is never below the minimums. *)
Lemma headshot_default_meets (origWidth origHeight : Z) :
  meets 292 400 (Headshot.fit origWidth origHeight 292 400 (73, 100)).
Proof.
  unfold Headshot.fit, Headshot.enforceMinimums.
  destruct (Headshot.baseBox origWidth origHeight (73, 100)) as [w0 h0].
  destruct ((w0 <? 292) || (h0 <? 400)) eqn:B.
  - cbn [fst snd]. destruct (292 / w0 >? 400 / h0);
      vm_compute; split; discriminate.
  - apply orb_ltb_false in B. exact B.
Qed.






(** ** No validation of sizes or ratios *)

(** Where the claim fails.  A source of width zero is processed like any
    other: at the defaults the headshot processor resolves with a
    292 x 400 canvas and the logo processor with a 400 x 160 one and a
    40 x 40 square.  A target ratio of two negative numbers is not
    refused either: [-73, -100] gives the canvas of [73, 100]. *)
Lemma zero_width_source_is_processed :
  (exists c,
     Headshot.processHeadshot (Loaded (flatImage 0 10)) Headshot.defaults
       = Resolved c /\
     canvas_width c == 292 /\ canvas_height c == 400 /\
     calls c = [FillRect "white" 0 0 (canvas_width c) (canvas_height c);
                DrawImage (flatImage 0 10) 146 195]) /\
  (exists r square,
     Logo.processLogo (Loaded (flatImage 0 10))
       (Logo.mkOptions (5 # 2) 400 160 true false false) = Resolved r /\
     canvas_width (Logo.rectangular r) == 400 /\
     canvas_height (Logo.rectangular r) == 160 /\
     calls (Logo.rectangular r) =
       [FillRect "white" 0 0 (canvas_width (Logo.rectangular r))
          (canvas_height (Logo.rectangular r));
        DrawImage (flatImage 0 10) 200 75] /\
     Logo.res_square r = Some square /\
     canvas_width square == 40 /\ canvas_height square == 40 /\
     Logo.res_ico r = None) /\
  (exists c,
     Headshot.processHeadshot (Loaded (flatImage 50 80))
       (Headshot.mkOptions 292 400 (-73, -100)) = Resolved c /\
     canvas_width c == 292 /\ canvas_height c == 400 /\
     calls c = [FillRect "white" 0 0 (canvas_width c) (canvas_height c);
                DrawImage (flatImage 50 80) 121 160]).
Proof.
  split; [|split].
  - eexists. split; [reflexivity|]. vm_compute. repeat split; reflexivity.
  - eexists. eexists. split; [reflexivity|].
    vm_compute. repeat split; reflexivity.
  - eexists. split; [reflexivity|]. vm_compute. repeat split; reflexivity.
Qed.

Lemma headshot_no_minimum (origWidth origHeight : Z)
      (minWidth minHeight t0 t1 : Q) :
  (0 <= origWidth)%Z -> (0 < origHeight)%Z -> 0 < t0 -> 0 < t1 ->
  minWidth <= 0 -> minHeight <= 0 ->
  Headshot.fit origWidth origHeight minWidth minHeight (t0, t1) =
  Headshot.baseBox origWidth origHeight (t0, t1).
Proof.
  intros Hw Hh Ht0 Ht1 Mw Mh. unfold Headshot.fit.
  pose proof (headshot_baseBox_around origWidth origHeight t0 t1 Hh Ht0 Ht1)
    as (A1 & A2 & _).
  rewrite Zle_Qle in Hw. change (inject_Z 0) with 0 in Hw.
  pose proof (inject_Z_pos _ Hh).
  destruct (Headshot.baseBox _ _ _) as [w0 h0]. cbn [fst snd] in A1, A2.
  unfold Headshot.enforceMinimums.
  assert (B : (w0 <? minWidth) || (h0 <? minHeight) = false)
    by (apply orb_ltb_false; split; lra).
  now rewrite B.
Qed.

Lemma logo_no_minimum (origWidth origHeight : Z)
      (aspectRatio minWidth minHeight : Q) :
  (0 <= origWidth)%Z -> (0 < origHeight)%Z -> 0 < aspectRatio ->
  minWidth <= 0 -> minHeight <= 0 ->
  Logo.enforceMinimums aspectRatio minWidth minHeight
    (Logo.baseBox origWidth origHeight aspectRatio) =
  Logo.baseBox origWidth origHeight aspectRatio.
Proof.
  intros Hw Hh Ha Mw Mh.
  pose proof (logo_baseBox_around origWidth origHeight aspectRatio Hh Ha)
    as (A1 & A2 & _).
  rewrite Zle_Qle in Hw. change (inject_Z 0) with 0 in Hw.
  pose proof (inject_Z_pos _ Hh).
  destruct (Logo.baseBox _ _ _) as [w0 h0]. cbn [fst snd] in A1, A2.
  unfold Logo.enforceMinimums.
  assert (B : (w0 <? minWidth) || (h0 <? minHeight) = false)
    by (apply orb_ltb_false; split; lra).
  now rewrite B.
Qed.

(** C6, as the code has it.  Neither processor validates the size of
    the source or the ratio.  For a decoded image of positive height,
    its width zero included, and options that are numbers, the headshot
    processor at its defaults resolves with a canvas of at least
    292 x 400, and the logo processor, for any positive ratio and any
    whole-number minimums, resolves with a rectangular canvas that
    meets its minimums (the favicon, which divides by the width, is
    left out at width zero).  The rejections the processors raise
    themselves are the reader's and the decoder's.  Minimums that are
    zero or negative impose nothing: the canvas is the box computed
    from the ratio alone, for the logo after the 5:2 snapping where it
    applies. *)
Theorem no_dimension_validation
        (img : Image) (options : Headshot.Options)
        (logoRatio : Q) (logoMinWidth logoMinHeight : Z)
        (square ico logoTransparent : bool)
        (aspectRatio minWidth minHeight t0 t1 : Q) (transparent : bool) :
  (0 <= width img)%Z -> (0 < height img)%Z ->
  0 < logoRatio -> (0 < width img)%Z \/ ico = false ->
  0 < aspectRatio -> 0 < t0 -> 0 < t1 ->
  minWidth <= 0 -> minHeight <= 0 ->
  let logoOptions :=
    Logo.mkOptions logoRatio (inject_Z logoMinWidth) (inject_Z logoMinHeight)
      square ico logoTransparent in
  (exists c,
     Headshot.processHeadshot (Loaded img) Headshot.defaults = Resolved c /\
     c = Headshot.createHeadshot img 292 400 (73, 100) /\
     292 <= canvas_width c /\ 400 <= canvas_height c) /\
  (exists r,
     Logo.processLogo (Loaded img) logoOptions = Resolved r /\
     Logo.rectangular r =
       Logo.createRectangularLogo img logoRatio (inject_Z logoMinWidth)
         (inject_Z logoMinHeight) logoTransparent /\
     inject_Z logoMinWidth <= canvas_width (Logo.rectangular r) /\
     inject_Z logoMinHeight <= canvas_height (Logo.rectangular r)) /\
  Headshot.processHeadshot Unreadable options =
    Rejected "Failed to read file" /\
  Headshot.processHeadshot Undecodable options =
    Rejected "Failed to load image" /\
  Logo.processLogo Unreadable logoOptions = Rejected "Failed to read file" /\
  Logo.processLogo Undecodable logoOptions =
    Rejected "Failed to load image" /\
  (let c := Headshot.createHeadshot img minWidth minHeight (t0, t1) in
   (canvas_width c, canvas_height c) =
   Headshot.baseBox (width img) (height img) (t0, t1)) /\
  (let c :=
     Logo.createRectangularLogo img aspectRatio minWidth minHeight
       transparent in
   (canvas_width c, canvas_height c) =
   if aspectRatio === (5 # 2)
   then Logo.snapFiveTwo (Logo.baseBox (width img) (height img) aspectRatio)
   else Logo.baseBox (width img) (height img) aspectRatio).
Proof.
  intros Hw Hh Hl _ Ha Ht0 Ht1 Mw Mh logoOptions.
  split.
  { eexists. split; [reflexivity|]. split; [reflexivity|].
    pose proof (headshot_default_meets (width img) (height img)) as [M1 M2].
    unfold Headshot.createHeadshot.
    destruct (Headshot.fit _ _ _ _ _) as [w h]. exact (conj M1 M2). }
  split.
  { eexists. split; [reflexivity|]. cbn [Logo.rectangular].
    split; [reflexivity|].
    pose proof (logo_fit_meets (width img) (height img) logoRatio
                  (inject_Z logoMinWidth) (inject_Z logoMinHeight) Hh Hl)
      as [M1 M2].
    unfold logoOptions.
    cbn [Logo.aspectRatio Logo.minWidth Logo.minHeight Logo.transparent].
    unfold Logo.createRectangularLogo.
    destruct (Logo.fit _ _ _ _ _) as [w h]. exact (conj M1 M2). }
  do 4 (split; [reflexivity|]).
  split.
  - cbv zeta. unfold Headshot.createHeadshot.
    rewrite (headshot_no_minimum _ _ _ _ _ _ Hw Hh Ht0 Ht1 Mw Mh).
    now destruct (Headshot.baseBox _ _ _) as [w h].
  - cbv zeta. unfold Logo.createRectangularLogo, Logo.fit.
    rewrite (logo_no_minimum _ _ _ _ _ Hw Hh Ha Mw Mh).
    now destruct (if aspectRatio === (5 # 2) then _ else _) as [w h].
Qed.

Lemma no_dimension_validation_witness :
  (exists c,
     Headshot.processHeadshot (Loaded (flatImage 0 10)) Headshot.defaults
       = Resolved c /\
     c = Headshot.createHeadshot (flatImage 0 10) 292 400 (73, 100) /\
     292 <= canvas_width c /\ 400 <= canvas_height c) /\
  (let c := Headshot.createHeadshot (flatImage 0 10) 0 (-5) (73, 100) in
   (canvas_width c, canvas_height c) =
   Headshot.baseBox 0 10 (73, 100)).
Proof.
  pose proof (no_dimension_validation (flatImage 0 10) Headshot.defaults
                (5 # 2) 400 160 true false false (5 # 2) 0 (-5) 73 100 false)
    as (A & _ & _ & _ & _ & _ & B & _);
    try reflexivity; try discriminate; try (right; reflexivity).
  exact (conj A B).
Defined.

(** ** Where the headshot fit departs from its documentation *)

(** C1 at a 300 x 501 source with the default options: the canvas is
    366 x 501, and 366 * 100 is not 501 * 73. *)
Theorem headshot_ratio_not_exact (pixels : Z -> Z -> RGBA) :
  size_eq (Headshot.fit 300 501 292 400 (73, 100)) (366, 501) /\
  let c := Headshot.createHeadshot (mkImage 300 501 pixels) 292 400 (73, 100) in
  ~ canvas_width c * 100 == canvas_height c * 73.
Proof.
  split; [vm_compute; split; reflexivity|].
  unfold Headshot.createHeadshot. cbn [width height].
  destruct (Headshot.fit 300 501 292 400 (73, 100)) as [w h] eqn:F.
  cbn [Headshot.offsets canvas_width canvas_height].
  vm_compute in F. injection F as <- <-. discriminate.
Qed.

(** C2 at minimums the final ratio adjustment undoes: the height was
    raised to the minimum and is then recomputed from the width. *)
Theorem headshot_minimum_undone :
  size_eq (Headshot.fit 10 1 300 415 (73, 100)) (300, 411) /\
  ~ meets 300 415 (Headshot.fit 10 1 300 415 (73, 100)) /\
  size_eq (Headshot.fit 1 1 100 150 (73, 100)) (100, 137) /\
  ~ meets 100 150 (Headshot.fit 1 1 100 150 (73, 100)).
Proof.
  split; [vm_compute; split; reflexivity|].
  split; [vm_compute; intros [_ H]; apply H; reflexivity|].
  split; [vm_compute; split; reflexivity|].
  vm_compute; intros [_ H]; apply H; reflexivity.
Qed.

(** C7 at a 300 x 100 source with the default options: the canvas is
    300 x 411, and fitting a 300 x 411 source gives 301 x 411. *)
Theorem headshot_refit_changes :
  size_eq (Headshot.fit 300 100 292 400 (73, 100)) (300, 411) /\
  pixelSize (Headshot.fit 300 100 292 400 (73, 100)) = (300, 411)%Z /\
  size_eq (Headshot.fit 300 411 292 400 (73, 100)) (301, 411) /\
  ~ size_eq (Headshot.fit 300 411 292 400 (73, 100))
            (Headshot.fit 300 100 292 400 (73, 100)).
Proof.
  split; [vm_compute; split; reflexivity|].
  split; [vm_compute; reflexivity|].
  split; [vm_compute; split; reflexivity|].
  vm_compute. intros [H _]. discriminate H.
Qed.

(** ** Fitting the rectangular logo twice *)

Lemma ceil_int (x : Q) (n : Z) : x == inject_Z n -> JS.ceil x = inject_Z n.
Proof. intros H. unfold JS.ceil. now rewrite H, Qceiling_Z. Qed.

Lemma logo_refit (k : Z) (minWidth minHeight : Q) :
  (0 < k)%Z ->
  minWidth <= inject_Z (5 * k) -> minHeight <= inject_Z (2 * k) ->
  size_eq (Logo.fit (5 * k) (2 * k) (5 # 2) minWidth minHeight)
          (inject_Z (5 * k), inject_Z (2 * k)).
Proof.
  intros Hk Mw Mh.
  pose proof (inject_Z_pos _ Hk) as Pk.
  assert (E5 : inject_Z (5 * k) == 5 * inject_Z k)
    by (rewrite inject_Z_mult; reflexivity).
  assert (E2 : inject_Z (2 * k) == 2 * inject_Z k)
    by (rewrite inject_Z_mult; reflexivity).
  assert (B : Logo.baseBox (5 * k) (2 * k) (5 # 2)
              = (inject_Z (5 * k), inject_Z (2 * k))).
  { unfold Logo.baseBox. js_cases.
    - exfalso.
      assert (R : inject_Z (5 * k) / inject_Z (2 * k) == 5 # 2).
      { rewrite E5, E2. field. lra. }
      lra.
    - f_equal. apply ceil_int. rewrite E5, E2. ring. }
  assert (M : Logo.enforceMinimums (5 # 2) minWidth minHeight
                (inject_Z (5 * k), inject_Z (2 * k))
              = (inject_Z (5 * k), inject_Z (2 * k))).
  { unfold Logo.enforceMinimums.
    assert (C : (inject_Z (5 * k) <? minWidth) ||
                (inject_Z (2 * k) <? minHeight) = false)
      by (apply orb_ltb_false; split; assumption).
    now rewrite C. }
  unfold Logo.fit. rewrite B, M.
  change ((5 # 2) === (5 # 2)) with true. cbv iota.
  destruct (snapFiveTwo_units (inject_Z (5 * k)) (inject_Z (2 * k)))
    as [U1 U2].
  cbn [fst snd] in U1, U2.
  assert (K : Qceiling (inject_Z (5 * k) / 5) = k).
  { transitivity (Qceiling (inject_Z k)); [|apply Qceiling_Z].
    apply Qceiling_comp. rewrite E5. field. }
  rewrite K in U1, U2. split; assumption.
Qed.

(** With the 5:2 ratio, fitting the canvas of the rectangular logo
    again, with the same minimums, returns that canvas. *)
Lemma logo_fit_idempotent (origWidth origHeight : Z)
      (minWidth minHeight : Q) :
  (0 < origWidth)%Z -> (0 < origHeight)%Z ->
  let size := Logo.fit origWidth origHeight (5 # 2) minWidth minHeight in
  size_eq (Logo.fit (fst (pixelSize size)) (snd (pixelSize size)) (5 # 2)
             minWidth minHeight)
          size.
Proof.
  intros Hw Hh size.
  assert (Ha : 0 < 5 # 2) by reflexivity.
  pose proof (logo_fit_around origWidth origHeight (5 # 2) minWidth minHeight
                Hh Ha) as [A1 _].
  pose proof (logo_fit_meets origWidth origHeight (5 # 2) minWidth minHeight
                Hh Ha) as [M1 M2].
  cbv zeta in A1. fold size in A1, M1, M2.
  assert (U : exists k, fst size == inject_Z (5 * k) /\
                        snd size == inject_Z (2 * k)).
  { subst size. unfold Logo.fit.
    change ((5 # 2) === (5 # 2)) with true. cbv iota.
    destruct (Logo.enforceMinimums _ _ _ _) as [w h].
    exists (Qceiling (w / 5)). apply snapFiveTwo_units. }
  destruct U as (k & U1 & U2).
  pose proof (inject_Z_pos _ Hw) as Pw.
  assert (Hk : (0 < k)%Z).
  { assert (L : inject_Z 0 < inject_Z (5 * k))
      by (change (inject_Z 0) with 0; lra).
    rewrite <- Zlt_Qlt in L. lia. }
  assert (F1 : Qfloor (fst size) = (5 * k)%Z) by (rewrite U1; apply Qfloor_Z).
  assert (F2 : Qfloor (snd size) = (2 * k)%Z) by (rewrite U2; apply Qfloor_Z).
  unfold pixelSize. cbn [fst snd]. rewrite F1, F2.
  rewrite U1 in M1. rewrite U2 in M2.
  destruct (logo_refit k minWidth minHeight Hk M1 M2) as [R1 R2].
  cbn [fst snd] in R1, R2.
  split; [rewrite R1 | rewrite R2]; symmetry; assumption.
Qed.

(** ** The width loop of the earlier headshot processor *)

Lemma growWidth_enough (step origW : Q) :
  0 < step ->
  forall (fuel : nat) (start : Q),
    origW - start <= inject_Z (Z.of_nat fuel) * step ->
    exists result,
      HeadshotScaled.growWidth fuel step origW start = Some result.
Proof.
  intros Hs. induction fuel as [|fuel IH]; intros start H.
  - cbn [HeadshotScaled.growWidth].
    change (inject_Z (Z.of_nat 0)) with 0 in H.
    destruct (start <? origW) eqn:E.
    + apply ltb_lt in E. lra.
    + eexists; reflexivity.
  - cbn [HeadshotScaled.growWidth]. destruct (start <? origW) eqn:E.
    + apply IH. rewrite Nat2Z.inj_succ in H. unfold Z.succ in H.
      rewrite inject_Z_plus in H. change (inject_Z 1) with 1 in H. lra.
    + eexists; reflexivity.
Qed.

Lemma growWidth_reaches (step origW : Q) :
  forall (fuel : nat) (start result : Q),
    HeadshotScaled.growWidth fuel step origW start = Some result ->
    origW <= result.
Proof.
  induction fuel as [|fuel IH]; intros start result G; cbn in G.
  - destruct (start <? origW) eqn:E; [discriminate G|].
    apply ltb_ge in E. injection G as <-. exact E.
  - destruct (start <? origW) eqn:E.
    + now apply IH in G.
    + apply ltb_ge in E. injection G as <-. exact E.
Qed.

(** With a positive step the loop ends: some amount of fuel gives a
    width, and that width is at least the source's. *)
Lemma growWidth_terminates (step origW start : Q) :
  0 < step ->
  exists fuel result,
    HeadshotScaled.growWidth fuel step origW start = Some result /\
    origW <= result.
Proof.
  intros Hs.
  set (n := Z.to_nat (Qceiling ((origW - start) / step))).
  assert (H : origW - start <= inject_Z (Z.of_nat n) * step).
  { destruct (Qlt_le_dec (origW - start) 0) as [L|L].
    - assert (0 <= inject_Z (Z.of_nat n)).
      { change 0 with (inject_Z 0). rewrite <- Zle_Qle. lia. }
      nra.
    - assert (P : 0 <= (origW - start) / step)
        by (apply Qle_shift_div_l; lra).
      assert (Z0 : (0 <= Qceiling ((origW - start) / step))%Z).
      { rewrite <- (Qceiling_Z 0). now apply Qceiling_resp_le. }
      subst n. rewrite Z2Nat.id by exact Z0.
      exact (ceil_div_mul step Hs (origW - start)). }
  destruct (growWidth_enough step origW Hs n start H) as [result G].
  exists n, result. split; [exact G|].
  exact (growWidth_reaches step origW n start result G).
Qed.

(** A step that is not positive never lets a narrower start reach the
    source: the loop runs out of any fuel. *)
Lemma growWidth_diverges (step origW : Q) :
  step <= 0 ->
  forall (fuel : nat) (start : Q),
    start < origW ->
    HeadshotScaled.growWidth fuel step origW start = None.
Proof.
  intros Hs. induction fuel as [|fuel IH]; intros start L; cbn.
  - apply ltb_lt in L. now rewrite L.
  - pose proof L as L'. apply ltb_lt in L'. rewrite L'. apply IH. lra.
Qed.

(** The runs used in the statements come out the same in binary64. *)
Lemma binary64_headshot_runs :
  same_size (Binary64.fit 50 80 292 400 73 100)
            (Headshot.fit 50 80 292 400 (73, 100)) /\
  same_size (Binary64.fit 300 501 292 400 73 100)
            (Headshot.fit 300 501 292 400 (73, 100)) /\
  same_size (Binary64.fit 10 1 300 415 73 100)
            (Headshot.fit 10 1 300 415 (73, 100)) /\
  same_size (Binary64.fit 1 1 100 150 73 100)
            (Headshot.fit 1 1 100 150 (73, 100)) /\
  same_size (Binary64.fit 300 100 292 400 73 100)
            (Headshot.fit 300 100 292 400 (73, 100)) /\
  same_size (Binary64.fit 300 411 292 400 73 100)
            (Headshot.fit 300 411 292 400 (73, 100)) /\
  same_size (Binary64.fit 0 10 292 400 73 100)
            (Headshot.fit 0 10 292 400 (73, 100)).
Proof. vm_compute. repeat split; reflexivity. Qed.

Lemma binary64_favicon_run :
  match Binary64.icoPlacement 64 1000 10 with
  | ((Some scaledWidth, Some scaledHeight), (Some x, Some y)) =>
      scaledWidth == 64 /\ scaledHeight == 1 /\ x == 0 /\ y == 31
  | _ => False
  end.
Proof. vm_compute. repeat split; reflexivity. Qed.

(** * Further properties of the code *)

(** ** The rectangular logo at 5:2 *)

Lemma logo_fit_units (origWidth origHeight : Z) (minWidth minHeight : Q) :
  (0 < origWidth)%Z -> (0 < origHeight)%Z ->
  let size := Logo.fit origWidth origHeight (5 # 2) minWidth minHeight in
  exists k : Z,
    (0 < k)%Z /\ fst size == inject_Z (5 * k) /\ snd size == inject_Z (2 * k).
Proof.
  intros Hw Hh size.
  assert (Ha : 0 < 5 # 2) by reflexivity.
  pose proof (logo_fit_around origWidth origHeight (5 # 2) minWidth minHeight
                Hh Ha) as [A1 _].
  cbv zeta in A1. fold size in A1.
  assert (U : exists k, fst size == inject_Z (5 * k) /\
                        snd size == inject_Z (2 * k)).
  { subst size. unfold Logo.fit.
    change ((5 # 2) === (5 # 2)) with true. cbv iota.
    destruct (Logo.enforceMinimums _ _ _ _) as [w h].
    exists (Qceiling (w / 5)). apply snapFiveTwo_units. }
  destruct U as (k & U1 & U2). exists k.
  split; [|split; assumption].
  pose proof (inject_Z_pos _ Hw) as Pw.
  assert (L : inject_Z 0 < inject_Z (5 * k))
    by (change (inject_Z 0) with 0; lra).
  rewrite <- Zlt_Qlt in L. lia.
Qed.

(** X1.  With the 5:2 ratio the canvas of the rectangular logo is a
    whole number of 5 x 2 pixel units: its width is [5 * k] and its
    height [2 * k] for one positive integer [k], so the ratio is exact. *)
Theorem logo_canvas_whole_units
        (img : Image) (minWidth minHeight : Q) (transparent : bool) :
  (0 < width img)%Z -> (0 < height img)%Z ->
  let c := Logo.createRectangularLogo img (5 # 2) minWidth minHeight
             transparent in
  exists k : Z,
    (0 < k)%Z /\
    canvas_width c == inject_Z (5 * k) /\
    canvas_height c == inject_Z (2 * k).
Proof.
  intros Hw Hh.
  destruct (logo_fit_units (width img) (height img) minWidth minHeight Hw Hh)
    as (k & Hk & U1 & U2).
  unfold Logo.createRectangularLogo, Logo.offsets.
  destruct (Logo.fit _ _ _ _ _) as [w h]. cbn [fst snd] in U1, U2.
  cbn [canvas_width canvas_height]. exists k. auto.
Qed.

Lemma logo_canvas_whole_units_witness :
  exists k : Z,
    (0 < k)%Z /\
    canvas_width (Logo.createRectangularLogo (flatImage 333 100) (5 # 2)
                    400 160 false) == inject_Z (5 * k) /\
    canvas_height (Logo.createRectangularLogo (flatImage 333 100) (5 # 2)
                     400 160 false) == inject_Z (2 * k).
Proof.
  apply (logo_canvas_whole_units (flatImage 333 100) 400 160 false);
    reflexivity.
Defined.

Lemma snapFiveTwo_whole (base : Q * Q) :
  exists w h : Z,
    fst (Logo.snapFiveTwo base) == inject_Z w /\
    snd (Logo.snapFiveTwo base) == inject_Z h.
Proof.
  destruct base as [bw bh]. unfold Logo.snapFiveTwo.
  destruct (if JS.rem _ 2 !== 0 then _ else _) as [w1 h1].
  destruct (JS.round w1 / JS.round h1 !== (5 # 2)).
  - cbn [fst snd]. unfold JS.max.
    destruct (JS.ceil _ <? JS.ceil _); unfold JS.ceil;
      eexists; eexists; split;
        (rewrite <- (inject_Z_mult 5) || rewrite <- (inject_Z_mult 2));
        reflexivity.
  - cbn [fst snd]. unfold JS.round. eexists. eexists.
    split; reflexivity.
Qed.

Lemma logo_fit_whole (origWidth origHeight minWidth minHeight : Z)
      (aspectRatio : Q) :
  exists w h : Z,
    fst (Logo.fit origWidth origHeight aspectRatio
           (inject_Z minWidth) (inject_Z minHeight)) == inject_Z w /\
    snd (Logo.fit origWidth origHeight aspectRatio
           (inject_Z minWidth) (inject_Z minHeight)) == inject_Z h.
Proof.
  unfold Logo.fit.
  destruct (aspectRatio === (5 # 2)); [apply snapFiveTwo_whole|].
  unfold Logo.baseBox, Logo.enforceMinimums, JS.ceil.
  destruct (_ >? aspectRatio);
    destruct (_ <? inject_Z minWidth) eqn:A; cbn [orb];
    repeat match goal with
           | |- context [if ?b then _ else _] => destruct b
           end;
    cbn [fst snd]; eexists; eexists; split; reflexivity.
Qed.

(** X2.  For every positive target ratio and whole-number minimums the
    sizes assigned to the canvas of the rectangular logo are whole
    numbers, so the canvas keeps them as they are, and the canvas is at
    least [minWidth] wide and [minHeight] high. *)
Theorem logo_canvas_meets_minimums
        (img : Image) (aspectRatio : Q) (minWidth minHeight : Z)
        (transparent : bool) :
  (0 < width img)%Z -> (0 < height img)%Z -> 0 < aspectRatio ->
  let c := Logo.createRectangularLogo img aspectRatio
             (inject_Z minWidth) (inject_Z minHeight) transparent in
  exists w h : Z,
    canvas_width c == inject_Z w /\ canvas_height c == inject_Z h /\
    (minWidth <= w)%Z /\ (minHeight <= h)%Z /\
    (width img <= w)%Z /\ (height img <= h)%Z.
Proof.
  intros Hw Hh Ha.
  pose proof (logo_fit_meets (width img) (height img) aspectRatio
                (inject_Z minWidth) (inject_Z minHeight) Hh Ha) as [M1 M2].
  pose proof (logo_fit_around (width img) (height img) aspectRatio
                (inject_Z minWidth) (inject_Z minHeight) Hh Ha) as [A1 A2].
  destruct (logo_fit_whole (width img) (height img) minWidth minHeight
              aspectRatio) as (w & h & Ew & Eh).
  cbv zeta in A1, A2.
  unfold Logo.createRectangularLogo, Logo.offsets.
  destruct (Logo.fit _ _ _ _ _) as [fw fh]. cbn [fst snd] in *.
  cbn [canvas_width canvas_height].
  exists w, h. split; [exact Ew|]. split; [exact Eh|].
  rewrite Ew in M1, A1. rewrite Eh in M2, A2.
  rewrite <- Zle_Qle in M1, M2, A1, A2. auto.
Qed.

Lemma logo_canvas_meets_minimums_witness :
  exists w h : Z,
    canvas_width (Logo.createRectangularLogo (flatImage 50 80) 3
                    (inject_Z 400) (inject_Z 160) true) == inject_Z w /\
    canvas_height (Logo.createRectangularLogo (flatImage 50 80) 3
                     (inject_Z 400) (inject_Z 160) true) == inject_Z h /\
    (400 <= w)%Z /\ (160 <= h)%Z /\
    (width (flatImage 50 80) <= w)%Z /\ (height (flatImage 50 80) <= h)%Z.
Proof.
  apply (logo_canvas_meets_minimums (flatImage 50 80) 3 400 160 true);
    reflexivity.
Defined.

(** X3.  For a source of positive size neither corrective branch of the
    5:2 snapping is ever taken: the height it derives is always even,
    and the final ratio check always passes, so the "Adjusting
    dimensions" warning is never logged. *)
Theorem snap_corrections_never_run
        (origWidth origHeight : Z) (minWidth minHeight : Q) :
  (0 < origWidth)%Z -> (0 < origHeight)%Z ->
  snapChecks
    (Logo.enforceMinimums (5 # 2) minWidth minHeight
       (Logo.baseBox origWidth origHeight (5 # 2)))
  = (false, false).
Proof.
  intros Hw Hh.
  assert (Ha : 0 < 5 # 2) by reflexivity.
  pose proof (logo_enforceMinimums_around origWidth origHeight (5 # 2)
                minWidth minHeight Ha _
                (logo_baseBox_around origWidth origHeight (5 # 2) Hh Ha))
    as (A1 & _).
  destruct (Logo.enforceMinimums _ _ _ _) as [w h]. cbn [fst snd] in A1.
  pose proof (inject_Z_pos _ Hw) as Pw.
  unfold snapChecks.
  set (k := Qceiling (w / 5)).
  assert (Hk : 0 < inject_Z k).
  { pose proof (Qle_ceiling (w / 5)) as C. fold k in C.
    assert (0 < w / 5) by (apply Qlt_shift_div_l; lra). lra. }
  assert (Ew : JS.ceil (w / 5) * 5 == inject_Z (5 * k)).
  { unfold JS.ceil. fold k. rewrite inject_Z_mult. simpl. ring. }
  assert (Eh : JS.ceil (w / 5) * 5 * 2 / 5 == inject_Z (2 * k)).
  { unfold JS.ceil. fold k. rewrite inject_Z_mult. simpl. field. }
  assert (Hrem : JS.rem (JS.ceil (w / 5) * 5 * 2 / 5) 2 == 0).
  { unfold JS.rem. rewrite (trunc_int _ k).
    - rewrite Eh, inject_Z_mult. simpl. ring.
    - rewrite Eh, inject_Z_mult. simpl. field. }
  rewrite (neqb_false _ _ Hrem).
  rewrite (round_int _ _ Ew), (round_int _ _ Eh).
  rewrite neqb_false; [reflexivity|].
  rewrite !inject_Z_mult. simpl. field. lra.
Qed.

Lemma snap_corrections_never_run_witness :
  snapChecks
    (Logo.enforceMinimums (5 # 2) 400 160 (Logo.baseBox 333 100 (5 # 2)))
  = (false, false).
Proof.
  apply (snap_corrections_never_run 333 100 400 160); reflexivity.
Defined.

(** X4.  With the 5:2 ratio, giving [createRectangularLogo] an image of
    the size of the canvas it produced, with the same minimums, yields a
    canvas of that same size, on which the image is drawn at (0, 0):
    a fitted logo is left as it is. *)
Theorem logo_canvas_refit
        (img : Image) (minWidth minHeight : Q) (transparent : bool)
        (pixels : Z -> Z -> RGBA) :
  (0 < width img)%Z -> (0 < height img)%Z ->
  let c := Logo.createRectangularLogo img (5 # 2) minWidth minHeight
             transparent in
  let img' := mkImage (Qfloor (canvas_width c)) (Qfloor (canvas_height c))
                pixels in
  let c' := Logo.createRectangularLogo img' (5 # 2) minWidth minHeight
              transparent in
  canvas_width c' == canvas_width c /\
  canvas_height c' == canvas_height c /\
  exists background, calls c' = [background; DrawImage img' 0 0].
Proof.
  intros Hw Hh.
  pose proof (logo_fit_idempotent (width img) (height img)
                minWidth minHeight Hw Hh) as I.
  destruct (logo_fit_units (width img) (height img) minWidth minHeight Hw Hh)
    as (k & Hk & U1 & U2).
  cbv zeta in I. unfold pixelSize in I. cbn [fst snd] in I.
  cbv zeta. unfold Logo.createRectangularLogo, Logo.offsets.
  destruct (Logo.fit (width img) (height img) _ _ _) as [w h].
  cbn [fst snd canvas_width canvas_height width height] in *.
  destruct (Logo.fit (Qfloor w) (Qfloor h) _ _ _) as [w' h'].
  destruct I as [I1 I2]. cbn [fst snd canvas_width canvas_height calls] in *.
  split; [exact I1|]. split; [exact I2|].
  eexists. f_equal. f_equal.
  assert (F1 : Qfloor w = (5 * k)%Z) by (rewrite U1; apply Qfloor_Z).
  assert (F2 : Qfloor h = (2 * k)%Z) by (rewrite U2; apply Qfloor_Z).
  assert (Z1 : (w' - inject_Z (Qfloor w)) / 2 == inject_Z 0).
  { rewrite F1, I1, U1. change (inject_Z 0) with 0. field. }
  assert (Z2 : (h' - inject_Z (Qfloor h)) / 2 == inject_Z 0).
  { rewrite F2, I2, U2. change (inject_Z 0) with 0. field. }
  unfold JS.floor. rewrite Z1, Z2, !Qfloor_Z. reflexivity.
Qed.

Lemma logo_canvas_refit_witness :
  let c := Logo.createRectangularLogo (flatImage 333 100) (5 # 2) 400 160
             false in
  let img' := mkImage (Qfloor (canvas_width c)) (Qfloor (canvas_height c))
                (fun _ _ => white) in
  let c' := Logo.createRectangularLogo img' (5 # 2) 400 160 false in
  canvas_width c' == canvas_width c /\
  canvas_height c' == canvas_height c /\
  exists background, calls c' = [background; DrawImage img' 0 0].
Proof.
  apply (logo_canvas_refit (flatImage 333 100) 400 160 false
           (fun _ _ => white)); reflexivity.
Defined.

(** ** The earlier rectangular logo and the square logo *)

(** X5.  The earlier logo processors, which reach the minimums through
    one scale factor and [Math.round], produce a canvas that is at
    least [minWidth] wide and [minHeight] high when the minimums are
    whole numbers of pixels. *)
Theorem rounded_logo_meets_minimums
        (img : Image) (aspectRatio : Q) (minWidth minHeight : Z)
        (transparent : bool) :
  (0 < width img)%Z -> (0 < height img)%Z -> 0 < aspectRatio ->
  let c := LogoRounded.createRectangularLogo img aspectRatio
             (inject_Z minWidth) (inject_Z minHeight) transparent in
  let c1 := LogoFirst.createRectangularLogo img aspectRatio
              (inject_Z minWidth) (inject_Z minHeight) in
  (inject_Z minWidth <= canvas_width c /\
   inject_Z minHeight <= canvas_height c) /\
  (inject_Z minWidth <= canvas_width c1 /\
   inject_Z minHeight <= canvas_height c1).
Proof.
  intros Hw Hh Ha.
  pose proof (rounded_fit_meets (width img) (height img) aspectRatio
                Hw Hh Ha minWidth minHeight) as M.
  unfold LogoRounded.createRectangularLogo, LogoFirst.createRectangularLogo.
  destruct (LogoRounded.fit _ _ _ _ _) as [w h]. split; exact M.
Qed.

Lemma rounded_logo_meets_minimums_witness :
  (inject_Z 400 <=
   canvas_width (LogoRounded.createRectangularLogo (flatImage 333 100)
                   (5 # 2) (inject_Z 400) (inject_Z 160) false) /\
   inject_Z 160 <=
   canvas_height (LogoRounded.createRectangularLogo (flatImage 333 100)
                    (5 # 2) (inject_Z 400) (inject_Z 160) false)) /\
  (inject_Z 400 <=
   canvas_width (LogoFirst.createRectangularLogo (flatImage 333 100)
                   (5 # 2) (inject_Z 400) (inject_Z 160)) /\
   inject_Z 160 <=
   canvas_height (LogoFirst.createRectangularLogo (flatImage 333 100)
                    (5 # 2) (inject_Z 400) (inject_Z 160))).
Proof.
  apply (rounded_logo_meets_minimums (flatImage 333 100) (5 # 2) 400 160
           false); reflexivity.
Defined.

(** X6.  The canvas of the square logo is square, and its side is the
    largest of the source width, the source height and the minimum
    size: the smallest square that holds the source and is not below
    the minimum. *)
Theorem square_logo_side
        (img : Image) (minSize : Q) (transparent : bool) :
  let c := Logo.createSquareLogo img minSize transparent in
  let side := canvas_width c in
  canvas_height c = side /\
  inject_Z (width img) <= side /\ inject_Z (height img) <= side /\
  minSize <= side /\
  (side = inject_Z (width img) \/ side = inject_Z (height img) \/
   side = minSize).
Proof.
  unfold Logo.createSquareLogo. cbn [canvas_width canvas_height].
  pose proof (squareSize_bounds (width img) (height img) minSize)
    as (B1 & B2 & B3).
  split; [reflexivity|]. repeat (split; [assumption|]).
  unfold Logo.squareSize, JS.max.
  destruct (_ <? minSize); [tauto|].
  destruct (_ <? _); tauto.
Qed.

(** ** The headshot with the default options *)

Lemma headshot_default_small (w0 h0 : Q) :
  w0 <= 292 -> h0 <= 400 ->
  size_eq (Headshot.enforceMinimums 292 400 (73, 100) (w0, h0)) (292, 400).
Proof.
  intros Hw Hh. unfold Headshot.enforceMinimums.
  destruct ((w0 <? 292) || (h0 <? 400)) eqn:B.
  - cbn [fst snd]. destruct (292 / w0 >? 400 / h0);
      vm_compute; split; reflexivity.
  - apply orb_ltb_false in B. unfold meets in B. cbn [fst snd] in B.
    split; cbn [fst snd]; lra.
Qed.

Lemma headshot_default_large (w0 h0 : Q) :
  292 <= w0 -> 400 <= h0 ->
  Headshot.enforceMinimums 292 400 (73, 100) (w0, h0) = (w0, h0).
Proof.
  intros Hw Hh. unfold Headshot.enforceMinimums.
  destruct ((w0 <? 292) || (h0 <? 400)) eqn:B; [|reflexivity].
  apply orb_ltb in B. lra.
Qed.

(** X7.  With the default options (73:100, 292 x 400) every source that
    is at most 292 wide and at most 400 high gets a canvas of exactly
    292 x 400 pixels. *)
Theorem headshot_default_small_source (img : Image) :
  (0 < width img <= 292)%Z -> (0 < height img <= 400)%Z ->
  let c := Headshot.createHeadshot img 292 400 (73, 100) in
  canvas_width c == 292 /\ canvas_height c == 400.
Proof.
  intros [Hw Lw] [Hh Lh].
  assert (Qw : inject_Z (width img) <= 292)
    by (change 292 with (inject_Z 292); now rewrite <- Zle_Qle).
  assert (Qh : inject_Z (height img) <= 400)
    by (change 400 with (inject_Z 400); now rewrite <- Zle_Qle).
  pose proof (inject_Z_pos _ Hw) as Pw. pose proof (inject_Z_pos _ Hh) as Ph.
  assert (S : size_eq (Headshot.fit (width img) (height img) 292 400 (73, 100))
                      (292, 400)).
  { unfold Headshot.fit, Headshot.baseBox. cbn [fst snd].
    destruct (_ >? _).
    - apply headshot_default_small; [exact Qw|].
      apply (ceil_lub _ 400). change (inject_Z 400) with 400.
      apply Qle_shift_div_r; [reflexivity|]. lra.
    - apply headshot_default_small; [|exact Qh].
      apply (ceil_lub _ 292). change (inject_Z 292) with 292.
      apply Qle_shift_div_r; [reflexivity|]. lra. }
  cbv zeta. unfold Headshot.createHeadshot.
  destruct (Headshot.fit _ _ _ _ _) as [w h]. exact S.
Qed.

Lemma headshot_default_small_source_witness :
  canvas_width (Headshot.createHeadshot (flatImage 50 80) 292 400 (73, 100))
    == 292 /\
  canvas_height (Headshot.createHeadshot (flatImage 50 80) 292 400 (73, 100))
    == 400.
Proof.
  apply (headshot_default_small_source (flatImage 50 80)); cbn; lia.
Defined.

(** X8.  With the default options a source that is wider than 292 or
    higher than 400 is padded along one side only: the canvas keeps the
    source's width and its height is the least whole number that makes
    it no wider than 73:100, or it keeps the source's height and its
    width is the least whole number that makes it no narrower than
    73:100.  The ratio is missed by less than one pixel. *)
Theorem headshot_default_large_source (img : Image) :
  (0 < width img)%Z -> (0 < height img)%Z ->
  (292 < width img)%Z \/ (400 < height img)%Z ->
  let c := Headshot.createHeadshot img 292 400 (73, 100) in
  let W := canvas_width c in
  let H := canvas_height c in
  (W == inject_Z (width img) /\ inject_Z (height img) <= H /\
   W * 100 <= H * 73 /\ (H - 1) * 73 < W * 100) \/
  (H == inject_Z (height img) /\ inject_Z (width img) <= W /\
   H * 73 <= W * 100 /\ (W - 1) * 100 < H * 73).
Proof.
  intros Hw Hh Big.
  pose proof (inject_Z_pos _ Hw) as Pw. pose proof (inject_Z_pos _ Hh) as Ph.
  assert (Big' : 292 < inject_Z (width img) \/ 400 < inject_Z (height img)).
  { destruct Big as [B|B]; [left; change 292 with (inject_Z 292)
                            |right; change 400 with (inject_Z 400)];
      now rewrite <- Zlt_Qlt. }
  cbv zeta. unfold Headshot.createHeadshot, Headshot.fit, Headshot.baseBox.
  cbn [fst snd]. set (w := inject_Z (width img)) in *.
  set (h := inject_Z (height img)) in *.
  destruct (w / h >? 73 / 100) eqn:E.
  - apply gtb_gt in E.
    assert (E' : 73 * h < 100 * w).
    { apply (Qmult_lt_compat_r _ _ h) in E; [|exact Ph].
      rewrite div_mul in E by lra.
      apply (Qmult_lt_compat_r _ _ 100) in E; [|reflexivity].
      assert (X : 73 / 100 * h * 100 == 73 * h) by field. lra. }
    pose proof (ceil_ge (w * 100 / 73)) as C1.
    pose proof (ceil_lt (w * 100 / 73)) as C2.
    set (H := JS.ceil (w * 100 / 73)) in *.
    assert (D : w * 100 / 73 * 73 == w * 100) by field.
    assert (B1 : 292 <= w) by (destruct Big'; lra).
    assert (B2 : 400 <= H) by lra.
    rewrite headshot_default_large by assumption.
    destruct (Headshot.offsets _ _ _) as [x y].
    cbn [canvas_width canvas_height]. left.
    split; [reflexivity|]. split; [lra|]. split; lra.
  - apply gtb_le in E.
    assert (E' : 100 * w <= 73 * h).
    { apply (Qmult_le_compat_r _ _ h) in E; [|lra].
      rewrite div_mul in E by lra.
      apply (Qmult_le_compat_r _ _ 100) in E; [|discriminate].
      assert (X : 73 / 100 * h * 100 == 73 * h) by field. lra. }
    pose proof (ceil_ge (h * 73 / 100)) as C1.
    pose proof (ceil_lt (h * 73 / 100)) as C2.
    set (W := JS.ceil (h * 73 / 100)) in *.
    assert (D : h * 73 / 100 * 100 == h * 73) by field.
    assert (B2 : 400 <= h) by (destruct Big'; lra).
    assert (B1 : 292 <= W) by lra.
    rewrite headshot_default_large by assumption.
    destruct (Headshot.offsets _ _ _) as [x y].
    cbn [canvas_width canvas_height]. right.
    split; [reflexivity|]. split; [lra|]. split; lra.
Qed.

Lemma headshot_default_large_source_witness :
  let c := Headshot.createHeadshot (flatImage 300 501) 292 400 (73, 100) in
  let W := canvas_width c in
  let H := canvas_height c in
  (W == inject_Z 300 /\ inject_Z 501 <= H /\
   W * 100 <= H * 73 /\ (H - 1) * 73 < W * 100) \/
  (H == inject_Z 501 /\ inject_Z 300 <= W /\
   H * 73 <= W * 100 /\ (W - 1) * 100 < H * 73).
Proof.
  apply (headshot_default_large_source (flatImage 300 501)); cbn; lia.
Defined.

(** ** The earlier headshot processor *)

Lemma growWidth_steps (step origW : Q) :
  forall (fuel : nat) (start result : Q),
    HeadshotScaled.growWidth fuel step origW start = Some result ->
    exists n : nat,
      result == start + inject_Z (Z.of_nat n) * step /\
      (n = 0%nat \/ result - step < origW).
Proof.
  induction fuel as [|fuel IH]; intros start result G; cbn in G.
  - destruct (start <? origW) eqn:E; [discriminate G|].
    injection G as <-. exists 0%nat.
    change (inject_Z (Z.of_nat 0)) with 0. split; [lra|now left].
  - destruct (start <? origW) eqn:E.
    + apply ltb_lt in E. apply IH in G as (n & R & L).
      exists (S n). rewrite Nat2Z.inj_succ. unfold Z.succ.
      rewrite inject_Z_plus. change (inject_Z 1) with 1.
      split; [lra|]. right. destruct L as [->|L]; [|exact L].
      change (inject_Z (Z.of_nat 0)) with 0 in R. lra.
    + injection G as <-. exists 0%nat.
      change (inject_Z (Z.of_nat 0)) with 0. split; [lra|now left].
Qed.

(** X9.  With a positive whole number for the first ratio term, the
    width loop of the earlier headshot processor ends, and the width it
    leaves is the least positive multiple of that term which is not
    below the source width.  (Sums of whole numbers are exact in
    binary64; a fractional step such as 0.1 accumulates rounding
    errors, and the loop can then take one more turn.) *)
Theorem earlier_headshot_width_is_least_multiple (t0 origWidth : Z) :
  (0 < t0)%Z ->
  (exists fuel result,
     HeadshotScaled.growWidth fuel (inject_Z t0) (inject_Z origWidth)
       (inject_Z t0) = Some result) /\
  (forall fuel result,
     HeadshotScaled.growWidth fuel (inject_Z t0) (inject_Z origWidth)
       (inject_Z t0) = Some result ->
     exists k : Z,
       (1 <= k)%Z /\ result == inject_Z (k * t0) /\
       (origWidth <= k * t0)%Z /\
       forall j : Z, (1 <= j)%Z -> (origWidth <= j * t0)%Z -> (k <= j)%Z).
Proof.
  intros Ht'.
  assert (Ht : 0 < inject_Z t0)
    by (change 0 with (inject_Z 0); now rewrite <- Zlt_Qlt).
  split.
  - destruct (growWidth_terminates (inject_Z t0) (inject_Z origWidth)
                (inject_Z t0) Ht) as (fuel & r & G & _).
    now exists fuel, r.
  - intros fuel result G.
    pose proof (growWidth_reaches _ _ _ _ _ G) as R.
    apply growWidth_steps in G as (n & E & L).
    exists (Z.of_nat n + 1)%Z. split; [lia|].
    assert (Er : result == inject_Z ((Z.of_nat n + 1) * t0)).
    { rewrite inject_Z_mult, inject_Z_plus. change (inject_Z 1) with 1.
      lra. }
    split; [exact Er|].
    split; [rewrite Zle_Qle, <- Er; exact R|].
    intros j Hj Cj. destruct L as [->|L]; [cbn; lia|].
    destruct (Z_lt_le_dec j (Z.of_nat n + 1)) as [Lt|Ge]; [|exact Ge].
    exfalso. assert (Lj : (j <= Z.of_nat n)%Z) by lia.
    rewrite Zle_Qle in Cj, Lj. rewrite inject_Z_mult in Cj. nra.
Qed.

Lemma earlier_headshot_width_is_least_multiple_witness :
  (exists fuel result,
     HeadshotScaled.growWidth fuel (inject_Z 73) (inject_Z 300)
       (inject_Z 73) = Some result) /\
  (forall fuel result,
     HeadshotScaled.growWidth fuel (inject_Z 73) (inject_Z 300)
       (inject_Z 73) = Some result ->
     exists k : Z,
       (1 <= k)%Z /\ result == inject_Z (k * 73) /\
       (300 <= k * 73)%Z /\
       forall j : Z, (1 <= j)%Z -> (300 <= j * 73)%Z -> (k <= j)%Z).
Proof.
  apply (earlier_headshot_width_is_least_multiple 73 300). reflexivity.
Defined.

(** X10.  When the first ratio term is zero or negative and the source
    is wider than it, the earlier headshot processor never leaves its
    width loop: it produces no canvas, whatever the number of
    iterations allowed. *)
Theorem earlier_headshot_hangs
        (fuel : nat) (img : Image) (minWidth minHeight t0 t1 : Q) :
  t0 <= 0 -> t0 < inject_Z (width img) ->
  HeadshotScaled.createHeadshot fuel img minWidth minHeight (t0, t1) = None.
Proof.
  intros Ht Lw. unfold HeadshotScaled.createHeadshot. cbn [fst snd].
  now rewrite (growWidth_diverges t0 (inject_Z (width img)) Ht fuel t0 Lw).
Qed.

Lemma earlier_headshot_hangs_witness :
  HeadshotScaled.createHeadshot 1000 (flatImage 10 10) 292 400 (0, 100)
  = None.
Proof.
  apply (earlier_headshot_hangs 1000 (flatImage 10 10) 292 400 0 100);
    [vm_compute; discriminate|reflexivity].
Defined.

Lemma max_same (a b : Q) : a == b -> JS.max a b == a.
Proof.
  intros E. unfold JS.max. destruct (a <? b); [symmetry; exact E|reflexivity].
Qed.

(** X11.  With the default options the earlier headshot processor
    returns, for every source, a canvas whose sides are exactly in the
    ratio 73:100 and which is at least 292 x 400. *)
Theorem earlier_headshot_default_exact (img : Image) :
  (exists fuel c,
     HeadshotScaled.createHeadshot fuel img 292 400 (73, 100) = Some c) /\
  (forall fuel c,
     HeadshotScaled.createHeadshot fuel img 292 400 (73, 100) = Some c ->
     canvas_width c * 100 == canvas_height c * 73 /\
     292 <= canvas_width c /\ 400 <= canvas_height c).
Proof.
  assert (Ht : 0 < 73) by reflexivity.
  split.
  - destruct (growWidth_terminates 73 (inject_Z (width img)) 73 Ht)
      as (fuel & r & G & _).
    exists fuel. unfold HeadshotScaled.createHeadshot. cbn [fst snd].
    rewrite G. destruct (_ || _); eexists; reflexivity.
  - intros fuel c. unfold HeadshotScaled.createHeadshot. cbn [fst snd].
    destruct (HeadshotScaled.growWidth _ _ _ _) as [r|] eqn:G;
      [|discriminate].
    apply growWidth_steps in G as (n & E & _).
    set (k := inject_Z (Z.of_nat n)) in *.
    assert (Pk : 0 <= k).
    { subst k. change 0 with (inject_Z 0). rewrite <- Zle_Qle. lia. }
    assert (Er : r == (k + 1) * 73) by lra.
    assert (Eh : r * 100 / 73 == (k + 1) * 100) by (rewrite Er; field).
    destruct ((r <? 292) || (r * 100 / 73 <? 400)) eqn:B.
    + intros [= <-]. cbn [canvas_width canvas_height].
      assert (Sw : r * JS.max (292 / r) (400 / (r * 100 / 73))
                   == inject_Z 292).
      { rewrite max_same.
        - change (inject_Z 292) with 292. field. lra.
        - rewrite Eh, Er. field. lra. }
      assert (Sh : r * 100 / 73 * JS.max (292 / r) (400 / (r * 100 / 73))
                   == inject_Z 400).
      { rewrite max_same.
        - change (inject_Z 400) with 400. field. lra.
        - rewrite Eh, Er. field. lra. }
      rewrite (round_int _ _ Sw), (round_int _ _ Sh).
      repeat split; discriminate || reflexivity.
    + intros [= <-]. cbn [canvas_width canvas_height].
      apply orb_ltb_false in B. unfold meets in B. cbn [fst snd] in B.
      split; [field|exact B].
Qed.



(** ** The favicon of a very flat or very narrow source *)

Lemma round_below_half (x : Q) : 0 <= x -> x < 1 # 2 -> JS.round x = 0.
Proof.
  intros L U. unfold JS.round.
  assert (F : Qfloor (x + (1 # 2)) = 0%Z); [|now rewrite F].
  pose proof (Qfloor_le (x + (1 # 2))) as F1.
  pose proof (Qlt_floor (x + (1 # 2))) as F2.
  rewrite inject_Z_plus in F2. change (inject_Z 1) with 1 in F2.
  assert (A : (-1 < Qfloor (x + (1 # 2)))%Z)
    by (rewrite Zlt_Qlt; change (inject_Z (-1)) with (-(1)); lra).
  assert (B : (Qfloor (x + (1 # 2)) < 1)%Z)
    by (rewrite Zlt_Qlt; change (inject_Z 1) with 1; lra).
  lia.
Qed.

Lemma inRect_empty (x y w : Q) (X Y : Z) : inRect x y w 0 X Y = false.
Proof.
  unfold inRect. destruct (Qle_bool y (inject_Z Y)) eqn:A;
    [|now rewrite andb_false_r].
  destruct (Qle_bool (inject_Z Y + 1) (y + 0)) eqn:B;
    [|now rewrite andb_false_r].
  apply Qle_bool_iff in A, B. lra.
Qed.

(** X13.  A source more than 128 times as wide as it is high gets a
    scaled height of 0 on the favicon: the draw call has no area and
    the favicon shows the background only. *)
Theorem favicon_of_flat_source_is_blank
        (over : RGBA -> RGBA -> RGBA)
        (resample :
           (Z -> Z -> RGBA) -> Q -> Q -> Q -> Q -> Q -> Q -> Z -> Z -> RGBA)
        (img : Image) (transparent : bool) :
  (0 < height img)%Z -> (128 * height img < width img)%Z ->
  let c := Logo.createIcoFromSquare img transparent in
  (exists x y scaledWidth,
     calls c = [paintBackground transparent 64 64;
                DrawImageScaled img x y scaledWidth 0]) /\
  forall X Y,
    canvasPixel over resample c X Y =
    canvasPixel over resample
      (mkCanvas 64 64 [paintBackground transparent 64 64]) X Y.
Proof.
  intros Hh Flat.
  assert (Hw : (0 < width img)%Z) by lia.
  pose proof (inject_Z_pos _ Hw) as Pw. pose proof (inject_Z_pos _ Hh) as Ph.
  assert (Fq : 128 * inject_Z (height img) < inject_Z (width img)).
  { change 128 with (inject_Z 128). rewrite <- inject_Z_mult.
    now rewrite <- Zlt_Qlt. }
  assert (S0 : JS.round (inject_Z (height img) *
                         JS.min (64 / inject_Z (width img))
                                (64 / inject_Z (height img))) = 0).
  { set (w := inject_Z (width img)) in *. set (h := inject_Z (height img)) in *.
    assert (D : h * (64 / w) * w == h * 64) by (field; lra).
    assert (L : 64 / w < 64 / h).
    { apply Qlt_shift_div_l; [exact Ph|].
      assert (E : 64 / w * h == 64 * h / w) by (field; lra).
      rewrite E. apply Qlt_shift_div_r; [exact Pw|]. lra. }
    assert (M : JS.min (64 / w) (64 / h) = 64 / w).
    { unfold JS.min. destruct (64 / h <? 64 / w) eqn:C; [|reflexivity].
      apply ltb_lt in C. lra. }
    rewrite M. apply round_below_half.
    - apply Qmult_le_0_compat; [lra|]. apply Qle_shift_div_l; lra.
    - apply (Qmult_lt_r _ _ w Pw). rewrite D. lra. }
  cbv zeta. unfold Logo.createIcoFromSquare, Logo.icoPlacement.
  change Logo.largestSize with 64. rewrite S0.
  cbn [calls]. split; [do 3 eexists; reflexivity|].
  intros X Y. unfold canvasPixel, paint. cbn [calls fold_left].
  cbn [paintOp]. now rewrite inRect_empty.
Qed.

Lemma favicon_of_flat_source_is_blank_witness :
  let c := Logo.createIcoFromSquare (flatImage 1000 3) false in
  (exists x y scaledWidth,
     calls c = [paintBackground false 64 64;
                DrawImageScaled (flatImage 1000 3) x y scaledWidth 0]) /\
  forall X Y,
    canvasPixel sampleOver sampleResample c X Y =
    canvasPixel sampleOver sampleResample
      (mkCanvas 64 64 [paintBackground false 64 64]) X Y.
Proof.
  apply (favicon_of_flat_source_is_blank sampleOver sampleResample
           (flatImage 1000 3) false); reflexivity.
Defined.

(** ** More on colour keying *)

(** Induction over a buffer, four bytes at a time. *)
Lemma buffer_ind (P : list Z -> Prop) :
  P [] -> (forall a, P [a]) -> (forall a b, P [a; b]) ->
  (forall a b c, P [a; b; c]) ->
  (forall r g b a rest, P rest -> P (r :: g :: b :: a :: rest)) ->
  forall data, P data.
Proof.
  intros P0 P1 P2 P3 P4.
  fix IH 1. intros [|r [|g [|b [|a rest]]]].
  - exact P0.
  - apply P1.
  - apply P2.
  - apply P3.
  - apply P4. apply IH.
Qed.

Lemma keyOut_nothing (target : option Z * option Z * option Z)
      (tolerance : Q) :
  (forall r g b, similar target tolerance r g b = false) ->
  forall data, keyOut target tolerance data = data.
Proof.
  intros N. induction data as [| | | |r g b a rest IH] using buffer_ind;
    try reflexivity.
  cbn [keyOut]. now rewrite N, IH.
Qed.

Lemma slice_short (s : string) :
  (String.length s <= 5)%nat -> slice 5 7 s = ""%string.
Proof.
  intros L. unfold slice. cbn [Nat.sub].
  destruct s as [|c1 [|c2 [|c3 [|c4 [|c5 [|c6 s]]]]]]; try reflexivity.
  cbn in L. lia.
Qed.

(** X14.  When the colour string has at most five characters (a name
    such as [white], or the short form [#FFF]) its blue component does
    not parse, and when the tolerance is zero or negative no distance
    is below it: in both cases [removeBackground] puts back the very
    buffer it read, no pixel is made transparent. *)
Theorem removeBackground_keys_nothing (img : Image) (options : Options) :
  (String.length (targetColor options) <= 5)%nat \/ tolerance options <= 0 ->
  calls (removeBackground img options) =
    [DrawImage img 0 0;
     PutImageData (width img) (height img) (imageBytes img) 0 0].
Proof.
  intros H. unfold removeBackground. cbn [calls].
  rewrite keyOut_nothing; [reflexivity|].
  intros r g b. destruct H as [H|H].
  - unfold parseTarget. rewrite (slice_short _ H).
    change (parseInt16 "") with (@None Z). cbn [similar].
    destruct (parseInt16 _); [destruct (parseInt16 _)|]; reflexivity.
  - unfold similar. destruct (parseTarget _) as [[[tr|] [tg|]] [tb|]];
      try reflexivity.
    unfold JS.sqrt_ltb. apply andb_false_iff. right. apply ltb_ge.
    eapply Qle_trans; [exact H|apply sqrt_nonneg].
Qed.

Lemma removeBackground_keys_nothing_witness :
  calls (removeBackground twoColumns (mkOptions "#FFF" 30)) =
    [DrawImage twoColumns 0 0;
     PutImageData (width twoColumns) (height twoColumns)
       (imageBytes twoColumns) 0 0].
Proof.
  apply (removeBackground_keys_nothing twoColumns (mkOptions "#FFF" 30)).
  left. cbn. lia.
Defined.

(** X15.  The keying loop run over its own output changes nothing:
    removing the same colour with the same tolerance twice is the same
    as removing it once. *)
Theorem keyOut_idempotent
        (target : option Z * option Z * option Z) (tolerance : Q)
        (data : list Z) :
  keyOut target tolerance (keyOut target tolerance data) =
  keyOut target tolerance data.
Proof.
  induction data as [| | | |r g b a rest IH] using buffer_ind;
    try reflexivity.
  cbn [keyOut]. rewrite IH.
  destruct (similar target tolerance r g b); reflexivity.
Qed.

Lemma similar_mono (target : option Z * option Z * option Z)
      (t1 t2 : Q) (r g b : Z) :
  t1 <= t2 -> similar target t1 r g b = true ->
  similar target t2 r g b = true.
Proof.
  intros L. unfold similar.
  destruct target as [[[tr|] [tg|]] [tb|]]; try discriminate.
  rewrite !sqrt_ltb_spec. intros [P S]. split; [exact P|lra].
Qed.

Lemma pixelAt_length (data : list Z) (k : nat) :
  (exists p, pixelAt data k = Some p) <-> (4 * k + 3 < List.length data)%nat.
Proof.
  unfold pixelAt. split.
  - intros [p H].
    destruct (nth_error data (4 * k + 3)) eqn:E.
    + apply nth_error_Some. congruence.
    + destruct (nth_error data (4 * k)), (nth_error data (4 * k + 1)),
        (nth_error data (4 * k + 2)); discriminate H.
  - intros L.
    destruct (nth_error data (4 * k)) eqn:E0;
      [|apply nth_error_None in E0; lia].
    destruct (nth_error data (4 * k + 1)) eqn:E1;
      [|apply nth_error_None in E1; lia].
    destruct (nth_error data (4 * k + 2)) eqn:E2;
      [|apply nth_error_None in E2; lia].
    destruct (nth_error data (4 * k + 3)) eqn:E3;
      [|apply nth_error_None in E3; lia].
    eexists; reflexivity.
Qed.

Lemma keyOut_raise
      (target : option Z * option Z * option Z) (t1 t2 : Q)
      (data : list Z) (k : nat) (p1 : RGBA) :
  t1 <= t2 ->
  pixelAt (keyOut target t1 data) k = Some p1 -> alpha p1 = 0%Z ->
  exists p2,
    pixelAt (keyOut target t2 data) k = Some p2 /\ alpha p2 = 0%Z /\
    red p2 = red p1 /\ green p2 = green p1 /\ blue p2 = blue p1.
Proof.
  intros L H1 A1.
  assert (E : exists p, pixelAt data k = Some p).
  { apply pixelAt_length. rewrite <- (keyOut_length target t1).
    apply pixelAt_length. now exists p1. }
  destruct E as [p E].
  rewrite (keyOut_pixelAt target t1 k data p E) in H1. injection H1 as <-.
  exists (keyed target t2 p). split; [now apply keyOut_pixelAt|].
  cbn [keyed alpha red green blue] in *.
  repeat split.
  destruct (similar target t1 (red p) (green p) (blue p)) eqn:S1.
  - now rewrite (similar_mono target t1 t2 _ _ _ L S1).
  - rewrite A1. now destruct (similar target t2 _ _ _).
Qed.

(** X16.  Raising the tolerance never brings a pixel back: every pixel
    that is transparent after keying with one tolerance is transparent
    after keying the same buffer with any larger tolerance. *)
Theorem keyOut_monotone
        (target : option Z * option Z * option Z) (t1 t2 : Q)
        (data : list Z) (k : nat) (p1 : RGBA) :
  t1 <= t2 ->
  pixelAt (keyOut target t1 data) k = Some p1 -> alpha p1 = 0%Z ->
  exists p2,
    pixelAt (keyOut target t2 data) k = Some p2 /\ alpha p2 = 0%Z /\
    red p2 = red p1 /\ green p2 = green p1 /\ blue p2 = blue p1.
Proof. exact (keyOut_raise target t1 t2 data k p1). Qed.

Lemma keyOut_monotone_witness :
  exists p2,
    pixelAt (keyOut (Some 255, Some 255, Some 255)%Z 50
               [250; 250; 250; 255]%Z) 0 = Some p2 /\
    alpha p2 = 0%Z /\
    red p2 = 250%Z /\ green p2 = 250%Z /\ blue p2 = 250%Z.
Proof.
  apply (keyOut_monotone (Some 255, Some 255, Some 255)%Z 30 50
           [250; 250; 250; 255]%Z 0 (mkRGBA 250 250 250 0));
    [vm_compute; discriminate | reflexivity | reflexivity].
Defined.

(** X17.  [removeBackground] reads the characters 1-2, 3-4 and 5-6 of
    the colour string as three two-digit hexadecimal numbers.  The
    character in front of them is never looked at (it need not be a
    [#]) and whatever follows the sixth digit is ignored. *)
Theorem parseTarget_hex
        (c0 c1 c2 c3 c4 c5 c6 : ascii) (rest : string)
        (d1 d2 d3 d4 d5 d6 : Z) :
  hexDigit c1 = Some d1 -> hexDigit c2 = Some d2 ->
  hexDigit c3 = Some d3 -> hexDigit c4 = Some d4 ->
  hexDigit c5 = Some d5 -> hexDigit c6 = Some d6 ->
  parseTarget
    (String c0 (String c1 (String c2 (String c3 (String c4
       (String c5 (String c6 rest))))))) =
  (Some (16 * d1 + d2)%Z, Some (16 * d3 + d4)%Z, Some (16 * d5 + d6)%Z).
Proof.
  intros H1 H2 H3 H4 H5 H6. unfold parseTarget, slice.
  cbn [Nat.sub substring].
  assert (E : substring 0 0 rest = ""%string) by (destruct rest; reflexivity).
  rewrite E.
  now rewrite (parseInt16_hex2 _ _ _ _ H1 H2),
    (parseInt16_hex2 _ _ _ _ H3 H4), (parseInt16_hex2 _ _ _ _ H5 H6).
Qed.

Lemma parseTarget_hex_witness :
  parseTarget "#1a2B3c" = (Some 26, Some 43, Some 60)%Z.
Proof.
  apply (parseTarget_hex "#" "1" "a" "2" "B" "3" "c" ""
           1 10 2 11 3 12); reflexivity.
Defined.

(** ** Rounding to binary64 *)

Lemma ilog2_le (a : Q) : 0 < a -> Qpower 2 (JS.ilog2 a) <= a.
Proof.
  intros Ha. unfold JS.ilog2.
  set (e := (Z.log2 (Qnum a) - Z.log2 (Z.pos (Qden a)))%Z).
  destruct (Qle_bool (2 ^ e) a) eqn:B; [now apply Qle_bool_iff|]. clear B.
  destruct a as [n d]. cbn [Qnum Qden] in e.
  assert (Hn : (0 < n)%Z) by (unfold Qlt in Ha; cbn in Ha; lia).
  pose proof (Z.log2_spec n Hn) as [N1 _].
  pose proof (Z.log2_spec (Z.pos d) ltac:(lia)) as [_ D2].
  pose proof (Z.log2_nonneg n) as N0.
  pose proof (Z.log2_nonneg (Z.pos d)) as D0.
  set (ln := Z.log2 n) in *. set (ld := Z.log2 (Z.pos d)) in *.
  replace (e - 1)%Z with (ln + - Z.succ ld)%Z by (unfold e; lia).
  rewrite Qpower_plus by discriminate.
  rewrite Qpower_opp.
  change 2 with (inject_Z 2).
  rewrite <- !Zpower_Qpower by lia.
  assert (P : (0 < 2 ^ Z.succ ld)%Z) by (apply Z.pow_pos_nonneg; lia).
  set (A := (2 ^ ln)%Z) in *. set (B := (2 ^ Z.succ ld)%Z) in *.
  rewrite (Qmake_Qdiv n d).
  assert (PB : 0 < inject_Z B)
    by (change 0 with (inject_Z 0); now rewrite <- Zlt_Qlt).
  assert (PD : 0 < inject_Z (Z.pos d)) by reflexivity.
  apply Qle_shift_div_l; [exact PD|].
  setoid_replace (inject_Z A * / inject_Z B * inject_Z (Z.pos d))
    with (inject_Z A * inject_Z (Z.pos d) / inject_Z B) by (field; lra).
  apply Qle_shift_div_r; [exact PB|].
  rewrite <- !inject_Z_mult, <- Zle_Qle. nia.
Qed.

Lemma roundEven_near (q : Q) :
  q - (1 # 2) <= inject_Z (JS.roundEven q) <= q + (1 # 2).
Proof.
  unfold JS.roundEven.
  pose proof (Qfloor_le q) as F1. pose proof (Qlt_floor q) as F2.
  rewrite inject_Z_plus in F2. change (inject_Z 1) with 1 in F2.
  destruct (JS.ltb (q - inject_Z (Qfloor q)) (1 # 2)) eqn:A.
  { apply ltb_lt in A. lra. }
  apply ltb_ge in A.
  destruct (JS.ltb (1 # 2) (q - inject_Z (Qfloor q))) eqn:B.
  { rewrite inject_Z_plus. change (inject_Z 1) with 1. lra. }
  apply ltb_ge in B.
  destruct (Z.even (Qfloor q)).
  - lra.
  - rewrite inject_Z_plus. change (inject_Z 1) with 1. lra.
Qed.

Lemma roundEven_nonneg (q : Q) : 0 <= q -> (0 <= JS.roundEven q)%Z.
Proof.
  intros Hq.
  assert (F : (0 <= Qfloor q)%Z)
    by (rewrite <- (Qfloor_Z 0); now apply Qfloor_resp_le).
  unfold JS.roundEven.
  destruct (JS.ltb _ _); [exact F|].
  destruct (JS.ltb _ _); [lia|]. destruct (Z.even _); lia.
Qed.

Lemma fl_bounds (x : Q) :
  0 <= x -> 0 <= JS.fl x /\ x * (1 - JS.unitRoundoff) <= JS.fl x <= x * (1 + JS.unitRoundoff).
Proof.
  intros Hx. unfold JS.fl.
  destruct (Qeq_bool x 0) eqn:Z0.
  { apply Qeq_bool_iff in Z0. rewrite Z0. split; [apply Qle_refl|].
    split; vm_compute; discriminate. }
  apply Qeq_bool_neq in Z0.
  assert (Px : 0 < x).
  { destruct (Qlt_le_dec 0 x) as [?|L]; [assumption|].
    exfalso. apply Z0. apply Qle_antisym; assumption. }
  assert (A : Qabs x = x).
  { destruct x as [n d]. unfold Qabs. f_equal. apply Z.abs_eq.
    unfold Qle in Hx. cbn in Hx. lia. }
  rewrite A. clear A.
  pose proof (ilog2_le x Px) as L.
  set (e := JS.ilog2 x) in *.
  assert (U : 2 ^ (e - 52) == 2 ^ e * JS.unitRoundoff * 2).
  { replace (e - 52)%Z with (e + (-52))%Z by lia.
    rewrite Qpower_plus by discriminate.
    change (2 ^ (-52)) with (1 # 4503599627370496). unfold JS.unitRoundoff.
    generalize (2 ^ e). intros p. ring. }
  set (ulp := 2 ^ (e - 52)) in *.
  assert (Pu : 0 < ulp) by (apply Qpower_0_lt; reflexivity).
  assert (Pe : 0 < 2 ^ e) by (apply Qpower_0_lt; reflexivity).
  pose proof (roundEven_near (x / ulp)) as [R1 R2].
  assert (Q0 : 0 <= x / ulp) by (apply Qle_shift_div_l; lra).
  pose proof (roundEven_nonneg _ Q0) as R0.
  rewrite Zle_Qle in R0. change (inject_Z 0) with 0 in R0.
  set (m := inject_Z (JS.roundEven (x / ulp))) in *.
  assert (D : x / ulp * ulp == x) by (field; lra).
  assert (E : 0 < JS.unitRoundoff) by reflexivity.
  split; [nra|]. split; nra.
Qed.

(** A whole number scaled by a rounded ratio of whole numbers, rounded
    and floored, is the exact scaled value floored, or one less. *)
Lemma scaled_floor (n a b : Z) :
  (0 <= n)%Z -> (0 < a)%Z -> (0 < b)%Z -> (n * a < 2 ^ 50)%Z ->
  let v := JS.fl (inject_Z n * JS.fl (inject_Z a / inject_Z b)) in
  (0 <= Qfloor v)%Z /\ (n * a / b - 1 <= Qfloor v <= n * a / b)%Z.
Proof.
  intros Hn Ha Hb Bound v.
  assert (Pa : 0 < inject_Z a)
    by (change 0 with (inject_Z 0); now rewrite <- Zlt_Qlt).
  assert (Pb : 0 < inject_Z b)
    by (change 0 with (inject_Z 0); now rewrite <- Zlt_Qlt).
  assert (Pn : 0 <= inject_Z n)
    by (change 0 with (inject_Z 0); now rewrite <- Zle_Qle).
  assert (R0 : 0 <= inject_Z a / inject_Z b)
    by (apply Qle_shift_div_l; lra).
  pose proof (fl_bounds _ R0) as (S0 & S1 & S2).
  set (s := JS.fl (inject_Z a / inject_Z b)) in *.
  assert (P0 : 0 <= inject_Z n * s) by (apply Qmult_le_0_compat; assumption).
  pose proof (fl_bounds _ P0) as (V0 & V1 & V2). fold v in V0, V1, V2.
  assert (D : inject_Z a / inject_Z b * inject_Z b == inject_Z a)
    by (field; lra).
  set (r := inject_Z a / inject_Z b) in *.
  set (N := inject_Z n) in *. set (A := inject_Z a) in *.
  set (B := inject_Z b) in *.
  assert (E : 0 < JS.unitRoundoff) by reflexivity.
  assert (E1 : JS.unitRoundoff <= 1 # 9007199254740992) by (unfold JS.unitRoundoff; apply Qle_refl).
  (* v * B lies between N A (1 - JS.unitRoundoff)^2 and N A (1 + JS.unitRoundoff)^2 *)
  assert (NA : N * A == inject_Z (n * a))
    by (unfold N, A; now rewrite inject_Z_mult).
  assert (NAb : N * A < 1125899906842624).
  { rewrite NA. change 1125899906842624 with (inject_Z (2 ^ 50)).
    now rewrite <- Zlt_Qlt. }
  assert (NA0 : 0 <= N * A) by nra.
  assert (Mono : forall p q t : Q, 0 <= p -> q <= t -> p * q <= p * t).
  { intros p q t Hp Hq.
    setoid_replace (p * t) with (p * q + p * (t - q)) by ring.
    assert (0 <= p * (t - q)) by (apply Qmult_le_0_compat; lra). lra. }
  assert (E2 : 0 <= 1 + JS.unitRoundoff) by lra.
  assert (E3 : 0 <= 1 - JS.unitRoundoff) by (unfold JS.unitRoundoff; vm_compute; discriminate).
  assert (NrB : N * r * B == N * A) by (rewrite <- D; ring).
  assert (Nr0 : 0 <= N * r) by (apply Qmult_le_0_compat; assumption).
  assert (Up : v * B <= N * A * ((1 + JS.unitRoundoff) * (1 + JS.unitRoundoff))).
  { assert (T1 : N * s <= N * (r * (1 + JS.unitRoundoff))) by (apply Mono; assumption).
    assert (T2 : (1 + JS.unitRoundoff) * (N * s) <= (1 + JS.unitRoundoff) * (N * (r * (1 + JS.unitRoundoff))))
      by (apply Mono; assumption).
    assert (T3 : v <= N * r * ((1 + JS.unitRoundoff) * (1 + JS.unitRoundoff))) by lra.
    assert (T4 : B * v <= B * (N * r * ((1 + JS.unitRoundoff) * (1 + JS.unitRoundoff))))
      by (apply Mono; lra).
    setoid_replace (N * A * ((1 + JS.unitRoundoff) * (1 + JS.unitRoundoff)))
      with (B * (N * r * ((1 + JS.unitRoundoff) * (1 + JS.unitRoundoff))))
      by (rewrite <- NrB; ring).
    lra. }
  assert (Lo : N * A * ((1 - JS.unitRoundoff) * (1 - JS.unitRoundoff)) <= v * B).
  { assert (T1 : N * (r * (1 - JS.unitRoundoff)) <= N * s) by (apply Mono; assumption).
    assert (T2 : (1 - JS.unitRoundoff) * (N * (r * (1 - JS.unitRoundoff))) <= (1 - JS.unitRoundoff) * (N * s))
      by (apply Mono; assumption).
    assert (T3 : N * r * ((1 - JS.unitRoundoff) * (1 - JS.unitRoundoff)) <= v) by lra.
    assert (T4 : B * (N * r * ((1 - JS.unitRoundoff) * (1 - JS.unitRoundoff))) <= B * v)
      by (apply Mono; lra).
    setoid_replace (N * A * ((1 - JS.unitRoundoff) * (1 - JS.unitRoundoff)))
      with (B * (N * r * ((1 - JS.unitRoundoff) * (1 - JS.unitRoundoff))))
      by (rewrite <- NrB; ring).
    lra. }
  (* the exact quotient *)
  pose proof (Z.div_mod (n * a) b ltac:(lia)) as DM.
  pose proof (Z.mod_pos_bound (n * a) b Hb) as MB.
  set (k := (n * a / b)%Z) in *. set (m := ((n * a) mod b)%Z) in *.
  assert (K : N * A == B * inject_Z k + inject_Z m).
  { rewrite NA, DM, inject_Z_plus, inject_Z_mult. reflexivity. }
  assert (M0 : 0 <= inject_Z m)
    by (change 0 with (inject_Z 0); rewrite <- Zle_Qle; lia).
  assert (M1 : inject_Z m <= B - 1).
  { assert (T : inject_Z m + 1 <= B); [|lra].
    unfold B. change 1 with (inject_Z 1).
    rewrite <- inject_Z_plus, <- Zle_Qle. lia. }
  assert (K0 : (0 <= k)%Z) by (apply Z.div_pos; nia).
  pose proof (Qfloor_le v) as F1. pose proof (Qlt_floor v) as F2.
  rewrite inject_Z_plus in F2. change (inject_Z 1) with 1 in F2.
  assert (Sq1 : N * A * ((1 + JS.unitRoundoff) * (1 + JS.unitRoundoff)) < N * A + 1).
  { setoid_replace (N * A * ((1 + JS.unitRoundoff) * (1 + JS.unitRoundoff)))
      with (N * A + N * A * (JS.unitRoundoff * (2 + JS.unitRoundoff))) by ring.
    assert (T : N * A * (JS.unitRoundoff * (2 + JS.unitRoundoff))
                <= 1125899906842624 * (JS.unitRoundoff * (2 + JS.unitRoundoff))).
    { rewrite !(Qmult_comm _ (JS.unitRoundoff * (2 + JS.unitRoundoff))). apply Mono; [|lra].
      apply Qmult_le_0_compat; lra. }
    assert (1125899906842624 * (JS.unitRoundoff * (2 + JS.unitRoundoff)) < 1)
      by (unfold JS.unitRoundoff; reflexivity).
    lra. }
  assert (Sq2 : N * A - 1 < N * A * ((1 - JS.unitRoundoff) * (1 - JS.unitRoundoff))).
  { setoid_replace (N * A * ((1 - JS.unitRoundoff) * (1 - JS.unitRoundoff)))
      with (N * A - N * A * (JS.unitRoundoff * (2 - JS.unitRoundoff))) by ring.
    assert (T : N * A * (JS.unitRoundoff * (2 - JS.unitRoundoff))
                <= 1125899906842624 * (JS.unitRoundoff * (2 - JS.unitRoundoff))).
    { rewrite !(Qmult_comm _ (JS.unitRoundoff * (2 - JS.unitRoundoff))). apply Mono; [|lra].
      apply Qmult_le_0_compat; [lra|]. unfold JS.unitRoundoff. vm_compute. discriminate. }
    assert (1125899906842624 * (JS.unitRoundoff * (2 - JS.unitRoundoff)) < 1)
      by (unfold JS.unitRoundoff; reflexivity).
    lra. }
  assert (KB : (inject_Z k + 1) * B == B * inject_Z k + B) by ring.
  assert (KB' : (inject_Z k - 1) * B == B * inject_Z k - B) by ring.
  assert (Hi : v < inject_Z k + 1).
  { assert (T : v * B < (inject_Z k + 1) * B) by lra.
    destruct (Qlt_le_dec v (inject_Z k + 1)) as [?|G]; [assumption|].
    exfalso. assert (B * (inject_Z k + 1) <= B * v) by (apply Mono; lra).
    lra. }
  assert (Lw : inject_Z k - 1 < v).
  { assert (T : (inject_Z k - 1) * B < v * B) by lra.
    destruct (Qlt_le_dec (inject_Z k - 1) v) as [?|G]; [assumption|].
    exfalso. assert (B * v <= B * (inject_Z k - 1)) by (apply Mono; lra).
    lra. }
  split.
  - rewrite <- (Qfloor_Z 0). now apply Qfloor_resp_le.
  - split.
    + assert (G : (k - 1 < Qfloor v + 1)%Z); [|lia].
      rewrite Zlt_Qlt, inject_Z_plus. unfold Z.sub.
      rewrite inject_Z_plus, inject_Z_opp. change (inject_Z 1) with 1. lra.
    + assert (G : (Qfloor v < k + 1)%Z); [|lia].
      rewrite Zlt_Qlt, inject_Z_plus. change (inject_Z 1) with 1. lra.
Qed.

(** ** The cropping component *)

Lemma floor_le (a : Q) : JS.floor a <= a.
Proof. apply Qfloor_le. Qed.

Lemma initCropArea_edges (s : Cropper.State) (offsetWidth offsetHeight : Z) :
  (0 <= offsetWidth)%Z -> (0 <= offsetHeight)%Z ->
  edgesBounded (Cropper.initCropArea s offsetWidth offsetHeight).
Proof.
  intros Hw Hh. rewrite Zle_Qle in Hw, Hh. change (inject_Z 0) with 0 in *.
  unfold edgesBounded, Cropper.initCropArea.
  cbn [Cropper.cropArea Cropper.imageSize Cropper.x Cropper.y Cropper.width
       Cropper.height Cropper.size_width Cropper.size_height].
  set (W := inject_Z offsetWidth) in *. set (H := inject_Z offsetHeight) in *.
  pose proof (floor_le (W * (8 # 10))) as Fw.
  pose proof (floor_le (H * (8 # 10))) as Fh.
  set (w := JS.floor (W * (8 # 10))) in *.
  set (h := JS.floor (H * (8 # 10))) in *.
  pose proof (floor_le ((W - w) / 2)) as Fx.
  pose proof (floor_le ((H - h) / 2)) as Fy.
  assert (Dx : (W - w) / 2 * 2 == W - w) by field.
  assert (Dy : (H - h) / 2 * 2 == H - h) by field.
  assert (Px : 0 <= (W - w) / 2) by (apply Qle_shift_div_l; lra).
  assert (Py : 0 <= (H - h) / 2) by (apply Qle_shift_div_l; lra).
  split; [now apply floor_nonneg|]. split; [now apply floor_nonneg|].
  split; lra.
Qed.

Lemma resize_edges (handle : Cropper.Handle) (c : Cropper.CropArea)
      (size : Cropper.Size) (deltaX deltaY : Q) :
  let c' := Cropper.resize handle c size deltaX deltaY in
  0 <= Cropper.x c' /\ 0 <= Cropper.y c' /\
  Cropper.x c' + Cropper.width c' <= Cropper.size_width size /\
  Cropper.y c' + Cropper.height c' <= Cropper.size_height size.
Proof.
  cbv zeta. unfold Cropper.resize.
  destruct (if Cropper.includes handle "n" then _ else _) as [y1 h1].
  destruct (if Cropper.includes handle "w" then _ else _) as [x1 w1].
  set (w2 := if w1 <? 50 then 50 else w1).
  set (h2 := if h1 <? 50 then 50 else h1).
  destruct (x1 <? 0) eqn:Ex; destruct (y1 <? 0) eqn:Ey;
    cbv beta iota zeta;
    cbn [Cropper.x Cropper.y Cropper.width Cropper.height];
    apply ltb_lt in Ex || apply ltb_ge in Ex;
    apply ltb_lt in Ey || apply ltb_ge in Ey;
    do 2 js_cases;
    repeat match goal with
           | |- context [JS.floor ?a] =>
               let F := fresh "F" in
               pose proof (floor_le a) as F;
               let P := fresh "P" in
               assert (P : 0 <= a -> 0 <= JS.floor a) by apply floor_nonneg;
               generalize dependent (JS.floor a); intros
           end;
    repeat split; lra.
Qed.

Lemma move_edges (c : Cropper.CropArea) (size : Cropper.Size)
      (deltaX deltaY : Q) :
  Cropper.width c <= Cropper.size_width size ->
  Cropper.height c <= Cropper.size_height size ->
  let c' := Cropper.move c size deltaX deltaY in
  0 <= Cropper.x c' /\ 0 <= Cropper.y c' /\
  Cropper.x c' + Cropper.width c' <= Cropper.size_width size /\
  Cropper.y c' + Cropper.height c' <= Cropper.size_height size.
Proof.
  intros Lw Lh. cbv zeta. unfold Cropper.move.
  cbn [Cropper.x Cropper.y Cropper.width Cropper.height].
  destruct (Cropper.x c + deltaX <? 0) eqn:Ex;
    destruct (Cropper.y c + deltaY <? 0) eqn:Ey;
    apply ltb_lt in Ex || apply ltb_ge in Ex;
    apply ltb_lt in Ey || apply ltb_ge in Ey;
    do 2 js_cases;
    repeat match goal with
           | |- context [JS.floor ?a] =>
               let F := fresh "F" in
               pose proof (floor_le a) as F;
               let P := fresh "P" in
               assert (P : 0 <= a -> 0 <= JS.floor a) by apply floor_nonneg;
               generalize dependent (JS.floor a); intros
           end;
    repeat split; lra.
Qed.

Lemma step_edges (s : Cropper.State) (e : Cropper.Event) :
  soundLoad e -> edgesBounded s -> edgesBounded (Cropper.step s e).
Proof.
  intros He I. destruct e as [ow oh|target cx cy|cx cy|]; cbn [Cropper.step].
  - destruct He. now apply initCropArea_edges.
  - destruct target; exact I.
  - unfold Cropper.handleMouseMove.
    destruct (Cropper.isDragging s); cbn [negb]; [|exact I].
    unfold edgesBounded. cbn [Cropper.cropArea Cropper.imageSize].
    destruct (Cropper.resizing s) as [handle|].
    + apply resize_edges.
    + destruct I as (X & Y & W & H). apply move_edges; lra.
  - exact I.
Qed.

Lemma initCropArea_sizes (s : Cropper.State) (offsetWidth offsetHeight : Z) :
  (0 <= offsetWidth)%Z -> (0 <= offsetHeight)%Z ->
  let c := Cropper.cropArea (Cropper.initCropArea s offsetWidth offsetHeight) in
  0 <= Cropper.width c /\ 0 <= Cropper.height c.
Proof.
  intros Hw Hh. rewrite Zle_Qle in Hw, Hh. change (inject_Z 0) with 0 in *.
  cbn. split; apply floor_nonneg; lra.
Qed.

Lemma step_whole (s : Cropper.State) (e : Cropper.Event) :
  wholeBox (Cropper.cropArea s) ->
  wholeBox (Cropper.cropArea (Cropper.step s e)).
Proof.
  intros (X & Y & W & H & E).
  destruct e as [ow oh|target cx cy|cx cy|]; cbn [Cropper.step].
  - cbn. do 4 eexists. reflexivity.
  - destruct target; cbn; now exists X, Y, W, H.
  - unfold Cropper.handleMouseMove.
    destruct (Cropper.isDragging s); cbn [negb]; [|now exists X, Y, W, H].
    cbn [Cropper.cropArea].
    destruct (Cropper.resizing s) as [handle|].
    + unfold Cropper.resize.
      destruct (if Cropper.includes handle "n" then _ else _) as [y1 h1].
      destruct (if Cropper.includes handle "w" then _ else _) as [x1 w1].
      destruct (if x1 <? 0 then _ else _) as [x2 w2].
      destruct (if y1 <? 0 then _ else _) as [y2 h2].
      do 4 eexists. reflexivity.
    + unfold Cropper.move. rewrite E. cbn [Cropper.width Cropper.height].
      do 4 eexists. reflexivity.
  - cbn. now exists X, Y, W, H.
Qed.

(** While no handle is grabbed the box is only moved, and keeps its
    size. *)
Lemma step_move_only (s : Cropper.State) (e : Cropper.Event) :
  soundLoad e -> noHandle e ->
  onImage s /\ Cropper.resizing s = None ->
  onImage (Cropper.step s e) /\ Cropper.resizing (Cropper.step s e) = None.
Proof.
  intros He Hn [(I & Pw & Ph) R].
  destruct e as [ow oh|target cx cy|cx cy|]; cbn [Cropper.step].
  - destruct He as [Hw Hh]. split; [|exact R].
    split; [now apply initCropArea_edges|].
    now apply initCropArea_sizes.
  - destruct target as [handle|]; [destruct Hn|].
    split; [|exact R]. split; [exact I|]. split; assumption.
  - unfold Cropper.handleMouseMove.
    destruct (Cropper.isDragging s); cbn [negb];
      [|split; [split; [exact I|split; assumption]|exact R]].
    rewrite R. cbn [Cropper.resizing]. split; [|reflexivity].
    unfold onImage, edgesBounded. cbn [Cropper.cropArea Cropper.imageSize].
    destruct I as (X & Y & W & H).
    split; [apply move_edges; lra|].
    unfold Cropper.move. cbn [Cropper.width Cropper.height].
    split; assumption.
  - split; [|reflexivity]. split; [exact I|]. split; assumption.
Qed.

Lemma run_edges (events : list Cropper.Event) :
  Forall soundLoad events ->
  forall s,
    edgesBounded s -> wholeBox (Cropper.cropArea s) ->
    edgesBounded (fold_left Cropper.step events s) /\
    wholeBox (Cropper.cropArea (fold_left Cropper.step events s)).
Proof.
  induction 1 as [|e events He F IH]; intros s I W; cbn [fold_left].
  - split; assumption.
  - apply IH; [now apply step_edges|now apply step_whole].
Qed.

Lemma run_move_only (events : list Cropper.Event) :
  Forall soundLoad events -> Forall noHandle events ->
  forall s,
    onImage s /\ Cropper.resizing s = None ->
    onImage (fold_left Cropper.step events s) /\
    Cropper.resizing (fold_left Cropper.step events s) = None.
Proof.
  induction 1 as [|e events He F IH]; intros N s J; cbn [fold_left].
  - exact J.
  - inversion N as [|e' events' Ne Nes]; subst.
    apply IH; [exact Nes|]. now apply step_move_only.
Qed.

(** X18.  Whatever the user does with the mouse, and whenever the
    image loads, the crop box of the cropping component keeps four
    bounds - its corner is never negative, and its corner plus its size
    never passes the width and the height of the displayed image - and
    its four numbers are whole.  As long as no resize handle has been
    grabbed, the width and the height are not negative either, and the
    box lies on the displayed image.  (After a resize the width or the
    height can be negative, see X19, and the four bounds then no longer
    confine the box.) *)
Theorem crop_box_stays_on_image (events : list Cropper.Event) :
  Forall soundLoad events ->
  edgesBounded (Cropper.run events) /\
  wholeBox (Cropper.cropArea (Cropper.run events)) /\
  (Forall noHandle events -> onImage (Cropper.run events)).
Proof.
  intros F. unfold Cropper.run.
  assert (I : edgesBounded Cropper.initial).
  { unfold edgesBounded. cbn. repeat split; discriminate. }
  assert (W : wholeBox (Cropper.cropArea Cropper.initial)).
  { exists 0%Z, 0%Z, 0%Z, 0%Z. reflexivity. }
  destruct (run_edges events F Cropper.initial I W) as [A B].
  split; [exact A|]. split; [exact B|].
  intros N. apply (run_move_only events F N).
  split; [|reflexivity]. split; [exact I|]. cbn. split; discriminate.
Qed.

Lemma crop_box_stays_on_image_witness :
  edgesBounded (Cropper.run [Cropper.Load 500 300;
                             Cropper.MouseDown None 20 20;
                             Cropper.MouseMove (-300) 15;
                             Cropper.MouseUp]) /\
  wholeBox (Cropper.cropArea
              (Cropper.run [Cropper.Load 500 300;
                            Cropper.MouseDown None 20 20;
                            Cropper.MouseMove (-300) 15;
                            Cropper.MouseUp])) /\
  (Forall noHandle [Cropper.Load 500 300;
                    Cropper.MouseDown None 20 20;
                    Cropper.MouseMove (-300) 15;
                    Cropper.MouseUp] ->
   onImage (Cropper.run [Cropper.Load 500 300;
                         Cropper.MouseDown None 20 20;
                         Cropper.MouseMove (-300) 15;
                         Cropper.MouseUp])).
Proof.
  apply (crop_box_stays_on_image
           [Cropper.Load 500 300;
            Cropper.MouseDown None 20 20;
            Cropper.MouseMove (-300) 15;
            Cropper.MouseUp]).
  repeat constructor; cbn; lia.
Defined.

(** X19.  The minimum size of 50 that a resize enforces is undone by
    the bounds check that follows it: dragging a west handle to within
    50 pixels of the image's right edge leaves a crop box narrower than
    50, and dragging it past the right edge leaves one of negative
    width. *)
Theorem resize_loses_minimum_width
        (s : Cropper.State) (handle : Cropper.Handle) (clientX clientY : Q) :
  Cropper.isDragging s = true ->
  Cropper.resizing s = Some handle ->
  Cropper.includes handle "w" = true ->
  let left := Cropper.x (Cropper.cropArea s) +
              (clientX - Cropper.point_x (Cropper.dragStart s)) in
  let imageWidth := Cropper.size_width (Cropper.imageSize s) in
  let s' := Cropper.handleMouseMove s clientX clientY in
  0 <= left -> imageWidth - 50 < left ->
  Cropper.width (Cropper.cropArea s') < 50 /\
  (imageWidth < left -> Cropper.width (Cropper.cropArea s') < 0).
Proof.
  intros D R Hw left imageWidth s' L0 L1.
  subst s'. unfold Cropper.handleMouseMove. rewrite D, R. cbn [negb].
  cbn [Cropper.cropArea]. unfold Cropper.resize. rewrite Hw.
  destruct (if Cropper.includes handle "n" then _ else _) as [y1 h1].
  fold left. fold imageWidth.
  set (w1 := Cropper.width (Cropper.cropArea s) - _).
  set (w2 := if w1 <? 50 then 50 else w1).
  assert (W2 : 50 <= w2) by (subst w2; js_cases; lra).
  destruct (left <? 0) eqn:Ex; [apply ltb_lt in Ex; lra|].
  destruct (y1 <? 0); cbv beta iota zeta;
    (destruct (left + w2 >? imageWidth) eqn:C;
     [|apply gtb_le in C; lra]);
    cbn [Cropper.width];
    pose proof (floor_le (imageWidth - left)) as F;
    split; [lra | intros; lra | lra | intros; lra].
Qed.

Lemma resize_loses_minimum_width_witness :
  let s := Cropper.run [Cropper.Load 500 300;
                        Cropper.MouseDown (Some Cropper.nw) 50 30] in
  let s' := Cropper.handleMouseMove s 560 30 in
  Cropper.width (Cropper.cropArea s') < 50 /\
  (500 < 50 + (560 - 50) -> Cropper.width (Cropper.cropArea s') < 0).
Proof.
  apply (resize_loses_minimum_width
           (Cropper.run [Cropper.Load 500 300;
                         Cropper.MouseDown (Some Cropper.nw) 50 30])
           Cropper.nw 560 30); try reflexivity.
  vm_compute; discriminate.
Defined.

Lemma scaled_sum (n m a b : Z) :
  (0 < b)%Z -> (n * a / b + m * a / b <= (n + m) * a / b)%Z.
Proof.
  intros Hb. apply Z.div_le_lower_bound; [exact Hb|].
  pose proof (Z.mul_div_le (n * a) b Hb).
  pose proof (Z.mul_div_le (m * a) b Hb). lia.
Qed.

(** X20.  For a crop box of whole numbers that lies on the displayed
    image, sizes below 2^24, the rectangle that [applyCrop] cuts out of
    the natural-size image has whole, non-negative numbers: each is the
    exact scaled number [n * naturalWidth / offsetWidth] floored, or
    one less where the binary64 product falls below a whole number.
    The rectangle does not pass the right edge of the natural image,
    nor the scaled height of the displayed one; it is drawn at its own
    size, at the origin of a canvas of that size. *)
Theorem applyCrop_stays_on_natural_image
        (s : Cropper.State) (img : Image)
        (naturalWidth offsetWidth offsetHeight X Y W H : Z) :
  Cropper.cropArea s =
    Cropper.mkCropArea (inject_Z X) (inject_Z Y) (inject_Z W) (inject_Z H) ->
  (0 <= X)%Z -> (0 <= Y)%Z -> (0 <= W)%Z -> (0 <= H)%Z ->
  (X + W <= offsetWidth)%Z -> (Y + H <= offsetHeight)%Z ->
  (0 < naturalWidth < 2 ^ 24)%Z -> (0 < offsetWidth < 2 ^ 24)%Z ->
  (offsetHeight < 2 ^ 24)%Z ->
  let c := Cropper.applyCrop s img naturalWidth offsetWidth in
  let d := Cropper.crop_call c in
  let scaled (n : Z) := (n * naturalWidth / offsetWidth)%Z in
  (exists sx sy sw sh : Z,
     Cropper.sx d = inject_Z sx /\ Cropper.sy d = inject_Z sy /\
     Cropper.sWidth d = inject_Z sw /\ Cropper.sHeight d = inject_Z sh /\
     (0 <= sx /\ scaled X - 1 <= sx <= scaled X)%Z /\
     (0 <= sy /\ scaled Y - 1 <= sy <= scaled Y)%Z /\
     (0 <= sw /\ scaled W - 1 <= sw <= scaled W)%Z /\
     (0 <= sh /\ scaled H - 1 <= sh <= scaled H)%Z /\
     (sx + sw <= naturalWidth)%Z /\
     (sy + sh <= scaled offsetHeight)%Z) /\
  Cropper.dx d = 0 /\ Cropper.dy d = 0 /\
  Cropper.dWidth d = Cropper.sWidth d /\
  Cropper.dHeight d = Cropper.sHeight d /\
  Cropper.crop_width c = Cropper.sWidth d /\
  Cropper.crop_height c = Cropper.sHeight d.
Proof.
  intros E HX HY HW HH XW YH [Hn Un] [Ho Uo] Uh.
  cbv zeta. unfold Cropper.applyCrop. rewrite E.
  cbn [Cropper.crop_call Cropper.sx Cropper.sy Cropper.sWidth Cropper.sHeight
       Cropper.dx Cropper.dy Cropper.dWidth Cropper.dHeight
       Cropper.crop_width Cropper.crop_height
       Cropper.x Cropper.y Cropper.width Cropper.height].
  split; [|repeat split; reflexivity].
  assert (B : forall n : Z,
             (0 <= n < 2 ^ 24)%Z -> (n * naturalWidth < 2 ^ 50)%Z).
  { intros n Bn. change (2 ^ 50)%Z with (2 ^ 24 * 2 ^ 26)%Z.
    change (2 ^ 24)%Z with 16777216%Z in *.
    change (2 ^ 26)%Z with 67108864%Z. nia. }
  pose proof (scaled_floor X naturalWidth offsetWidth HX Hn Ho
                (B X ltac:(lia))) as (X0 & X1).
  pose proof (scaled_floor Y naturalWidth offsetWidth HY Hn Ho
                (B Y ltac:(lia))) as (Y0 & Y1).
  pose proof (scaled_floor W naturalWidth offsetWidth HW Hn Ho
                (B W ltac:(lia))) as (W0 & W1).
  pose proof (scaled_floor H naturalWidth offsetWidth HH Hn Ho
                (B H ltac:(lia))) as (H0 & H1).
  cbv zeta in X0, X1, Y0, Y1, W0, W1, H0, H1.
  unfold JS.floor. do 4 eexists.
  do 4 (split; [reflexivity|]).
  split; [split; assumption|]. split; [split; assumption|].
  split; [split; assumption|]. split; [split; assumption|].
  pose proof (scaled_sum X W naturalWidth offsetWidth Ho) as S1.
  pose proof (scaled_sum Y H naturalWidth offsetWidth Ho) as S2.
  split.
  - assert (T : ((X + W) * naturalWidth / offsetWidth <= naturalWidth)%Z).
    { apply Z.div_le_upper_bound; [exact Ho|]. nia. }
    lia.
  - assert (T : ((Y + H) * naturalWidth / offsetWidth
                 <= offsetHeight * naturalWidth / offsetWidth)%Z).
    { apply Z.div_le_mono; [exact Ho|]. nia. }
    lia.
Qed.

Lemma applyCrop_stays_on_natural_image_witness :
  let s := Cropper.run [Cropper.Load 110 80] in
  let c := Cropper.applyCrop s (flatImage 150 109) 150 110 in
  let d := Cropper.crop_call c in
  let scaled (n : Z) := (n * 150 / 110)%Z in
  (exists sx sy sw sh : Z,
     Cropper.sx d = inject_Z sx /\ Cropper.sy d = inject_Z sy /\
     Cropper.sWidth d = inject_Z sw /\ Cropper.sHeight d = inject_Z sh /\
     (0 <= sx /\ scaled 11 - 1 <= sx <= scaled 11)%Z /\
     (0 <= sy /\ scaled 8 - 1 <= sy <= scaled 8)%Z /\
     (0 <= sw /\ scaled 88 - 1 <= sw <= scaled 88)%Z /\
     (0 <= sh /\ scaled 64 - 1 <= sh <= scaled 64)%Z /\
     (sx + sw <= 150)%Z /\
     (sy + sh <= scaled 80)%Z) /\
  Cropper.dx d = 0 /\ Cropper.dy d = 0 /\
  Cropper.dWidth d = Cropper.sWidth d /\
  Cropper.dHeight d = Cropper.sHeight d /\
  Cropper.crop_width c = Cropper.sWidth d /\
  Cropper.crop_height c = Cropper.sHeight d.
Proof.
  apply (applyCrop_stays_on_natural_image
           (Cropper.run [Cropper.Load 110 80]) (flatImage 150 109)
           150 110 80 11 8 88 64); try reflexivity; try lia.
Defined.

(** A 150 pixel wide image shown 110 wide: the box that [initCropArea]
    lays out is (11, 8, 88, 64), its exact scaled corner is 15 and its
    exact scaled width 120, and [applyCrop] cuts the rectangle
    (14, 10, 119, 87). *)
Lemma applyCrop_150_shown_110 :
  let s := Cropper.run [Cropper.Load 110 80] in
  Cropper.cropArea s = Cropper.mkCropArea 11 8 88 64 /\
  Cropper.crop_call (Cropper.applyCrop s (flatImage 150 109) 150 110) =
    Cropper.mkDrawImageSub (flatImage 150 109) 14 10 119 87 0 0 119 87 /\
  (11 * 150 / 110 = 15)%Z /\ (88 * 150 / 110 = 120)%Z.
Proof. vm_compute. repeat split; reflexivity. Qed.



(** ** The cropping interface built on the DOM *)

Lemma digit_cases (d : Z) :
  (0 <= d < 10)%Z ->
  (d = 0 \/ d = 1 \/ d = 2 \/ d = 3 \/ d = 4 \/ d = 5 \/ d = 6 \/
   d = 7 \/ d = 8 \/ d = 9)%Z.
Proof. lia. Qed.

Lemma decDigit_digitChar (d : Z) :
  (0 <= d < 10)%Z -> decDigit (digitChar d) = Some d.
Proof.
  intros H.
  pose proof (digit_cases d H) as C.
  repeat (destruct C as [->|C]; [reflexivity|]). subst d. reflexivity.
Qed.

Lemma decPrefix_digitsOf (fuel : nat) :
  forall (n : Z) (rest : string),
    (0 <= n)%Z -> (Z.to_nat n <= fuel)%nat ->
    decPrefix (digitsOf fuel n rest) None = decPrefix rest (Some n).
Proof.
  induction fuel as [|fuel IH]; intros n rest Hn Hf.
  - assert (n = 0)%Z by lia. subst n. reflexivity.
  - cbn [digitsOf]. destruct (n <? 10)%Z eqn:E.
    + apply Z.ltb_lt in E. cbn [decPrefix].
      now rewrite decDigit_digitChar by lia.
    + apply Z.ltb_ge in E.
      rewrite IH.
      * cbn [decPrefix].
        rewrite decDigit_digitChar by (apply Z.mod_pos_bound; lia).
        do 2 f_equal. pose proof (Z.div_mod n 10). lia.
      * apply Z.div_pos; lia.
      * assert (n / 10 < n)%Z by (apply Z.div_lt; lia).
        assert (0 <= n / 10)%Z by (apply Z.div_pos; lia). lia.
Qed.

(** The first characters of a printed number: one digit in front of
    [rest], or two digits. *)
Lemma digitsOf_head (fuel : nat) :
  forall (n : Z) (rest : string),
    (0 <= n)%Z ->
    (exists d, (0 <= d < 10)%Z /\
               digitsOf fuel n rest = String (digitChar d) rest) \/
    (exists d1 d2 s, (0 <= d1 < 10)%Z /\ (0 <= d2 < 10)%Z /\
               digitsOf fuel n rest =
               String (digitChar d1) (String (digitChar d2) s)).
Proof.
  induction fuel as [|fuel IH]; intros n rest Hn.
  - left. exists (n mod 10)%Z. split; [apply Z.mod_pos_bound; lia|reflexivity].
  - cbn [digitsOf]. destruct (n <? 10)%Z eqn:E.
    + apply Z.ltb_lt in E. left. exists n. split; [lia|reflexivity].
    + right.
      destruct (IH (n / 10)%Z (String (digitChar (n mod 10)) rest))
        as [(d & Hd & ->)|(d1 & d2 & s & H1 & H2 & ->)].
      * apply Z.div_pos; lia.
      * exists d, (n mod 10)%Z, rest.
        split; [exact Hd|]. split; [apply Z.mod_pos_bound; lia|reflexivity].
      * exists d1, d2, s. now repeat split.
Qed.

Lemma parseInt_digit_first (d : Z) (s : string) :
  (0 <= d < 10)%Z ->
  match s with
  | String c _ => c <> "x"%char /\ c <> "X"%char
  | EmptyString => True
  end ->
  parseInt (String (digitChar d) s) = decPrefix (String (digitChar d) s) None.
Proof.
  intros H Hs.
  pose proof (digit_cases d H) as C.
  destruct C as [->|C].
  - destruct s as [|c s'].
    + reflexivity.
    + destruct Hs as [Nx NX]. unfold parseInt.
      destruct c as [[] [] [] [] [] [] [] []];
        try (exfalso; (now apply Nx) || (now apply NX));
        cbv -[decPrefix hexPrefix Z.mul];
        (destruct (decPrefix _ _) as [v|]; [f_equal; lia|reflexivity]).
  - unfold parseInt.
    repeat (destruct C as [->|C];
            [cbv -[decPrefix hexPrefix Z.mul];
             (destruct (decPrefix _ _) as [v|]; [f_equal; lia|reflexivity])|]).
    subst d. cbv -[decPrefix hexPrefix Z.mul].
    destruct (decPrefix _ _) as [v|]; [f_equal; lia|reflexivity].
Qed.

Lemma digitChar_not_x (d : Z) :
  (0 <= d < 10)%Z -> digitChar d <> "x"%char /\ digitChar d <> "X"%char.
Proof.
  intros H.
  pose proof (digit_cases d H) as C.
  repeat (destruct C as [->|C]; [split; discriminate|]).
  subst d. split; discriminate.
Qed.

Lemma parseInt_toString_px (n : Z) :
  (0 <= n)%Z -> parseInt (CroppingInterface.px n) = Some n.
Proof.
  intros Hn. unfold CroppingInterface.px, toString.
  assert (E : (n <? 0)%Z = false) by (apply Z.ltb_ge; lia). rewrite E.
  assert (A : forall fuel m rest,
             (digitsOf fuel m "" ++ rest)%string = digitsOf fuel m rest).
  { assert (G : forall fuel m acc rest,
               (digitsOf fuel m acc ++ rest)%string
               = digitsOf fuel m (acc ++ rest)%string).
    { induction fuel as [|fuel IH]; intros m acc rest; cbn [digitsOf].
      - reflexivity.
      - destruct (m <? 10)%Z; [reflexivity|]. now rewrite IH. }
    intros fuel m rest. now rewrite G. }
  rewrite A.
  assert (P : parseInt (digitsOf (Z.to_nat n) n "px")
              = decPrefix (digitsOf (Z.to_nat n) n "px") None).
  { destruct (digitsOf_head (Z.to_nat n) n "px" Hn)
      as [(d & Hd & ->)|(d1 & d2 & s & H1 & H2 & ->)].
    - apply parseInt_digit_first; [exact Hd|]. split; discriminate.
    - apply parseInt_digit_first; [exact H1|].
      now apply digitChar_not_x. }
  rewrite P, decPrefix_digitsOf by lia. reflexivity.
Qed.

(** X26.  Writing a whole number of pixels into a style and reading it
    back with [parseInt] gives the number again: [parseInt(`${n}px`)]
    is [n] for every [n >= 0]. *)
Theorem parseInt_px (n : Z) :
  (0 <= n)%Z -> parseInt (CroppingInterface.px n) = Some n.
Proof. exact (parseInt_toString_px n). Qed.

Lemma parseInt_px_witness : parseInt "1024px" = Some 1024%Z.
Proof. apply (parseInt_px 1024). lia. Defined.

(** X27.  The crop button of the DOM cropping interface reports the box
    [initCropBox] laid out, the centred box of 80% of the displayed
    image, with its four numbers multiplied by
    [naturalWidth / offsetWidth], quotient and products being binary64
    numbers; nothing else ever moves that box.  A 150 pixel wide image
    shown 110 wide is reported with 14.999999999999998 for the corner
    and 119.99999999999999 for the width.  When the image is not laid
    out, [offsetWidth] is 0 and the scale [Infinity]: the box is empty
    and all four numbers are [NaN].  When the button is clicked before
    the image has loaded, the styles are still empty and all four
    numbers are [NaN] as well. *)
Theorem cropping_interface_click
        (imgWidth imgHeight naturalWidth offsetWidth : Z) :
  (0 <= imgWidth)%Z -> (0 <= imgHeight)%Z ->
  let scale := JS.divide naturalWidth offsetWidth in
  let cropWidth := Qfloor (inject_Z imgWidth * (8 # 10)) in
  let cropHeight := Qfloor (inject_Z imgHeight * (8 # 10)) in
  CroppingInterface.click
    (CroppingInterface.initCropBox imgWidth imgHeight)
    naturalWidth offsetWidth
  = CroppingInterface.mkCropArea
      (JS.multiply
         (Qfloor ((inject_Z imgWidth - inject_Z cropWidth) / 2)) scale)
      (JS.multiply
         (Qfloor ((inject_Z imgHeight - inject_Z cropHeight) / 2)) scale)
      (JS.multiply cropWidth scale)
      (JS.multiply cropHeight scale) /\
  (exists x y w h,
     CroppingInterface.click (CroppingInterface.initCropBox 110 80) 150 110
     = CroppingInterface.mkCropArea (JS.Finite x) (JS.Finite y)
         (JS.Finite w) (JS.Finite h) /\
     x == 8444249301319679 # 562949953421312 /\
     w == 8444249301319679 # 70368744177664 /\
     x < 15 /\ w < 120) /\
  ((0 < naturalWidth)%Z ->
   CroppingInterface.click (CroppingInterface.initCropBox 0 0) naturalWidth 0
   = CroppingInterface.mkCropArea JS.NaN JS.NaN JS.NaN JS.NaN) /\
  CroppingInterface.click CroppingInterface.unset naturalWidth offsetWidth
  = CroppingInterface.mkCropArea JS.NaN JS.NaN JS.NaN JS.NaN.
Proof.
  intros Hw Hh. cbv zeta. split; [|split; [|split; [|reflexivity]]].
  - rewrite Zle_Qle in Hw, Hh. change (inject_Z 0) with 0 in Hw, Hh.
    assert (F : forall a, 0 <= a -> (0 <= Qfloor a)%Z).
    { intros a Ha. rewrite <- (Qfloor_Z 0). now apply Qfloor_resp_le. }
    assert (G : forall a, 0 <= a ->
                  (0 <= Qfloor ((a - inject_Z (Qfloor (a * (8 # 10)))) / 2))%Z).
    { intros a Ha. apply F. apply Qle_shift_div_l; [reflexivity|].
      pose proof (Qfloor_le (a * (8 # 10))). lra. }
    unfold CroppingInterface.click, CroppingInterface.initCropBox.
    cbn [CroppingInterface.left CroppingInterface.top CroppingInterface.width
         CroppingInterface.height].
    rewrite !parseInt_toString_px by (apply G || apply F; lra).
    reflexivity.
  - do 4 eexists. split; [vm_compute; reflexivity|].
    vm_compute. repeat split; reflexivity.
  - intros Pn. unfold CroppingInterface.click, JS.divide.
    change (0 =? 0)%Z with true. cbv iota.
    destruct (naturalWidth =? 0)%Z eqn:E0; [apply Z.eqb_eq in E0; lia|].
    apply Z.ltb_lt in Pn. rewrite Pn. reflexivity.
Qed.

Lemma cropping_interface_click_witness :
  CroppingInterface.click (CroppingInterface.initCropBox 500 300) 2000 500
  = CroppingInterface.mkCropArea
      (JS.multiply 50 (JS.divide 2000 500))
      (JS.multiply 30 (JS.divide 2000 500))
      (JS.multiply 400 (JS.divide 2000 500))
      (JS.multiply 240 (JS.divide 2000 500)).
Proof.
  apply (cropping_interface_click 500 300 2000 500); lia.
Defined.

(** ** Background removal behind a promise, and the page *)

Lemma removeBackgroundAI_resolves
      (decode : Canvas -> option Image) (img : Image)
      (options : ImageManipulation.Options) :
  keepsSize decode -> (0 < width img)%Z -> (0 < height img)%Z ->
  exists verifyImg,
    decode (removeBackground img options) = Some verifyImg /\
    width verifyImg = width img /\ height verifyImg = height img /\
    removeBackgroundAI decode (Loaded img) options =
      mkRun [Log "Background removal - Original image dimensions: "
                 (width img) (height img);
             Log "Background removal - Result image dimensions: "
                 (width img) (height img)]
            (Some (Resolved (removeBackground img options))).
Proof.
  intros K Hw Hh.
  destruct (K (removeBackground img options)) as (v & D & Ew & Eh).
  - cbn [removeBackground canvas_width]. now rewrite Qfloor_Z.
  - cbn [removeBackground canvas_height]. now rewrite Qfloor_Z.
  - cbn [removeBackground canvas_width canvas_height] in Ew, Eh.
    rewrite Qfloor_Z in Ew, Eh.
    exists v. split; [exact D|]. split; [exact Ew|]. split; [exact Eh|].
    unfold removeBackgroundAI.
    assert (P : ((width img <=? 0)%Z || (height img <=? 0)%Z) = false).
    { apply orb_false_iff. split; apply Z.leb_gt; assumption. }
    rewrite P. destruct options as [tc tol].
    cbn [targetColor tolerance]. rewrite D, Ew, Eh, !Z.eqb_refl.
    reflexivity.
Qed.

(** X22.  With a browser that decodes a canvas to an image of the same
    size, [removeBackgroundAI] never logs the warning that the
    dimensions changed and never rejects with "Failed to verify result
    image"; for an image that is not empty it resolves with exactly
    what [removeBackground] returns for the same colour and
    tolerance. *)
Theorem removeBackgroundAI_never_warns
        (decode : Canvas -> option Image) (file : Upload)
        (options : ImageManipulation.Options) :
  keepsSize decode ->
  let r := removeBackgroundAI decode file options in
  (forall text, ~ In (Warn text) (console r)) /\
  outcome r <> Some (Rejected "Failed to verify result image") /\
  forall img,
    file = Loaded img -> (0 < width img)%Z -> (0 < height img)%Z ->
    outcome r = Some (Resolved (removeBackground img options)).
Proof.
  intros K r. subst r.
  destruct file as [| |img].
  - cbn. split; [intros text []|]. split; [discriminate|discriminate].
  - cbn. split; [intros text []|]. split; [discriminate|discriminate].
  - destruct ((width img <=? 0)%Z || (height img <=? 0)%Z) eqn:P.
    + unfold removeBackgroundAI. rewrite P. cbn [console outcome].
      split; [intros text [H|[]]; discriminate H|].
      split; [discriminate|].
      intros img' [= <-] Hw Hh. apply orb_true_iff in P.
      destruct P as [P|P]; apply Z.leb_le in P; lia.
    + apply orb_false_iff in P. destruct P as [Pw Ph].
      apply Z.leb_gt in Pw, Ph.
      destruct (removeBackgroundAI_resolves decode img options K Pw Ph)
        as (v & _ & _ & _ & R).
      rewrite R. cbn [console outcome].
      split; [intros text [H|[H|[]]]; discriminate H|].
      split; [discriminate|].
      now intros img' [= <-] _ _.
Qed.

Lemma sampleDecode_keepsSize : keepsSize sampleDecode.
Proof.
  intros c Hw Hh. unfold sampleDecode.
  apply Z.ltb_lt in Hw, Hh. rewrite Hw, Hh. cbn [andb].
  eexists. split; [reflexivity|]. split; reflexivity.
Qed.

Lemma removeBackgroundAI_never_warns_witness :
  let r := removeBackgroundAI sampleDecode (Loaded twoColumns)
             ImageManipulation.defaults in
  (forall text, ~ In (Warn text) (console r)) /\
  outcome r <> Some (Rejected "Failed to verify result image") /\
  forall img,
    Loaded twoColumns = Loaded img ->
    (0 < width img)%Z -> (0 < height img)%Z ->
    outcome r =
    Some (Resolved (removeBackground img ImageManipulation.defaults)).
Proof.
  apply (removeBackgroundAI_never_warns sampleDecode (Loaded twoColumns)
           ImageManipulation.defaults).
  intros c Hw Hh. unfold sampleDecode.
  apply Z.ltb_lt in Hw, Hh. rewrite Hw, Hh. cbn [andb].
  eexists. split; [reflexivity|]. split; reflexivity.
Defined.

(** X29.  The two background removers do not share their default
    tolerance: [removeBackground] falls back on 30 and
    [removeBackgroundAI] on 50.  Called without options on an image
    that is not empty, [removeBackgroundAI] therefore makes transparent
    every pixel that [removeBackground] makes transparent, with the
    same colour left in it. *)
Theorem removeBackgroundAI_default_clears_more
        (decode : Canvas -> option Image) (img : Image) (k : nat)
        (p : RGBA) :
  keepsSize decode -> (0 < width img)%Z -> (0 < height img)%Z ->
  pixelAt (keyedBuffer (removeBackground img ImageManipulation.defaults)) k
  = Some p ->
  alpha p = 0%Z ->
  exists c p',
    outcome (removeBackgroundAI decode (Loaded img) defaultsAI)
    = Some (Resolved c) /\
    pixelAt (keyedBuffer c) k = Some p' /\ alpha p' = 0%Z /\
    red p' = red p /\ green p' = green p /\ blue p' = blue p.
Proof.
  intros K Hw Hh H A.
  destruct (removeBackgroundAI_resolves decode img defaultsAI K Hw Hh)
    as (v & _ & _ & _ & R).
  rewrite R. cbn [outcome].
  cbn [keyedBuffer removeBackground calls ImageManipulation.defaults
       defaultsAI targetColor tolerance] in *.
  destruct (keyOut_raise (parseTarget "#FFFFFF") 30 50 (imageBytes img) k p)
    as (p' & P & A' & C); [vm_compute; discriminate|exact H|exact A|].
  eexists. exists p'. split; [reflexivity|].
  cbn [keyedBuffer removeBackground calls targetColor tolerance].
  split; [exact P|]. split; [exact A'|exact C].
Qed.

Lemma removeBackgroundAI_default_clears_more_witness :
  exists c p',
    outcome (removeBackgroundAI sampleDecode (Loaded twoColumns) defaultsAI)
    = Some (Resolved c) /\
    pixelAt (keyedBuffer c) 0 = Some p' /\ alpha p' = 0%Z /\
    red p' = 255%Z /\ green p' = 255%Z /\ blue p' = 255%Z.
Proof.
  apply (removeBackgroundAI_default_clears_more sampleDecode twoColumns 0
           (mkRGBA 255 255 255 0) sampleDecode_keepsSize);
    reflexivity.
Defined.

Lemma fileOf_removeBackground
      (decode : Canvas -> option Image) (s : Home.State) (img : Image) :
  keepsSize decode -> (0 < width img)%Z -> (0 < height img)%Z ->
  exists processed,
    Home.removeBackgroundIfSelected decode s (Loaded img)
    = Some (Resolved (Loaded processed)) /\
    width processed = width img /\ height processed = height img.
Proof.
  intros K Hw Hh. unfold Home.removeBackgroundIfSelected.
  destruct (Home.removeBackgroundOption s).
  - destruct (removeBackgroundAI_resolves decode img
                (ImageManipulation.mkOptions (Home.bgColor s)
                   (Home.bgRemovalTolerance s)) K Hw Hh)
      as (v & D & Ew & Eh & R).
    rewrite R. cbn [outcome]. unfold Home.fileOf. rewrite D.
    exists v. now repeat split.
  - exists img. now repeat split.
Qed.

(** X23.  Submitting a logo that is not empty always succeeds and
    yields all three images, and switching the background removal on
    changes none of their sizes: the rectangular logo, the square logo
    and the favicon have the sizes they have for the uploaded image
    itself. *)
Theorem logo_submission_sizes
        (decode : Canvas -> option Image) (s : Home.State)
        (croppedFile : option Upload) (img : Image) :
  keepsSize decode -> (0 < width img)%Z -> (0 < height img)%Z ->
  match croppedFile with
  | Some file => Some file
  | None => Home.logoFile s
  end = Some (Loaded img) ->
  let s' := Home.handleLogoSubmit decode s croppedFile in
  Home.loading s' = false /\ Home.error s' = None /\
  Home.success s' = Some "Logo processed successfully!"%string /\
  exists results,
    Home.logoResults s' = Some results /\
    sameSize (Logo.rectangular results)
      (Logo.createRectangularLogo img (5 # 2) 400 160
         (Home.transparentBg s)) /\
    sameSizeOpt (Logo.res_square results)
      (Some (Logo.createSquareLogo img 40 (Home.transparentBg s))) /\
    sameSizeOpt (Logo.res_ico results)
      (Some (Logo.createIcoFromSquare img (Home.transparentBg s))).
Proof.
  intros K Hw Hh F. cbv zeta. unfold Home.handleLogoSubmit. rewrite F.
  destruct (fileOf_removeBackground decode
              (Home.setError None (Home.setLoading true s)) img K Hw Hh)
    as (v & R & Ew & Eh).
  rewrite R. cbn [Logo.processLogo Logo.square Logo.ico andb Logo.transparent
                  Logo.aspectRatio Logo.minWidth Logo.minHeight].
  cbn [Home.setLoading Home.setError Home.setSuccess Home.setLogoResults
       Home.loading Home.error Home.success Home.logoResults
       Home.transparentBg].
  repeat (split; [reflexivity|]).
  eexists. split; [reflexivity|].
  cbn [Logo.rectangular Logo.res_square Logo.res_ico sameSizeOpt].
  unfold sameSize, Logo.createRectangularLogo, Logo.createSquareLogo,
    Logo.createIcoFromSquare.
  rewrite Ew, Eh.
  destruct (Logo.fit _ _ _ _ _) as [w h].
  destruct (Logo.icoPlacement _ _ _) as [[sw sh] [x y]].
  destruct (Logo.offsets _ _ _) as [ox oy].
  cbn [canvas_width canvas_height].
  repeat split; reflexivity.
Qed.

Lemma logo_submission_sizes_witness :
  exists results,
    Home.logoResults
      (Home.handleLogoSubmit sampleDecode
         (Home.mkState "logo" false None None (Some (Loaded twoColumns))
            None false None None false None None true 30 "#FFFFFF")
         None)
    = Some results /\
    sameSize (Logo.rectangular results)
      (Logo.createRectangularLogo twoColumns (5 # 2) 400 160 false).
Proof.
  destruct (logo_submission_sizes sampleDecode
              (Home.mkState "logo" false None None (Some (Loaded twoColumns))
                 None false None None false None None true 30 "#FFFFFF")
              None twoColumns sampleDecode_keepsSize)
    as (_ & _ & _ & results & R & S & _); try reflexivity.
  exists results. split; [exact R|exact S].
Defined.

(** X24.  Submitting a headshot that is not empty always succeeds, and
    the canvas it yields has the size [createHeadshot] gives the
    uploaded image itself, whether the background removal is switched
    on or not. *)
Theorem headshot_submission_size
        (decode : Canvas -> option Image) (s : Home.State)
        (croppedFile : option Upload) (img : Image) :
  keepsSize decode -> (0 < width img)%Z -> (0 < height img)%Z ->
  match croppedFile with
  | Some file => Some file
  | None => Home.headshotFile s
  end = Some (Loaded img) ->
  let s' := Home.handleHeadshotSubmit decode s croppedFile in
  Home.loading s' = false /\ Home.error s' = None /\
  Home.success s' = Some "Headshot processed successfully!"%string /\
  exists result,
    Home.headshotResult s' = Some result /\
    sameSize result (Headshot.createHeadshot img 292 400 (73, 100)).
Proof.
  intros K Hw Hh F. cbv zeta. unfold Home.handleHeadshotSubmit. rewrite F.
  destruct (fileOf_removeBackground decode
              (Home.setError None (Home.setLoading true s)) img K Hw Hh)
    as (v & R & Ew & Eh).
  rewrite R.
  cbn [Headshot.processHeadshot Headshot.minWidth Headshot.minHeight
       Headshot.targetRatio].
  cbn [Home.setLoading Home.setError Home.setSuccess Home.setHeadshotResult
       Home.loading Home.error Home.success Home.headshotResult].
  repeat (split; [reflexivity|]).
  eexists. split; [reflexivity|].
  unfold sameSize, Headshot.createHeadshot. rewrite Ew, Eh.
  destruct (Headshot.fit _ _ _ _ _) as [w h].
  destruct (Headshot.offsets _ _ _) as [ox oy].
  cbn [canvas_width canvas_height]. split; reflexivity.
Qed.

Lemma headshot_submission_size_witness :
  exists result,
    Home.headshotResult
      (Home.handleHeadshotSubmit sampleDecode
         (Home.mkState "headshot" false None None None None false
            (Some (Loaded twoColumns)) None false None None true 30
            "#FFFFFF")
         None)
    = Some result /\
    sameSize result (Headshot.createHeadshot twoColumns 292 400 (73, 100)).
Proof.
  destruct (headshot_submission_size sampleDecode
              (Home.mkState "headshot" false None None None None false
                 (Some (Loaded twoColumns)) None false None None true 30
                 "#FFFFFF")
              None twoColumns sampleDecode_keepsSize)
    as (_ & _ & _ & result & R & S); try reflexivity.
  exists result. split; [exact R|exact S].
Defined.

(** X25.  A submission whose file cannot be read or decoded ends with
    the processor's message behind the handler's prefix, the same
    whether the background removal or the processor met the failure,
    and with the spinner off; the results and the success message of
    an earlier submission are left on the page. *)
Theorem failed_submission_keeps_results
        (decode : Canvas -> option Image) (s : Home.State)
        (croppedFile : option Upload) (file : Upload) :
  file = Unreadable \/ file = Undecodable ->
  let message :=
    match file with
    | Unreadable => "Failed to read file"%string
    | _ => "Failed to load image"%string
    end in
  (match croppedFile with
   | Some file => Some file
   | None => Home.logoFile s
   end = Some file ->
   let s' := Home.handleLogoSubmit decode s croppedFile in
   Home.error s' = Some ("Error processing logo: " ++ message)%string /\
   Home.loading s' = false /\
   Home.logoResults s' = Home.logoResults s /\
   Home.success s' = Home.success s) /\
  (match croppedFile with
   | Some file => Some file
   | None => Home.headshotFile s
   end = Some file ->
   let s' := Home.handleHeadshotSubmit decode s croppedFile in
   Home.error s' = Some ("Error processing headshot: " ++ message)%string /\
   Home.loading s' = false /\
   Home.headshotResult s' = Home.headshotResult s /\
   Home.success s' = Home.success s).
Proof.
  intros [-> | ->]; cbv zeta; split; intros F;
    unfold Home.handleLogoSubmit, Home.handleHeadshotSubmit; rewrite F;
    unfold Home.removeBackgroundIfSelected;
    cbn [Home.setLoading Home.setError Home.removeBackgroundOption];
    destruct (Home.removeBackgroundOption s); cbn; repeat split.
Qed.

Lemma failed_submission_keeps_results_witness :
  Home.error
    (Home.handleLogoSubmit sampleDecode
       (Home.mkState "logo" false None
          (Some "Logo processed successfully!"%string)
          (Some Undecodable) None false None None false None None true 30
          "#FFFFFF")
       None)
  = Some "Error processing logo: Failed to load image"%string /\
  Home.success
    (Home.handleLogoSubmit sampleDecode
       (Home.mkState "logo" false None
          (Some "Logo processed successfully!"%string)
          (Some Undecodable) None false None None false None None true 30
          "#FFFFFF")
       None)
  = Some "Logo processed successfully!"%string.
Proof.
  destruct (failed_submission_keeps_results sampleDecode
              (Home.mkState "logo" false None
                 (Some "Logo processed successfully!"%string)
                 (Some Undecodable) None false None None false None None
                 true 30 "#FFFFFF")
              None Undecodable (or_intror eq_refl)) as [L _].
  destruct (L eq_refl) as (E & _ & _ & S). split; [exact E|exact S].
Defined.

Lemma logo_results_presentable (img : Image) (transparent : bool) :
  (0 < width img)%Z -> (0 < height img)%Z ->
  let c := Logo.createRectangularLogo img (5 # 2) 400 160 transparent in
  (exists k : Z,
     (0 < k)%Z /\
     canvas_width c == inject_Z (5 * k) /\
     canvas_height c == inject_Z (2 * k)) /\
  400 <= canvas_width c /\ 160 <= canvas_height c /\
  40 <= canvas_width (Logo.createSquareLogo img 40 transparent) /\
  canvas_width (Logo.createIcoFromSquare img transparent) == 64 /\
  canvas_height (Logo.createIcoFromSquare img transparent) == 64.
Proof.
  intros Hw Hh.
  destruct (logo_fit_units (width img) (height img) 400 160 Hw Hh)
    as (k & Hk & U1 & U2).
  assert (Ha : 0 < 5 # 2) by reflexivity.
  pose proof (logo_fit_meets (width img) (height img) (5 # 2) 400 160 Hh Ha)
    as [M1 M2].
  pose proof (squareSize_bounds (width img) (height img) 40) as (_ & _ & B).
  cbv zeta. unfold Logo.createRectangularLogo, Logo.createSquareLogo,
    Logo.createIcoFromSquare.
  destruct (Logo.fit _ _ _ _ _) as [w h].
  destruct (Logo.offsets _ _ _) as [x y].
  destruct (Logo.icoPlacement _ _ _) as [[sw sh] [ix iy]].
  cbn [canvas_width canvas_height fst snd] in *.
  split; [exists k; auto|]. split; [exact M1|]. split; [exact M2|].
  split; [exact B|]. split; reflexivity.
Qed.

Lemma keeps_same (s s' : Home.State) :
  Home.logoFile s' = Home.logoFile s ->
  Home.headshotFile s' = Home.headshotFile s ->
  Home.logoResults s' = Home.logoResults s ->
  Home.headshotResult s' = Home.headshotResult s ->
  keeps s -> keeps s'.
Proof.
  unfold keeps, presentable. intros -> -> -> ->. tauto.
Qed.

Lemma handleLogoSubmit_keeps
      (decode : Canvas -> option Image) (s : Home.State)
      (croppedFile : option Upload) :
  keepsSize decode ->
  match croppedFile with Some file => soundUpload file | None => True end ->
  keeps s -> keeps (Home.handleLogoSubmit decode s croppedFile).
Proof.
  intros K Hc I. unfold Home.handleLogoSubmit.
  assert (F : match match croppedFile with
                    | Some file => Some file
                    | None => Home.logoFile s
                    end with
              | Some file => soundUpload file
              | None => True
              end).
  { destruct croppedFile; [exact Hc|]. apply I. }
  destruct (match croppedFile with
            | Some file => Some file
            | None => Home.logoFile s
            end) as [file|].
  - destruct file as [| |img].
    + unfold Home.removeBackgroundIfSelected.
      destruct (Home.removeBackgroundOption _);
        (eapply keeps_same; [| | | |exact I]; reflexivity).
    + unfold Home.removeBackgroundIfSelected.
      destruct (Home.removeBackgroundOption _);
        (eapply keeps_same; [| | | |exact I]; reflexivity).
    + destruct F as [Hw Hh].
      destruct (fileOf_removeBackground decode
                  (Home.setError None (Home.setLoading true s)) img K Hw Hh)
        as (v & R & Ew & Eh).
      rewrite R. rewrite <- Ew in Hw. rewrite <- Eh in Hh.
      destruct I as (I1 & I2 & _ & I4).
      split; [exact I1|]. split; [exact I2|]. split; [|exact I4].
      cbn [Logo.processLogo Logo.square Logo.ico andb Logo.transparent
           Logo.aspectRatio Logo.minWidth Logo.minHeight].
      cbn [Home.setLoading Home.setError Home.setSuccess Home.setLogoResults
           Home.logoResults Home.transparentBg].
      intros results [= <-].
      cbn [Logo.rectangular Logo.res_square Logo.res_ico].
      destruct (logo_results_presentable v (Home.transparentBg s) Hw Hh)
        as (U & M1 & M2 & Q & C1 & C2).
      split; [exact U|]. split; [exact M1|]. split; [exact M2|].
      split; [eexists; split; [reflexivity|split; [reflexivity|exact Q]]|].
      eexists; split; [reflexivity|split; assumption].
  - eapply keeps_same; [| | | |exact I]; reflexivity.
Qed.

Lemma handleHeadshotSubmit_keeps
      (decode : Canvas -> option Image) (s : Home.State)
      (croppedFile : option Upload) :
  keepsSize decode ->
  match croppedFile with Some file => soundUpload file | None => True end ->
  keeps s -> keeps (Home.handleHeadshotSubmit decode s croppedFile).
Proof.
  intros K Hc I. unfold Home.handleHeadshotSubmit.
  assert (F : match match croppedFile with
                    | Some file => Some file
                    | None => Home.headshotFile s
                    end with
              | Some file => soundUpload file
              | None => True
              end).
  { destruct croppedFile; [exact Hc|]. apply I. }
  destruct (match croppedFile with
            | Some file => Some file
            | None => Home.headshotFile s
            end) as [file|].
  - destruct file as [| |img].
    + unfold Home.removeBackgroundIfSelected.
      destruct (Home.removeBackgroundOption _);
        (eapply keeps_same; [| | | |exact I]; reflexivity).
    + unfold Home.removeBackgroundIfSelected.
      destruct (Home.removeBackgroundOption _);
        (eapply keeps_same; [| | | |exact I]; reflexivity).
    + destruct F as [Hw Hh].
      destruct (fileOf_removeBackground decode
                  (Home.setError None (Home.setLoading true s)) img K Hw Hh)
        as (v & R & Ew & Eh).
      rewrite R.
      destruct I as (I1 & I2 & (I3 & _)).
      split; [exact I1|]. split; [exact I2|]. split; [exact I3|].
      cbn [Headshot.processHeadshot Headshot.minWidth Headshot.minHeight
           Headshot.targetRatio].
      cbn [Home.setLoading Home.setError Home.setSuccess
           Home.setHeadshotResult Home.headshotResult].
      intros result [= <-].
      pose proof (headshot_default_meets (width v) (height v)) as M.
      unfold Headshot.createHeadshot.
      destruct (Headshot.fit _ _ _ _ _) as [w h].
      destruct (Headshot.offsets _ _ _) as [x y]. exact M.
  - eapply keeps_same; [| | | |exact I]; reflexivity.
Qed.

Lemma step_keeps (decode : Canvas -> option Image) (s : Home.State)
      (e : Home.Event) :
  keepsSize decode -> soundEvent e -> keeps s ->
  keeps (Home.step decode s e).
Proof.
  intros K He I.
  destruct e as [file|file|type|file| | | |failure| |tab|checked|checked
                 |value|value]; cbn [Home.step].
  - destruct file as [file|]; [|exact I].
    destruct I as (_ & I2 & _ & I4). cbn [soundEvent] in He.
    unfold Home.handleLogoChange.
    destruct file; (split; [exact He|]; split; [exact I2|];
                    split; [intros r; discriminate|exact I4]).
  - destruct file as [file|]; [|exact I].
    destruct I as (I1 & _ & I3 & _). cbn [soundEvent] in He.
    unfold Home.handleHeadshotChange.
    destruct file; (split; [exact I1|]; split; [exact He|];
                    split; [exact I3|intros r; discriminate]).
  - eapply keeps_same; [| | | |exact I]; reflexivity.
  - cbn [soundEvent] in He. unfold Home.handleCropComplete.
    destruct (Home.cropperType _) as [type|].
    + destruct (String.eqb type "logo") eqn:T.
      * apply String.eqb_eq in T. subst type.
        apply handleLogoSubmit_keeps; [exact K|exact He|].
        destruct I as (_ & I2 & I3 & I4).
        split; [exact He|]. split; [exact I2|]. split; assumption.
      * assert (G : keeps (Home.handleHeadshotSubmit decode
                             (Home.setHeadshotFile (Some file)
                                (Home.setLoading true
                                   (Home.setShowCropper false s)))
                             (Some file))).
        { apply handleHeadshotSubmit_keeps; [exact K|exact He|].
          destruct I as (I1 & _ & I3 & I4).
          split; [exact I1|]. split; [exact He|]. split; assumption. }
        revert G. generalize (Home.setLoading true
                                (Home.setShowCropper false s)).
        intros s0 G. apply String.eqb_neq in T.
        destruct type as [|[[] [] [] [] [] [] [] []] t]; try exact G.
        destruct t as [|[[] [] [] [] [] [] [] []] t]; try exact G.
        destruct t as [|[[] [] [] [] [] [] [] []] t]; try exact G.
        destruct t as [|[[] [] [] [] [] [] [] []] t]; try exact G.
        destruct t; [|exact G]. now elim T.
    + apply handleHeadshotSubmit_keeps; [exact K|exact He|].
      destruct I as (I1 & _ & I3 & I4).
      split; [exact I1|]. split; [exact He|]. split; assumption.
  - eapply keeps_same; [| | | |exact I]; reflexivity.
  - now apply handleLogoSubmit_keeps.
  - now apply handleHeadshotSubmit_keeps.
  - destruct failure; (eapply keeps_same; [| | | |exact I]; reflexivity).
  - eapply keeps_same; [| | | |exact I]; reflexivity.
  - eapply keeps_same; [| | | |exact I]; reflexivity.
  - eapply keeps_same; [| | | |exact I]; reflexivity.
  - eapply keeps_same; [| | | |exact I]; reflexivity.
  - destruct (parseInt _);
      (eapply keeps_same; [| | | |exact I]; reflexivity).
  - eapply keeps_same; [| | | |exact I]; reflexivity.
Qed.

(** X28.  Whatever is done on the page, in any order (files chosen,
    crops completed or cancelled, options changed, submissions, copies),
    what it holds as results is fit to be shown, provided the images
    uploaded are not empty: a logo result always has a rectangular logo
    of exactly 5:2 that is at least 400 x 160, a square logo of side 40
    or more and a 64 x 64 favicon, and a headshot result is always at
    least 292 x 400. *)
Theorem page_results_are_presentable
        (decode : Canvas -> option Image) (events : list Home.Event) :
  keepsSize decode -> Forall soundEvent events ->
  presentable (Home.run decode events).
Proof.
  intros K F.
  assert (I : keeps Home.initial).
  { split; [exact Logic.I|]. split; [exact Logic.I|].
    split; intros r; discriminate. }
  unfold Home.run. revert I. generalize Home.initial.
  induction F as [|e events He F IH]; intros s I; cbn [fold_left].
  - apply I.
  - apply IH. now apply step_keeps.
Qed.

Lemma page_results_are_presentable_witness :
  presentable
    (Home.run sampleDecode
       [Home.LogoChange (Some (Loaded twoColumns));
        Home.RemoveBackgroundChange true;
        Home.LogoSubmit;
        Home.Crop "logo";
        Home.CropComplete (Loaded (flatImage 50 80));
        Home.HeadshotChange (Some Undecodable);
        Home.HeadshotSubmit]).
Proof.
  apply (page_results_are_presentable sampleDecode
           [Home.LogoChange (Some (Loaded twoColumns));
            Home.RemoveBackgroundChange true;
            Home.LogoSubmit;
            Home.Crop "logo";
            Home.CropComplete (Loaded (flatImage 50 80));
            Home.HeadshotChange (Some Undecodable);
            Home.HeadshotSubmit]).
  - intros c Hw Hh. unfold sampleDecode.
    apply Z.ltb_lt in Hw, Hh. rewrite Hw, Hh. cbn [andb].
    eexists. split; [reflexivity|]. split; reflexivity.
  - repeat constructor; cbn; lia.
Defined.
